(** * IME dictionary converter ([ime_convert.py]): decoders and reducers

    A shallow embedding of the Baidu [.bdict]/[.bcd] decoder, the Sogou
    [.scel] decoder and the two reducers that feed the writers, followed by
    the properties of the specification that they satisfy (or fail).

    Conventions of the embedding.
    - A Python [int] is a [Z]; a [bytes] object is a [list byte]; a Python
      [str] is the list of its Unicode code points.
    - [b[i]] and [b[lo:hi]] follow Python: a negative index counts from the
      end, an index out of range raises [IndexError], a slice never raises.
    - Exceptions are values of [result]; [while] loops take fuel, and the
      entry points supply [length data] of it, which is shown to suffice. *)

From Stdlib Require Import ZArith List Lia Bool.
From Stdlib Require Import Strings.Byte Strings.Ascii Strings.String.
From Stdlib Require Import Numbers.DecimalString.
From stdpp Require Import base option list gmap.

Local Open Scope Z_scope.

(** ** Python values *)

Abbreviation bytes := (list byte).
Abbreviation str := (list Z).

Definition byte_to_Z (b : byte) : Z := Z.of_N (Byte.to_N b).

(** [len(x)] *)
Definition len {A} (l : list A) : Z := Z.of_nat (length l).

(** A string literal of the source, as code points. *)
Fixpoint py (s : string) : list Z :=
  match s with
  | EmptyString => []
  | String c s' => Z.of_N (N_of_ascii c) :: py s'
  end.

(** Truthiness of a sequence: [if p] / [not w]. *)
Definition truthy {A} (l : list A) : bool :=
  match l with [] => false | _ => true end.

(** ** Exceptions *)

Inductive exn := EOFError | IndexError | OutOfFuel.

Inductive result (A : Type) :=
| Ok (a : A)
| Raise (e : exn).
Arguments Ok {A} a.
Arguments Raise {A} e.

Global Instance result_ret : MRet result := fun _ a => Ok a.
Global Instance result_bind : MBind result := fun _ _ f m =>
  match m with Ok a => f a | Raise e => Raise e end.
Global Instance result_fmap : FMap result := fun _ _ f m =>
  match m with Ok a => Ok (f a) | Raise e => Raise e end.

(** [try: m  except EOFError: h] *)
Definition except_EOFError {A} (m : result A) (h : result A) : result A :=
  match m with
  | Raise EOFError => h
  | _ => m
  end.

(** ** Indexing and slicing *)

(** [b[i]] on a sequence. *)
Definition getitem {A} (b : list A) (i : Z) : result A :=
  let j := if i <? 0 then i + len b else i in
  if (j <? 0) || (len b <=? j) then Raise IndexError
  else match b !! Z.to_nat j with
       | Some x => Ok x
       | None => Raise IndexError
       end.

(** [b[i]] on [bytes]: the byte as an [int]. *)
Definition byte_at (b : bytes) (i : Z) : result Z :=
  byte_to_Z <$> getitem b i.

(** Clamping of one slice bound, as [PySlice_AdjustIndices] does (step 1). *)
Definition slice_bound {A} (b : list A) (i : Z) : Z :=
  if i <? 0 then Z.max 0 (i + len b) else Z.min i (len b).

(** [b[lo:hi]] *)
Definition slice {A} (b : list A) (lo hi : Z) : list A :=
  let lo' := slice_bound b lo in
  let hi' := slice_bound b hi in
  take (Z.to_nat (hi' - lo')) (drop (Z.to_nat lo') b).

(** ** Text codecs used by the decoders *)

Definition u16 (lo hi : Z) : Z := Z.lor lo (Z.shiftl hi 8).

Definition is_high_surrogate (u : Z) : bool := (0xD800 <=? u) && (u <=? 0xDBFF).
Definition is_low_surrogate (u : Z) : bool := (0xDC00 <=? u) && (u <=? 0xDFFF).
Definition join_surrogates (h l : Z) : Z :=
  0x10000 + Z.lor (Z.shiftl (Z.land h 0x3FF) 10) (Z.land l 0x3FF).

(** [bs.decode("utf-16le", errors="ignore")]: a lone low surrogate and a
    high surrogate not followed by a low one are dropped (two bytes each);
    a dangling last byte, and a high surrogate with fewer than two bytes
    after it, end the text. *)
Fixpoint decode_utf16le (bs : bytes) : str :=
  match bs with
  | b0 :: b1 :: rest =>
      let u := u16 (byte_to_Z b0) (byte_to_Z b1) in
      if is_high_surrogate u then
        match rest with
        | b2 :: b3 :: rest' =>
            let u' := u16 (byte_to_Z b2) (byte_to_Z b3) in
            if is_low_surrogate u' then join_surrogates u u' :: decode_utf16le rest'
            else decode_utf16le rest
        | _ => []
        end
      else if is_low_surrogate u then decode_utf16le rest
      else u :: decode_utf16le rest
  | _ => []
  end.

(** [bs.decode("ascii", errors="ignore")] *)
Definition decode_ascii (bs : bytes) : str :=
  filter (fun c => c < 128) (map byte_to_Z bs).

(** [chr(i)] for a byte value. *)
Definition chr (i : Z) : str := [i].

(** [str.isspace] for one code point ([_PyUnicode_IsWhitespace]). *)
Definition is_space (c : Z) : bool :=
  ((0x09 <=? c) && (c <=? 0x0D)) || ((0x1C <=? c) && (c <=? 0x20))
  || (c =? 0x85) || (c =? 0xA0) || (c =? 0x1680)
  || ((0x2000 <=? c) && (c <=? 0x200A))
  || (c =? 0x2028) || (c =? 0x2029) || (c =? 0x202F) || (c =? 0x205F)
  || (c =? 0x3000).

Fixpoint lstrip (s : str) : str :=
  match s with
  | c :: s' => if is_space c then lstrip s' else s
  | [] => []
  end.

Definition rstrip (s : str) : str := rev (lstrip (rev s)).

(** [s.strip()] *)
Definition strip (s : str) : str := rstrip (lstrip s).

(** [str(i)] / the [{freq}] field of an f-string. *)
Definition str_of_int (i : Z) : str := py (NilZero.string_of_int (Z.to_int i)).

(** [sep.join(parts)] *)
Fixpoint join (sep : str) (parts : list str) : str :=
  match parts with
  | [] => []
  | [p] => p
  | p :: rest => p ++ sep ++ join sep rest
  end.

(** ** The entry model *)

(** [freq] is declared [int] with default 1; the merge reducer also guards
    against [None], so the field is an [option]. *)
Record Entry := mkEntry {
  word : str;
  pinyin : list str;
  freq : option Z
}.

Global Instance Entry_eq_dec : EqDecision Entry.
Proof. solve_decision. Defined.


(** ** Reducers *)

Definition TAB : str := [9].
Definition NL : str := [10].

(** [_uniq_stable_words]: the [for] loop, with [seen] and [out] as state. *)
Fixpoint uniq_loop (entries : list Entry) (seen : gset (list Z)) (out : list str)
  : list str :=
  match entries with
  | [] => out
  | e :: rest =>
      let w := strip (word e) in
      if negb (truthy w) || bool_decide (w ∈ seen)
      then uniq_loop rest seen out
      else uniq_loop rest ({[w]} ∪ seen) (out ++ [w])
  end.

Definition _uniq_stable_words (entries : list Entry) : list str :=
  uniq_loop entries ∅ [].

(** [write_words_txt]: the text written to the file. *)
Definition write_words_txt (entries : list Entry) : str :=
  concat (map (fun w => w ++ NL) (_uniq_stable_words entries)).

(** A [dict] whose iteration order matters: keys in insertion order. *)
Abbreviation dict V := (list (list Z * V)).

(** [d.get(k)] *)
Fixpoint dict_get {V} (d : dict V) (k : str) : option V :=
  match d with
  | [] => None
  | (k', v) :: d' => if decide (k = k') then Some v else dict_get d' k
  end.

(** [d[k] = v]: an existing key keeps its place, a new key goes last. *)
Fixpoint dict_set {V} (d : dict V) (k : str) (v : V) : dict V :=
  match d with
  | [] => [(k, v)]
  | (k', v') :: d' =>
      if decide (k = k') then (k', v) :: d' else (k', v') :: dict_set d' k v
  end.

(** [x or 0] for an optional [int]. *)
Definition or0 (x : option Z) : Z :=
  match x with
  | Some v => if v =? 0 then 0 else v
  | None => 0
  end.

(** One iteration of the merge loop of [write_rime_yaml]. *)
Definition rime_best_step (best : dict (list str * Z)) (e : Entry)
  : dict (list str * Z) :=
  let cur := dict_get best (word e) in
  let better :=
    match cur with
    | None => true
    | Some c => or0 (freq e) >? or0 (Some (snd c))
    end in
  if better
  then dict_set best (word e)
         (pinyin e, match freq e with Some f => f | None => 1 end)
  else best.

(** The [best] dictionary built by [write_rime_yaml]. *)
Definition rime_best (entries : list Entry) : dict (list str * Z) :=
  fold_left rime_best_step entries [].

(** One output line: [f"{w}\t{py_str}\t{freq}\n"]. *)
Definition rime_line (item : list Z * (list str * Z)) : str :=
  let '(w, (p, f)) := item in
  let py_str := if truthy p then join (py " ") p else [] in
  w ++ TAB ++ py_str ++ TAB ++ str_of_int f ++ NL.

Definition rime_lines (entries : list Entry) : list str :=
  map rime_line (rime_best entries).

Definition rime_header (name : str) : str :=
  py "# Rime dictionary" ++ NL ++ py "# encoding: utf-8" ++ NL ++
  py "---" ++ NL ++ py "name: " ++ name ++ NL ++
  py "version: " ++ [34] ++ py "0.1" ++ [34] ++ NL ++
  py "sort: by_weight" ++ NL ++
  py "use_preset_vocabulary: false" ++ NL ++ py "..." ++ NL.

(** [write_rime_yaml]: the text written to the file. *)
Definition write_rime_yaml (entries : list Entry) (name : str) : str :=
  rime_header name ++ concat (rime_lines entries).

(** ** Baidu [.bdict] / [.bcd] *)

Definition BDICT_SM : list str := map py
  ["c"; "d"; "b"; "f"; "g"; "h"; "ch"; "j"; "k"; "l"; "m"; "n";
   ""; "p"; "q"; "r"; "s"; "t"; "sh"; "zh"; "w"; "x"; "y"; "z"]%string.

Definition BDICT_YM : list str := map py
  ["uang"; "iang"; "iong"; "ang"; "eng"; "ian"; "iao"; "ing"; "ong";
   "uai"; "uan"; "ai"; "an"; "ao"; "ei"; "en"; "er"; "ua"; "ie"; "in"; "iu";
   "ou"; "ia"; "ue"; "ui"; "un"; "uo"; "a"; "e"; "i"; "o"; "u"; "v"]%string.

Definition _u16le (b : bytes) (off : Z) : result (Z * Z) :=
  if off + 2 >? len b then Raise EOFError
  else
    lo ← byte_at b off;
    hi ← byte_at b (1 + off);
    mret (Z.lor lo (Z.shiftl hi 8), off + 2).

(** The syllable loop of a standard record: [k] iterations left.  [None]
    is [ok = False]. *)
Fixpoint baidu_syllables (k : nat) (data : bytes) (off : Z) (pinyin : list str)
  : result (option (Z * list str)) :=
  match k with
  | O => Ok (Some (off, pinyin))
  | S k' =>
      if len data - off <? 2 then Ok None
      else
        sm_i ← byte_at data off;
        ym_i ← byte_at data (off + 1);
        let off := off + 2 in
        if sm_i =? 0xFF then
          baidu_syllables k' data off (pinyin ++ [chr ym_i])
        else if (sm_i >=? len BDICT_SM) || (ym_i >=? len BDICT_YM) then Ok None
        else
          sm ← getitem BDICT_SM sm_i;
          ym ← getitem BDICT_YM ym_i;
          baidu_syllables k' data off (pinyin ++ [sm ++ ym])
  end.

(** The body of the [while] loop of [parse_baidu] at offset [off]:
    [None] is [break], [Some (off', e)] appends [e] and goes on at [off']. *)
Definition baidu_record (data : bytes) (off : Z) : result (option (Z * Entry)) :=
  let n := len data in
  let header :=
    '(py_len, off) ← _u16le data off;
    '(freq, off) ← _u16le data off;
    mret (Some (py_len, freq, off)) in
  hd ← except_EOFError header (Ok None);
  match hd with
  | None => Ok None
  | Some (py_len, freq, off) =>
      if n - off <? 2 then Ok None
      else
        peek0 ← byte_at data off;
        peek1 ← byte_at data (off + 1);
        if (peek0 =? 0x00) && (peek1 =? 0x00) then
          (* Type 3 *)
          let off := off + 2 in
          wl ← except_EOFError (Some <$> _u16le data off) (Ok None);
          match wl with
          | None => Ok None
          | Some (word_len, off) =>
              let need := py_len * 2 + word_len * 2 in
              if n - off <? need then Ok None
              else
                let code := decode_utf16le (slice data off (off + py_len * 2)) in
                let off := off + py_len * 2 in
                let word := decode_utf16le (slice data off (off + word_len * 2)) in
                let off := off + word_len * 2 in
                Ok (Some (off, mkEntry word [code] (Some freq)))
          end
        else
          let sm_idx := peek0 in
          if (sm_idx >=? len BDICT_SM) && negb (sm_idx =? 0xFF) then
            (* Type 2 (english) *)
            let off := off + 1 in
            if n - off <? py_len then Ok None
            else
              let eng := decode_ascii (slice data off (off + py_len)) in
              let off := off + py_len in
              Ok (Some (off, mkEntry eng [eng] (Some freq)))
          else
            (* Type 1 (normal) *)
            syl ← baidu_syllables (Z.to_nat py_len) data off [];
            match syl with
            | None => Ok None
            | Some (off, pinyin) =>
                let need := py_len * 2 in
                if n - off <? need then Ok None
                else
                  let word := decode_utf16le (slice data off (off + need)) in
                  let off := off + need in
                  Ok (Some (off, mkEntry word pinyin (Some freq)))
            end
  end.

(** The [while remain() > 4] loop. *)
Fixpoint baidu_loop (fuel : nat) (data : bytes) (off : Z) (out : list Entry)
  : result (list Entry) :=
  if len data - off >? 4 then
    match fuel with
    | O => Raise OutOfFuel
    | S fuel' =>
        r ← baidu_record data off;
        match r with
        | None => Ok out
        | Some (off', e) => baidu_loop fuel' data off' (out ++ [e])
        end
    end
  else Ok out.

Definition BAIDU_START_OFFSET : Z := 0x350.

Definition parse_baidu (data : bytes) (start_offset : Z) : result (list Entry) :=
  baidu_loop (length data) data start_offset [].

(** ** Sogou [.scel] *)

(** The [while] loop of [_read_pinyin_table_scel]. *)
Fixpoint pinyin_table_loop (fuel : nat) (data : bytes) (start_chinese pos : Z)
    (py_table : gmap Z (list Z)) : result (gmap Z (list Z)) :=
  if (pos + 4 <=? len data) && (pos <? start_chinese) then
    match fuel with
    | O => Raise OutOfFuel
    | S fuel' =>
        lo ← byte_at data pos;
        hi ← byte_at data (pos + 1);
        let index := Z.lor lo (Z.shiftl hi 8) in
        let pos := pos + 2 in
        lo ← byte_at data pos;
        hi ← byte_at data (pos + 1);
        let ln := Z.lor lo (Z.shiftl hi 8) in
        let pos := pos + 2 in
        if (ln <=? 0) || (pos + ln >? len data) then Ok py_table
        else
          let p := decode_utf16le (slice data pos (pos + ln)) in
          let pos := pos + ln in
          pinyin_table_loop fuel' data start_chinese pos (<[index := p]> py_table)
    end
  else Ok py_table.

Definition _read_pinyin_table_scel (data : bytes) (start_py start_chinese : Z)
  : result (gmap Z (list Z)) :=
  let pos := start_py + 4 in
  pinyin_table_loop (length data) data start_chinese pos ∅.

(** [range(0, stop, 2)] *)
Definition range2 (stop : Z) : list Z :=
  map (fun k => 2 * Z.of_nat k) (seq 0 (Z.to_nat ((stop + 1) / 2))).

(** The [for i in range(0, len(py_bytes), 2)] loop. *)
Fixpoint py_indexes_loop (idxs : list Z) (py_bytes : bytes)
    (py_table : gmap Z (list Z)) (out : list str) : result (list str) :=
  match idxs with
  | [] => Ok out
  | i :: idxs' =>
      lo ← byte_at py_bytes i;
      hi ← byte_at py_bytes (i + 1);
      let idx := Z.lor lo (Z.shiftl hi 8) in
      let p := default [] (py_table !! idx) in
      if truthy p then py_indexes_loop idxs' py_bytes py_table (out ++ [p])
      else py_indexes_loop idxs' py_bytes py_table out
  end.

Definition _parse_py_indexes_scel (py_bytes : bytes) (py_table : gmap Z (list Z))
  : result (list str) :=
  let py_bytes :=
    if len py_bytes mod 2 =? 1 then slice py_bytes 0 (-1) else py_bytes in
  py_indexes_loop (range2 (len py_bytes)) py_bytes py_table [].

(** The local [_u16le_mem] of [parse_scel]. *)
Definition _u16le_mem (b : bytes) (p : Z) : result (Z * Z) :=
  if p + 2 >? len b then Raise EOFError
  else
    lo ← byte_at b p;
    hi ← byte_at b (p + 1);
    mret (Z.lor lo (Z.shiftl hi 8), p + 2).

(** [int.from_bytes(bs, "little", signed=False)] *)
Fixpoint from_bytes_little (bs : bytes) : Z :=
  match bs with
  | [] => 0
  | b :: bs' => byte_to_Z b + 256 * from_bytes_little bs'
  end.

(** The frequency of a word, from its extension bytes. *)
Definition scel_freq (ext : bytes) : Z :=
  if len ext >=? 2 then from_bytes_little (slice ext 0 2) else 0.

(** The [for _ in range(same)] loop of a group, [k] iterations left.  A
    [break] leaves the loop with the position reached so far. *)
Fixpoint scel_words (k : nat) (data : bytes) (py_list : list str)
    (pos : Z) (out : list Entry) : result (Z * list Entry) :=
  match k with
  | O => Ok (pos, out)
  | S k' =>
      let n := len data in
      if n - pos <? 2 then Ok (pos, out)
      else
        '(wlen, pos) ← _u16le_mem data pos;
        if (wlen <=? 0) || (n - pos <? wlen) then Ok (pos, out)
        else
          let word := decode_utf16le (slice data pos (pos + wlen)) in
          let pos := pos + wlen in
          if n - pos <? 2 then Ok (pos, out)
          else
            '(ext_len, pos) ← _u16le_mem data pos;
            if (ext_len <? 0) || (n - pos <? ext_len) then Ok (pos, out)
            else
              let ext := slice data pos (pos + ext_len) in
              let pos := pos + ext_len in
              let freq := scel_freq ext in
              scel_words k' data py_list pos
                (out ++ [mkEntry word py_list (Some freq)])
  end.

(** The body of the [while] loop of [parse_scel]: [None] is [break]. *)
Definition scel_group (data : bytes) (py_table : gmap Z (list Z))
    (pos : Z) (out : list Entry) : result (option (Z * list Entry)) :=
  let n := len data in
  let header :=
    '(same, pos) ← _u16le_mem data pos;
    '(py_idx_len, pos) ← _u16le_mem data pos;
    mret (Some (same, py_idx_len, pos)) in
  hd ← except_EOFError header (Ok None);
  match hd with
  | None => Ok None
  | Some (same, py_idx_len, pos) =>
      if (py_idx_len <=? 0) || (n - pos <? py_idx_len) then Ok None
      else
        let py_idx := slice data pos (pos + py_idx_len) in
        let pos := pos + py_idx_len in
        py_list ← _parse_py_indexes_scel py_idx py_table;
        Some <$> scel_words (Z.to_nat same) data py_list pos out
  end.

(** The [while remain() > 8] loop. *)
Fixpoint scel_loop (fuel : nat) (data : bytes) (py_table : gmap Z (list Z))
    (pos : Z) (out : list Entry) : result (list Entry) :=
  if len data - pos >? 8 then
    match fuel with
    | O => Raise OutOfFuel
    | S fuel' =>
        r ← scel_group data py_table pos out;
        match r with
        | None => Ok out
        | Some (pos', out') => scel_loop fuel' data py_table pos' out'
        end
    end
  else Ok out.

Definition SCEL_START_PY : Z := 0x1540.
Definition SCEL_START_CHINESE : Z := 0x2628.

Definition parse_scel (data : bytes) (start_py start_chinese : Z)
  : result (list Entry) :=
  py_table ← _read_pinyin_table_scel data start_py start_chinese;
  scel_loop (length data) data py_table start_chinese [].

(** ** Building buffers *)

(** The byte of value [z mod 256]. *)
Definition byte_of_Z (z : Z) : byte :=
  default x00 (Byte.of_N (Z.to_N (z mod 256))).

Definition bytes_of (l : list Z) : bytes := map byte_of_Z l.

(** The two bytes of a 16-bit value, little-endian. *)
Definition le16 (v : Z) : bytes := [byte_of_Z v; byte_of_Z (v / 256)].

(** ** Definitions that follow the wording of the specification *)

(** The bytes of an index list read as 16-bit little-endian values; a
    dangling last byte is discarded. *)
Fixpoint u16_indices (bs : bytes) : list Z :=
  match bs with
  | b0 :: b1 :: rest => u16 (byte_to_Z b0) (byte_to_Z b1) :: u16_indices rest
  | _ => []
  end.

(** Each index resolved against the table, keeping the non-empty lookups. *)
Definition resolve_pinyin (py_table : gmap Z (list Z)) (idxs : list Z) : list str :=
  filter (fun p => p <> []) (map (fun idx => default [] (py_table !! idx)) idxs).

(** The pinyin list of a group, from the bytes of its index list. *)
Definition group_pinyin (py_bytes : bytes) (py_table : gmap Z (list Z)) : list str :=
  resolve_pinyin py_table (u16_indices py_bytes).

(** The distinct elements of a list, in the order of their first
    occurrence. *)
Fixpoint first_occurrences (l : list str) : list str :=
  match l with
  | [] => []
  | x :: l' => x :: filter (fun y => y <> x) (first_occurrences l')
  end.

(** The words of an entry sequence as the word-list reducer sees them:
    trimmed, the empty ones left out. *)
Definition trimmed_words (entries : list Entry) : list str :=
  filter (fun w => w <> []) (map (fun e => strip (word e)) entries).

(** The loop heads of [parse_baidu]: [baidu_reach data start off out] when
    the [while] loop, started at [start] with no entry, comes back to its
    test at offset [off] with the entries [out]. *)
Inductive baidu_reach (data : bytes) (start : Z) : Z -> list Entry -> Prop :=
| baidu_reach_start : baidu_reach data start start []
| baidu_reach_next off out off' e :
    baidu_reach data start off out ->
    len data - off > 4 ->
    baidu_record data off = Ok (Some (off', e)) ->
    baidu_reach data start off' (out ++ [e]).

(** A syllable pair that is a table lookup with an index out of range. *)
Definition bad_pair (sm_i ym_i : Z) : Prop :=
  sm_i <> 0xFF /\ (sm_i >= len BDICT_SM \/ ym_i >= len BDICT_YM).

(** The record at [off] reads [py_len] and [fr] in its header and is one
    the loop body takes as a standard record: its two peeked bytes are not
    both zero, and the first is an initial index in range or the raw-code
    sentinel. *)
Definition standard_record_at (data : bytes) (off py_len fr : Z) : Prop :=
  exists p0 p1,
    _u16le data off = Ok (py_len, off + 2) /\
    _u16le data (off + 2) = Ok (fr, off + 4) /\
    byte_at data (off + 4) = Ok p0 /\
    byte_at data (off + 5) = Ok p1 /\
    ~ (p0 = 0 /\ p1 = 0) /\
    (p0 < len BDICT_SM \/ p0 = 0xFF).

(** ** Example buffers *)

(** A Sogou word area (no pinyin table, both offsets 0): a group of one
    word whose length field, [0xFFFF], exceeds the bytes that remain,
    followed by the bytes of a well-formed group of one word. *)
Definition scel_resume_buffer : bytes :=
  bytes_of [1; 0;  2; 0;  0; 0;  0xff; 0xff;
            1; 0;  2; 0;  0; 0;  2; 0;  0x61; 0;  0; 0].


(** A Baidu standard record: [pinyin_len = 1], [freq = 5], the pair
    (initial 0, final 27) and one UTF-16LE character. *)
Definition baidu_final27_buffer : bytes :=
  bytes_of [1; 0;  5; 0;  0; 27;  0x60; 0x4f].


(** A Sogou buffer ([start_py = 0], [start_chinese = 22]): the table
    [{5: "ni", 9: "hao"}], then one group of one two-character word. *)
Definition scel_nihao_buffer : bytes :=
  bytes_of [0; 0; 0; 0;
            5; 0;  4; 0;  110; 0;  105; 0;
            9; 0;  6; 0;  104; 0;  97; 0;  111; 0;
            1; 0;  4; 0;  5; 0;  9; 0;
            4; 0;  0x60; 0x4f;  0x7d; 0x59;
            2; 0;  10; 0].

(** A Baidu buffer: a complete standard record, then a standard record
    that declares three syllables and ends after the first pair. *)
Definition baidu_mid_syllable_buffer : bytes :=
  bytes_of [1; 0;  5; 0;  0; 27;  0x60; 0x4f;
            3; 0;  7; 0;  0; 27].

(** A Baidu buffer: a complete standard record, then a standard record of
    two syllables whose second pair has final index 33. *)
Definition baidu_bad_final_buffer : bytes :=
  bytes_of [1; 0;  5; 0;  0; 27;  0x60; 0x4f;
            2; 0;  7; 0;  0; 27;  1; 33;  0x60; 0x4f;  0x7d; 0x59].

(** ** The record formats, as the decoders read them *)

(** The syllable a standard record's pair stands for: the raw code point
    after the sentinel [0xFF], an initial and a final of the tables
    otherwise. *)
Definition syllable (p : byte * byte) : str :=
  let sm_i := byte_to_Z p.1 in
  let ym_i := byte_to_Z p.2 in
  if sm_i =? 0xFF then chr ym_i
  else default [] (BDICT_SM !! Z.to_nat sm_i) ++
       default [] (BDICT_YM !! Z.to_nat ym_i).

(** A pair the syllable loop accepts. *)
Definition valid_pair (p : byte * byte) : Prop :=
  byte_to_Z p.1 = 0xFF \/
  (byte_to_Z p.1 < len BDICT_SM /\ byte_to_Z p.2 < len BDICT_YM).

Definition pair_bytes (ps : list (byte * byte)) : bytes :=
  concat (map (fun p => [p.1; p.2]) ps).

(** The three record shapes of a Baidu dictionary. *)
Inductive baidu_rec :=
| Compound (fr : Z) (code wordb : bytes)
| English (fr : Z) (marker : byte) (text : bytes)
| Standard (fr : Z) (pairs : list (byte * byte)) (wordb : bytes).

(** The bytes of a record. *)
Definition encode_baidu_rec (r : baidu_rec) : bytes :=
  match r with
  | Compound fr code wordb =>
      le16 (len code / 2) ++ le16 fr ++ [x00; x00] ++
      le16 (len wordb / 2) ++ code ++ wordb
  | English fr marker text =>
      le16 (len text) ++ le16 fr ++ [marker] ++ text
  | Standard fr pairs wordb =>
      le16 (len pairs) ++ le16 fr ++ pair_bytes pairs ++ wordb
  end.

(** The entry a record stands for. *)
Definition baidu_rec_entry (r : baidu_rec) : Entry :=
  match r with
  | Compound fr code wordb =>
      mkEntry (decode_utf16le wordb) [decode_utf16le code] (Some fr)
  | English fr marker text =>
      mkEntry (decode_ascii text) [decode_ascii text] (Some fr)
  | Standard fr pairs wordb =>
      mkEntry (decode_utf16le wordb) (map syllable pairs) (Some fr)
  end.

(** Records whose fields fit their length prefixes and that the peeked
    bytes classify as what they are. *)
Definition baidu_rec_wf (r : baidu_rec) : Prop :=
  match r with
  | Compound fr code wordb =>
      0 <= fr < 65536 /\
      len code mod 2 = 0 /\ len code / 2 < 65536 /\
      len wordb mod 2 = 0 /\ len wordb / 2 < 65536
  | English fr marker text =>
      0 <= fr < 65536 /\ 0 < len text < 65536 /\
      len BDICT_SM <= byte_to_Z marker /\ byte_to_Z marker <> 0xFF
  | Standard fr pairs wordb =>
      0 <= fr < 65536 /\ 0 < len pairs < 65536 /\
      Forall valid_pair pairs /\
      head pairs <> Some (x00, x00) /\
      len wordb = 2 * len pairs
  end.

(** One record of the Sogou pinyin table: index, byte length, text. *)
Definition encode_table_rec (r : Z * list byte) : bytes :=
  le16 r.1 ++ le16 (len r.2) ++ r.2.

Definition table_rec_wf (r : Z * list byte) : Prop :=
  0 <= r.1 < 65536 /\ 0 < len r.2 < 65536.

(** The table a list of records builds: a later record replaces an
    earlier one with the same index. *)
Definition table_of (recs : list (Z * list byte)) : gmap Z (list Z) :=
  fold_left (fun t r => <[r.1 := decode_utf16le r.2]> t) recs ∅.

(** One word of a Sogou group: byte length, text, extension length,
    extension. *)
Definition encode_scel_word (w : list byte * list byte) : bytes :=
  le16 (len w.1) ++ w.1 ++ le16 (len w.2) ++ w.2.

(** One group: count of words, byte length of the index list, index list,
    words. *)
Definition encode_scel_group (g : list byte * list (list byte * list byte)) : bytes :=
  le16 (len g.2) ++ le16 (len g.1) ++ g.1 ++ concat (map encode_scel_word g.2).

Definition scel_group_wf (g : list byte * list (list byte * list byte)) : Prop :=
  0 < len g.1 < 65536 /\ 0 < len g.2 < 65536 /\
  Forall (fun w => 0 < len w.1 < 65536 /\ len w.2 < 65536) g.2.

(** The entries a group stands for, with the pinyin table [t]. *)
Definition scel_group_entries (t : gmap Z (list Z))
    (g : list byte * list (list byte * list byte)) : list Entry :=
  map (fun w => mkEntry (decode_utf16le w.1) (group_pinyin g.1 t)
                        (Some (scel_freq w.2))) g.2.

(** An item of the merge read back as an entry. *)
Definition item_entry (item : list Z * (list str * Z)) : Entry :=
  mkEntry item.1 item.2.1 (Some item.2.2).

(** A frequency as the decoders produce it: an integer of 16 bits. *)
Definition freq16 (e : Entry) : Prop :=
  exists f, freq e = Some f /\ 0 <= f < 65536.

(** Every record of a table area that begins at [pos] starts before
    [start_chinese]. *)
Fixpoint starts_before (start_chinese pos : Z) (recs : list (Z * list byte)) : Prop :=
  match recs with
  | [] => True
  | r :: recs' =>
      pos < start_chinese /\
      starts_before start_chinese (pos + len (encode_table_rec r)) recs'
  end.

(** What ends the table at [pos], with [rest] the bytes from there on: the
    word area is reached, fewer than 4 bytes are left, or the next record
    declares a length of zero or more bytes than remain. *)
Definition table_stops (start_chinese pos : Z) (rest : bytes) : Prop :=
  start_chinese <= pos \/ len rest < 4 \/
  exists i ln rest',
    rest = le16 i ++ le16 ln ++ rest' /\ 0 <= i < 65536 /\ 0 <= ln < 65536 /\
    (ln = 0 \/ len rest' < ln).

(** ** Example records *)

(** One Baidu record of each shape: the standard record of the character
    U+4F60 with the pair (initial 0, final 27), an English record with
    marker [0x68] and text "i", and a compound record with code "a". *)
Definition baidu_three_records : list baidu_rec :=
  [Standard 5 [(x00, x1b)] (bytes_of [0x60; 0x4f]);
   English 7 x68 (bytes_of [0x69]);
   Compound 9 (bytes_of [0x61; 0]) (bytes_of [0x60; 0x4f])].

(** The pinyin table records [5: "ni"] and [9: "hao"]. *)
Definition scel_nihao_table : list (Z * list byte) :=
  [(5, bytes_of [110; 0; 105; 0]); (9, bytes_of [104; 0; 97; 0; 111; 0])].

(** One group, with the index list [5, 9] and one word of two characters
    whose extension holds the frequency 10. *)
Definition scel_nihao_groups : list (list byte * list (list byte * list byte)) :=
  [(bytes_of [5; 0; 9; 0],
    [(bytes_of [0x60; 0x4f; 0x7d; 0x59], bytes_of [10; 0])])].

(** ** Trimming, in the words of the specification *)

(** A text with no white space at either end. *)
Definition no_space_at_ends (w : str) : Prop :=
  match w with c :: _ => is_space c = false | [] => True end /\
  match rev w with c :: _ => is_space c = false | [] => True end.

(** [w] is [s] with the white space at its two ends taken away: [s] is
    [w] between two runs of white space, and [w] neither starts nor ends
    with white space. *)
Definition trimmed_of (s w : str) : Prop :=
  exists l r, s = l ++ w ++ r /\
    Forall (fun c => is_space c = true) l /\
    Forall (fun c => is_space c = true) r /\
    no_space_at_ends w.

(** A word that is empty or made of white space only. *)
Definition blank (s : str) : Prop := Forall (fun c => is_space c = true) s.

(** ** The decoders with every slice checked *)

(** [b[lo:hi]] as an access that has to lie within the sequence: where
    Python clamps the bounds, this one raises [IndexError]. *)
Definition slice_checked {A} (b : list A) (lo hi : Z) : result (list A) :=
  let lo' := if lo <? 0 then lo + len b else lo in
  let hi' := if hi <? 0 then hi + len b else hi in
  if (0 <=? lo') && (lo' <=? hi') && (hi' <=? len b) then Ok (slice b lo hi)
  else Raise IndexError.

(** [baidu_record], its four slices checked. *)
Definition baidu_record_checked (data : bytes) (off : Z)
  : result (option (Z * Entry)) :=
  let n := len data in
  let header :=
    '(py_len, off) ← _u16le data off;
    '(freq, off) ← _u16le data off;
    mret (Some (py_len, freq, off)) in
  hd ← except_EOFError header (Ok None);
  match hd with
  | None => Ok None
  | Some (py_len, freq, off) =>
      if n - off <? 2 then Ok None
      else
        peek0 ← byte_at data off;
        peek1 ← byte_at data (off + 1);
        if (peek0 =? 0x00) && (peek1 =? 0x00) then
          let off := off + 2 in
          wl ← except_EOFError (Some <$> _u16le data off) (Ok None);
          match wl with
          | None => Ok None
          | Some (word_len, off) =>
              let need := py_len * 2 + word_len * 2 in
              if n - off <? need then Ok None
              else
                code_bytes ← slice_checked data off (off + py_len * 2);
                let code := decode_utf16le code_bytes in
                let off := off + py_len * 2 in
                word_bytes ← slice_checked data off (off + word_len * 2);
                let word := decode_utf16le word_bytes in
                let off := off + word_len * 2 in
                Ok (Some (off, mkEntry word [code] (Some freq)))
          end
        else
          let sm_idx := peek0 in
          if (sm_idx >=? len BDICT_SM) && negb (sm_idx =? 0xFF) then
            let off := off + 1 in
            if n - off <? py_len then Ok None
            else
              eng_bytes ← slice_checked data off (off + py_len);
              let eng := decode_ascii eng_bytes in
              let off := off + py_len in
              Ok (Some (off, mkEntry eng [eng] (Some freq)))
          else
            syl ← baidu_syllables (Z.to_nat py_len) data off [];
            match syl with
            | None => Ok None
            | Some (off, pinyin) =>
                let need := py_len * 2 in
                if n - off <? need then Ok None
                else
                  word_bytes ← slice_checked data off (off + need);
                  let word := decode_utf16le word_bytes in
                  let off := off + need in
                  Ok (Some (off, mkEntry word pinyin (Some freq)))
            end
  end.

Fixpoint baidu_loop_checked (fuel : nat) (data : bytes) (off : Z)
    (out : list Entry) : result (list Entry) :=
  if len data - off >? 4 then
    match fuel with
    | O => Raise OutOfFuel
    | S fuel' =>
        r ← baidu_record_checked data off;
        match r with
        | None => Ok out
        | Some (off', e) => baidu_loop_checked fuel' data off' (out ++ [e])
        end
    end
  else Ok out.

Definition parse_baidu_checked (data : bytes) (start_offset : Z)
  : result (list Entry) :=
  baidu_loop_checked (length data) data start_offset [].

(** [pinyin_table_loop], its slice checked. *)
Fixpoint pinyin_table_loop_checked (fuel : nat) (data : bytes)
    (start_chinese pos : Z) (py_table : gmap Z (list Z))
  : result (gmap Z (list Z)) :=
  if (pos + 4 <=? len data) && (pos <? start_chinese) then
    match fuel with
    | O => Raise OutOfFuel
    | S fuel' =>
        lo ← byte_at data pos;
        hi ← byte_at data (pos + 1);
        let index := Z.lor lo (Z.shiftl hi 8) in
        let pos := pos + 2 in
        lo ← byte_at data pos;
        hi ← byte_at data (pos + 1);
        let ln := Z.lor lo (Z.shiftl hi 8) in
        let pos := pos + 2 in
        if (ln <=? 0) || (pos + ln >? len data) then Ok py_table
        else
          py_bytes ← slice_checked data pos (pos + ln);
          let p := decode_utf16le py_bytes in
          let pos := pos + ln in
          pinyin_table_loop_checked fuel' data start_chinese pos
            (<[index := p]> py_table)
    end
  else Ok py_table.

Definition _read_pinyin_table_scel_checked (data : bytes)
    (start_py start_chinese : Z) : result (gmap Z (list Z)) :=
  let pos := start_py + 4 in
  pinyin_table_loop_checked (length data) data start_chinese pos ∅.

(** [_parse_py_indexes_scel], the slice [py_bytes[:-1]] checked. *)
Definition _parse_py_indexes_scel_checked (py_bytes : bytes)
    (py_table : gmap Z (list Z)) : result (list str) :=
  py_bytes ←
    (if len py_bytes mod 2 =? 1 then slice_checked py_bytes 0 (-1)
     else Ok py_bytes);
  py_indexes_loop (range2 (len py_bytes)) py_bytes py_table [].

(** [scel_freq], the slice [ext[:2]] checked. *)
Definition scel_freq_checked (ext : bytes) : result Z :=
  if len ext >=? 2 then from_bytes_little <$> slice_checked ext 0 2 else Ok 0.

(** [scel_words], its slices checked. *)
Fixpoint scel_words_checked (k : nat) (data : bytes) (py_list : list str)
    (pos : Z) (out : list Entry) : result (Z * list Entry) :=
  match k with
  | O => Ok (pos, out)
  | S k' =>
      let n := len data in
      if n - pos <? 2 then Ok (pos, out)
      else
        '(wlen, pos) ← _u16le_mem data pos;
        if (wlen <=? 0) || (n - pos <? wlen) then Ok (pos, out)
        else
          word_bytes ← slice_checked data pos (pos + wlen);
          let word := decode_utf16le word_bytes in
          let pos := pos + wlen in
          if n - pos <? 2 then Ok (pos, out)
          else
            '(ext_len, pos) ← _u16le_mem data pos;
            if (ext_len <? 0) || (n - pos <? ext_len) then Ok (pos, out)
            else
              ext ← slice_checked data pos (pos + ext_len);
              let pos := pos + ext_len in
              freq ← scel_freq_checked ext;
              scel_words_checked k' data py_list pos
                (out ++ [mkEntry word py_list (Some freq)])
  end.

(** [scel_group], its slice checked. *)
Definition scel_group_checked (data : bytes) (py_table : gmap Z (list Z))
    (pos : Z) (out : list Entry) : result (option (Z * list Entry)) :=
  let n := len data in
  let header :=
    '(same, pos) ← _u16le_mem data pos;
    '(py_idx_len, pos) ← _u16le_mem data pos;
    mret (Some (same, py_idx_len, pos)) in
  hd ← except_EOFError header (Ok None);
  match hd with
  | None => Ok None
  | Some (same, py_idx_len, pos) =>
      if (py_idx_len <=? 0) || (n - pos <? py_idx_len) then Ok None
      else
        py_idx ← slice_checked data pos (pos + py_idx_len);
        let pos := pos + py_idx_len in
        py_list ← _parse_py_indexes_scel_checked py_idx py_table;
        Some <$> scel_words_checked (Z.to_nat same) data py_list pos out
  end.

Fixpoint scel_loop_checked (fuel : nat) (data : bytes)
    (py_table : gmap Z (list Z)) (pos : Z) (out : list Entry)
  : result (list Entry) :=
  if len data - pos >? 8 then
    match fuel with
    | O => Raise OutOfFuel
    | S fuel' =>
        r ← scel_group_checked data py_table pos out;
        match r with
        | None => Ok out
        | Some (pos', out') => scel_loop_checked fuel' data py_table pos' out'
        end
    end
  else Ok out.

Definition parse_scel_checked (data : bytes) (start_py start_chinese : Z)
  : result (list Entry) :=
  py_table ← _read_pinyin_table_scel_checked data start_py start_chinese;
  scel_loop_checked (length data) data py_table start_chinese [].

(** ** More example buffers *)

(** A Baidu buffer: two standard records of the character U+4F60, the
    first with the pair (0, 27) and frequency 5, the second with the pair
    (0, 30) and frequency 9. *)
Definition baidu_two_freq_buffer : bytes :=
  bytes_of [1; 0;  5; 0;  0; 27;  0x60; 0x4f;
            1; 0;  9; 0;  0; 30;  0x60; 0x4f].

(** A Sogou buffer ([start_py = 0], [start_chinese = 12]): the table
    [{5: "ni"}], then one group of two words, both the character U+4F60,
    with the frequencies 3 and 10. *)
Definition scel_two_freq_buffer : bytes :=
  bytes_of [0; 0; 0; 0;
            5; 0;  4; 0;  110; 0;  105; 0;
            2; 0;  2; 0;  5; 0;
            2; 0;  0x60; 0x4f;  2; 0;  3; 0;
            2; 0;  0x60; 0x4f;  2; 0;  10; 0].

(** A Baidu buffer: a standard record of one syllable whose word, two
    bytes long, is cut after its first byte. *)
Definition baidu_short_word_buffer : bytes :=
  bytes_of [1; 0;  5; 0;  0; 27;  0x60].

(** * Properties *)

(** ** Integers, bytes and sequences *)

Lemma len_nonneg {A} (l : list A) : 0 <= len l.
Proof. unfold len. lia. Qed.

Lemma len_app {A} (l k : list A) : len (l ++ k) = len l + len k.
Proof. unfold len. rewrite length_app. lia. Qed.

Lemma len_cons {A} (x : A) (l : list A) : len (x :: l) = 1 + len l.
Proof. unfold len. simpl. lia. Qed.


Lemma byte_to_Z_range (b : byte) : 0 <= byte_to_Z b < 256.
Proof.
  unfold byte_to_Z. pose proof (Byte.to_N_bounded b) as Hb. lia.
Qed.

Lemma byte_of_Z_to_Z (z : Z) : 0 <= z < 256 -> byte_to_Z (byte_of_Z z) = z.
Proof.
  intros Hz. unfold byte_to_Z, byte_of_Z.
  rewrite Z.mod_small by lia.
  destruct (Byte.of_N (Z.to_N z)) as [b|] eqn:Hb.
  - apply Byte.to_of_N in Hb. simpl. rewrite Hb. lia.
  - apply Byte.of_N_None_iff in Hb. lia.
Qed.

Lemma u16_range (lo hi : Z) :
  0 <= lo < 256 -> 0 <= hi < 256 -> 0 <= Z.lor lo (Z.shiftl hi 8) < 65536.
Proof.
  intros Hlo Hhi.
  assert (Hs : 0 <= Z.shiftl hi 8) by (apply Z.shiftl_nonneg; lia).
  split.
  - apply Z.lor_nonneg. lia.
  - assert (Hl : Z.lor lo (Z.shiftl hi 8) < 2 ^ 16).
    { destruct (Z.eq_dec (Z.lor lo (Z.shiftl hi 8)) 0) as [->|Hne]; [lia|].
      apply Z.log2_lt_pow2.
      - assert (0 <= Z.lor lo (Z.shiftl hi 8)) by (apply Z.lor_nonneg; lia). lia.
      - rewrite Z.log2_lor by lia.
        apply Z.max_lub_lt.
        + destruct (Z.eq_dec lo 0) as [->|]; [simpl; lia|].
          apply Z.log2_lt_pow2; lia.
        + destruct (Z.eq_dec hi 0) as [->|]; [simpl; lia|].
          rewrite Z.log2_shiftl by lia.
          assert (Z.log2 hi < 8) by (apply Z.log2_lt_pow2; lia). lia. }
    lia.
Qed.

Lemma u16_add (lo hi : Z) :
  0 <= lo < 256 -> 0 <= hi -> Z.lor lo (Z.shiftl hi 8) = lo + 256 * hi.
Proof.
  intros Hlo Hhi. rewrite Z.shiftl_mul_pow2 by lia.
  change (2 ^ 8) with 256.
  rewrite <- Z.lxor_lor.
  - rewrite <- Z.add_nocarry_lxor; [lia|].
    apply Z.bits_inj'. intros k Hk. rewrite Z.land_spec, Z.bits_0.
    destruct (Z.lt_ge_cases k 8).
    + replace (hi * 256) with (hi * 2 ^ 8) by lia.
      rewrite (Z.mul_pow2_bits_low hi 8 k) by lia. apply andb_false_r.
    + rewrite (Z.bits_above_log2 lo k); [reflexivity|lia|].
      destruct (Z.eq_dec lo 0) as [->|]; [simpl; lia|].
      assert (Z.log2 lo < 8) by (apply Z.log2_lt_pow2; lia). lia.
  - apply Z.bits_inj'. intros k Hk. rewrite Z.land_spec, Z.bits_0.
    destruct (Z.lt_ge_cases k 8).
    + replace (hi * 256) with (hi * 2 ^ 8) by lia.
      rewrite (Z.mul_pow2_bits_low hi 8 k) by lia. apply andb_false_r.
    + rewrite (Z.bits_above_log2 lo k); [reflexivity|lia|].
      destruct (Z.eq_dec lo 0) as [->|]; [simpl; lia|].
      assert (Z.log2 lo < 8) by (apply Z.log2_lt_pow2; lia). lia.
Qed.

Lemma getitem_nonneg {A} (b : list A) (i : Z) :
  0 <= i -> getitem b i =
    match b !! Z.to_nat i with Some x => Ok x | None => Raise IndexError end.
Proof.
  intros Hi. unfold getitem.
  destruct (Z.ltb_spec i 0); [lia|].
  destruct (Z.ltb_spec i 0); [lia|].
  destruct (Z.leb_spec (len b) i) as [Hge|Hlt]; simpl; [|reflexivity].
  rewrite lookup_ge_None_2; [reflexivity|]. unfold len in Hge. lia.
Qed.

Lemma getitem_in_range {A} (b : list A) (i : Z) :
  0 <= i < len b -> exists x, getitem b i = Ok x.
Proof.
  intros Hi. rewrite getitem_nonneg by lia.
  destruct (lookup_lt_is_Some_2 b (Z.to_nat i)) as [x Hx].
  - unfold len in Hi. lia.
  - exists x. rewrite Hx. reflexivity.
Qed.

Lemma byte_at_in_range (b : bytes) (i : Z) :
  0 <= i < len b -> exists v, byte_at b i = Ok v /\ 0 <= v < 256.
Proof.
  intros Hi. destruct (getitem_in_range b i Hi) as [x Hx].
  exists (byte_to_Z x). unfold byte_at. rewrite Hx. split; [reflexivity|].
  apply byte_to_Z_range.
Qed.


Lemma slice_nonneg {A} (b : list A) (lo hi : Z) :
  0 <= lo -> lo <= hi -> hi <= len b ->
  slice b lo hi = take (Z.to_nat (hi - lo)) (drop (Z.to_nat lo) b).
Proof.
  intros H0 H1 H2. unfold slice, slice_bound.
  destruct (Z.ltb_spec lo 0); [lia|].
  destruct (Z.ltb_spec hi 0); [lia|].
  rewrite !Z.min_l by lia. reflexivity.
Qed.

Lemma len_slice {A} (b : list A) (lo hi : Z) :
  0 <= lo -> lo <= hi -> hi <= len b -> len (slice b lo hi) = hi - lo.
Proof.
  intros H0 H1 H2. rewrite slice_nonneg by lia.
  unfold len in *. rewrite length_take, length_drop. lia.
Qed.


(** ** The 16-bit reads *)

Lemma _u16le_cases (b : bytes) (off : Z) :
  0 <= off ->
  (len b < off + 2 /\ _u16le b off = Raise EOFError) \/
  (off + 2 <= len b /\
   exists v, _u16le b off = Ok (v, off + 2) /\ 0 <= v < 65536).
Proof.
  intros Hoff. unfold _u16le.
  destruct (Z.gtb_spec (off + 2) (len b)) as [Hgt|Hle]; [left; split; [lia|done]|].
  right. split; [lia|].
  destruct (byte_at_in_range b off) as (lo & Hlo & Rlo); [lia|].
  destruct (byte_at_in_range b (1 + off)) as (hi & Hhi & Rhi); [lia|].
  rewrite Hlo, Hhi. simpl. eexists. split; [reflexivity|].
  apply u16_range; assumption.
Qed.

Lemma _u16le_inv (b : bytes) (off v off' : Z) :
  0 <= off -> _u16le b off = Ok (v, off') ->
  off' = off + 2 /\ 0 <= v < 65536 /\ off + 2 <= len b.
Proof.
  intros Hoff H.
  destruct (_u16le_cases b off Hoff) as [[_ E]|(Hle & v' & E & Hv)];
    rewrite E in H; [discriminate|].
  injection H as <- <-. auto.
Qed.

Lemma _u16le_mem_eq (b : bytes) (p : Z) : _u16le_mem b p = _u16le b p.
Proof. unfold _u16le_mem, _u16le. rewrite (Z.add_comm 1 p). reflexivity. Qed.


(** ** The decoders never fail *)

Lemma baidu_syllables_ok (data : bytes) (k : nat) :
  forall off pinyin, 0 <= off ->
  exists r, baidu_syllables k data off pinyin = Ok r /\
            match r with Some (off', _) => off <= off' | None => True end.
Proof.
  induction k as [|k IH]; intros off pinyin Hoff; simpl.
  - eexists. split; [reflexivity|]. simpl. lia.
  - destruct (Z.ltb_spec (len data - off) 2) as [|Hrem].
    { eexists. split; [reflexivity|]. exact I. }
    destruct (byte_at_in_range data off) as (sm & Hsm & Rsm); [lia|].
    destruct (byte_at_in_range data (off + 1)) as (ym & Hym & Rym); [lia|].
    rewrite Hsm, Hym. simpl.
    destruct (sm =? 255).
    { destruct (IH (off + 2) (pinyin ++ [chr ym])) as (r & Hr & Hb); [lia|].
      exists r. split; [exact Hr|]. destruct r as [[o' p']|]; [lia|exact I]. }
    destruct (Z.geb_spec sm (len BDICT_SM)) as [|Hs]; simpl.
    { eexists. split; [reflexivity|]. exact I. }
    destruct (Z.geb_spec ym (len BDICT_YM)) as [|Hy]; simpl.
    { eexists. split; [reflexivity|]. exact I. }
    destruct (getitem_in_range BDICT_SM sm) as [s Hs']; [lia|].
    destruct (getitem_in_range BDICT_YM ym) as [y Hy']; [lia|].
    rewrite Hs', Hy'. simpl.
    destruct (IH (off + 2) (pinyin ++ [s ++ y])) as (r & Hr & Hb); [lia|].
    exists r. split; [exact Hr|]. destruct r as [[o' p']|]; [lia|exact I].
Qed.

Lemma baidu_record_ok (data : bytes) (off : Z) :
  0 <= off ->
  exists r, baidu_record data off = Ok r /\
            match r with Some (off', _) => off + 4 <= off' | None => True end.
Proof.
  intros Hoff. unfold baidu_record.
  destruct (_u16le_cases data off Hoff) as [[_ E]|(_ & py_len & E & Hpy)];
    rewrite E; simpl.
  { eexists. split; [reflexivity|]. exact I. }
  destruct (_u16le_cases data (off + 2)) as [[_ E2]|(_ & fr & E2 & Hfr)];
    [lia| |]; rewrite E2; simpl.
  { eexists. split; [reflexivity|]. exact I. }
  destruct (Z.ltb_spec (len data - (off + 2 + 2)) 2) as [|Hrem].
  { eexists. split; [reflexivity|]. exact I. }
  destruct (byte_at_in_range data (off + 2 + 2)) as (p0 & Hp0 & Rp0); [lia|].
  destruct (byte_at_in_range data (off + 2 + 2 + 1)) as (p1 & Hp1 & Rp1); [lia|].
  rewrite Hp0, Hp1. simpl.
  destruct ((p0 =? 0) && (p1 =? 0)).
  { destruct (_u16le_cases data (off + 2 + 2 + 2)) as [[_ E3]|(_ & wl & E3 & Hwl)];
      [lia| |]; rewrite E3; simpl.
    { eexists. split; [reflexivity|]. exact I. }
    destruct (len data - (off + 2 + 2 + 2 + 2) <? py_len * 2 + wl * 2).
    { eexists. split; [reflexivity|]. exact I. }
    eexists. split; [reflexivity|]. simpl. lia. }
  destruct ((p0 >=? len BDICT_SM) && negb (p0 =? 255)).
  { destruct (len data - (off + 2 + 2 + 1) <? py_len).
    { eexists. split; [reflexivity|]. exact I. }
    eexists. split; [reflexivity|]. simpl. lia. }
  destruct (baidu_syllables_ok data (Z.to_nat py_len) (off + 2 + 2) [])
    as (r & Hr & Hb); [lia|].
  rewrite Hr. simpl. destruct r as [[o' p']|].
  - destruct (len data - o' <? py_len * 2).
    { eexists. split; [reflexivity|]. exact I. }
    eexists. split; [reflexivity|]. simpl. lia.
  - eexists. split; [reflexivity|]. exact I.
Qed.

Lemma baidu_loop_ok (data : bytes) (fuel : nat) :
  forall off out, 0 <= off -> len data - off <= Z.of_nat fuel ->
  exists new, baidu_loop fuel data off out = Ok (out ++ new).
Proof.
  induction fuel as [|fuel IH]; intros off out Hoff Hf; simpl.
  - destruct (Z.gtb_spec (len data - off) 4); [lia|].
    exists []. rewrite app_nil_r. reflexivity.
  - destruct (Z.gtb_spec (len data - off) 4);
      [|exists []; rewrite app_nil_r; reflexivity].
    destruct (baidu_record_ok data off Hoff) as (r & Hr & Hb).
    rewrite Hr. simpl. destruct r as [[off' e]|];
      [|exists []; rewrite app_nil_r; reflexivity].
    destruct (IH off' (out ++ [e])) as (new & Hn); [lia|lia|].
    exists (e :: new). rewrite Hn, <- app_assoc. reflexivity.
Qed.

Lemma parse_baidu_ok (data : bytes) (start_offset : Z) :
  0 <= start_offset -> exists r, parse_baidu data start_offset = Ok r.
Proof.
  intros H.
  destruct (baidu_loop_ok data (length data) start_offset []) as [new Hn];
    [exact H|unfold len; lia|].
  eexists. exact Hn.
Qed.

Lemma pinyin_table_loop_ok (data : bytes) (start_chinese : Z) (fuel : nat) :
  forall pos t, 0 <= pos -> len data - pos <= Z.of_nat fuel ->
  exists r, pinyin_table_loop fuel data start_chinese pos t = Ok r.
Proof.
  induction fuel as [|fuel IH]; intros pos t Hpos Hf; simpl.
  - destruct (Z.leb_spec (pos + 4) (len data)); [lia|]. eexists; reflexivity.
  - destruct (Z.leb_spec (pos + 4) (len data)); simpl; [|eexists; reflexivity].
    destruct (pos <? start_chinese); [|eexists; reflexivity].
    destruct (byte_at_in_range data pos) as (a & Ha & Ra); [lia|].
    destruct (byte_at_in_range data (pos + 1)) as (b & Hb & Rb); [lia|].
    destruct (byte_at_in_range data (pos + 2)) as (c & Hc & Rc); [lia|].
    destruct (byte_at_in_range data (pos + 2 + 1)) as (d & Hd & Rd); [lia|].
    rewrite Ha, Hb. simpl. rewrite Hc, Hd. simpl.
    destruct (Z.leb_spec (Z.lor c (Z.shiftl d 8)) 0); simpl; [eexists; reflexivity|].
    destruct (pos + 2 + 2 + Z.lor c (Z.shiftl d 8) >? len data);
      [eexists; reflexivity|].
    apply IH; lia.
Qed.

Lemma _read_pinyin_table_scel_ok (data : bytes) (start_py start_chinese : Z) :
  0 <= start_py ->
  exists t, _read_pinyin_table_scel data start_py start_chinese = Ok t.
Proof.
  intros H. apply pinyin_table_loop_ok; [lia|]. unfold len. lia.
Qed.

(** Induction two bytes at a time. *)
Lemma list_pair_ind {A} (P : list A -> Prop) :
  P [] -> (forall x, P [x]) -> (forall x y l, P l -> P (x :: y :: l)) ->
  forall l, P l.
Proof.
  intros H0 H1 H2.
  assert (H : forall l, P l /\ forall x, P (x :: l)).
  { induction l as [|y l [IHl IHx]]; [auto|]. split; [apply IHx|]. auto. }
  intros l. apply H.
Qed.

Lemma resolve_pinyin_cons (t : gmap Z (list Z)) (idx : Z) (idxs : list Z) :
  resolve_pinyin t (idx :: idxs) =
  (if truthy (default [] (t !! idx)) then [default [] (t !! idx)] else [])
  ++ resolve_pinyin t idxs.
Proof.
  unfold resolve_pinyin. simpl. rewrite filter_cons.
  destruct (default [] (t !! idx)) as [|c p]; simpl.
  - destruct (decide (@nil Z <> [])) as [Hne|_]; [congruence|reflexivity].
  - destruct (decide (c :: p <> [])) as [_|He]; [reflexivity|].
    exfalso. apply He. discriminate.
Qed.

Lemma byte_at_app_0 (pre : bytes) (x : byte) (rest : bytes) (i : Z) :
  i = len pre -> byte_at (pre ++ x :: rest) i = Ok (byte_to_Z x).
Proof.
  intros ->. pose proof (len_nonneg pre). unfold byte_at.
  rewrite getitem_nonneg by lia.
  replace (Z.to_nat (len pre)) with (length pre + 0)%nat by (unfold len; lia).
  rewrite lookup_app_r by lia.
  replace (length pre + 0 - length pre)%nat with 0%nat by lia. reflexivity.
Qed.

Lemma byte_at_app_1 (pre : bytes) (x y : byte) (rest : bytes) (i : Z) :
  i = len pre + 1 -> byte_at (pre ++ x :: y :: rest) i = Ok (byte_to_Z y).
Proof.
  intros ->. pose proof (len_nonneg pre). unfold byte_at.
  rewrite getitem_nonneg by lia.
  replace (Z.to_nat (len pre + 1)) with (length pre + 1)%nat by (unfold len; lia).
  rewrite lookup_app_r by lia.
  replace (length pre + 1 - length pre)%nat with 1%nat by lia. reflexivity.
Qed.

Lemma py_indexes_loop_pairs (t : gmap Z (list Z)) (rest : bytes) :
  forall (pre : bytes) (out : list str) (m : nat),
  length rest = (2 * m)%nat ->
  py_indexes_loop (map (fun j => len pre + 2 * Z.of_nat j) (seq 0 m))
                  (pre ++ rest) t out
  = Ok (out ++ group_pinyin rest t).
Proof.
  induction rest as [|x|x y rest IH] using list_pair_ind; intros pre out m Hm.
  - destruct m; [|simpl in Hm; lia]. simpl.
    unfold group_pinyin, resolve_pinyin. simpl. rewrite filter_nil, app_nil_r.
    reflexivity.
  - simpl in Hm. lia.
  - destruct m as [|m]; [simpl in Hm; lia|].
    simpl in Hm. simpl seq. simpl map. simpl py_indexes_loop.
    pose proof (len_nonneg pre) as Hpre.
    rewrite (byte_at_app_1 pre x y rest) by lia.
    rewrite (byte_at_app_0 pre x (y :: rest)) by lia. simpl.
    rewrite <- seq_shift, map_map.
    replace (pre ++ x :: y :: rest) with ((pre ++ [x; y]) ++ rest)
      by (rewrite <- app_assoc; reflexivity).
    assert (Hmap : map (fun j => len pre + 2 * Z.of_nat (S j)) (seq 0 m)
                   = map (fun j => len (pre ++ [x; y]) + 2 * Z.of_nat j) (seq 0 m)).
    { apply map_ext. intros j. rewrite len_app. unfold len. simpl. lia. }
    rewrite Hmap.
    unfold group_pinyin. simpl u16_indices. rewrite resolve_pinyin_cons.
    fold (u16 (byte_to_Z x) (byte_to_Z y)).
    destruct (truthy (default [] (t !! u16 (byte_to_Z x) (byte_to_Z y)))).
    + rewrite IH by lia. unfold group_pinyin. rewrite <- app_assoc. reflexivity.
    + rewrite IH by lia. reflexivity.
Qed.

Lemma u16_indices_drop_last (bs : bytes) (x : byte) :
  Nat.even (length bs) = true -> u16_indices (bs ++ [x]) = u16_indices bs.
Proof.
  induction bs as [|a|a b bs IH] using list_pair_ind; intros He.
  - reflexivity.
  - discriminate.
  - simpl in *. rewrite IH by exact He. reflexivity.
Qed.

Lemma slice_drop_last {A} (l : list A) :
  slice l 0 (-1) = take (length l - 1) l.
Proof.
  unfold slice, slice_bound. simpl.
  rewrite Z.min_l by apply len_nonneg. simpl. rewrite Z.sub_0_r.
  f_equal. unfold len. lia.
Qed.

(** The index loop computes what the specification describes. *)
Lemma _parse_py_indexes_scel_spec (py_bytes : bytes) (t : gmap Z (list Z)) :
  _parse_py_indexes_scel py_bytes t = Ok (group_pinyin py_bytes t).
Proof.
  unfold _parse_py_indexes_scel.
  assert (Hev : forall bs : bytes, Nat.even (length bs) = true ->
            py_indexes_loop (range2 (len bs)) bs t [] = Ok (group_pinyin bs t)).
  { intros bs He. apply Nat.even_spec in He. destruct He as [m Hm].
    unfold range2.
    replace (Z.to_nat ((len bs + 1) / 2)) with m.
    2:{ unfold len. rewrite Hm. zify. Z.div_mod_to_equations. lia. }
    pose proof (py_indexes_loop_pairs t bs [] [] m Hm) as H.
    simpl in H. exact H. }
  destruct (Z.eqb_spec (len py_bytes mod 2) 1) as [Hodd|Heven].
  - assert (Hl : Nat.odd (length py_bytes) = true).
    { apply Nat.odd_spec. exists (Z.to_nat (len py_bytes / 2)).
      unfold len in *.
      pose proof (Z.div_mod (Z.of_nat (length py_bytes)) 2). lia. }
    destruct (exists_last (l := py_bytes)) as (bs & x & ->).
    { intros ->. discriminate. }
    rewrite slice_drop_last, length_app. simpl.
    replace (length bs + 1 - 1)%nat with (length bs) by lia.
    rewrite take_app_length.
    rewrite length_app in Hl. simpl in Hl.
    rewrite Nat.add_1_r, Nat.odd_succ in Hl.
    rewrite Hev by exact Hl.
    unfold group_pinyin. rewrite u16_indices_drop_last by exact Hl. reflexivity.
  - apply Hev. apply Nat.even_spec. exists (Z.to_nat (len py_bytes / 2)).
    unfold len in *.
    pose proof (Z.div_mod (Z.of_nat (length py_bytes)) 2).
    pose proof (Z.mod_pos_bound (Z.of_nat (length py_bytes)) 2). lia.
Qed.

Lemma scel_words_ok (data : bytes) (py_list : list str) (k : nat) :
  forall pos out, 0 <= pos ->
  exists pos' new,
    scel_words k data py_list pos out = Ok (pos', out ++ new) /\
    pos <= pos' /\ Forall (fun e => pinyin e = py_list) new.
Proof.
  induction k as [|k IH]; intros pos out Hpos; simpl.
  - exists pos, []. rewrite app_nil_r. split; [reflexivity|]. split; [lia|constructor].
  - assert (Hstop : forall p, pos <= p -> exists pos' new,
              Ok (p, out) = Ok (pos', out ++ new) /\
              pos <= pos' /\ Forall (fun e => pinyin e = py_list) new).
    { intros p Hp. exists p, []. rewrite app_nil_r.
      split; [reflexivity|]. split; [lia|constructor]. }
    destruct (Z.ltb_spec (len data - pos) 2); [apply Hstop; lia|].
    rewrite !_u16le_mem_eq.
    destruct (_u16le_cases data pos Hpos) as [[? _]|(_ & wlen & E & Hw)]; [lia|].
    rewrite E. simpl.
    destruct (Z.leb_spec wlen 0); simpl; [apply Hstop; lia|].
    destruct (Z.ltb_spec (len data - (pos + 2)) wlen); [apply Hstop; lia|].
    destruct (Z.ltb_spec (len data - (pos + 2 + wlen)) 2); [apply Hstop; lia|].
    rewrite !_u16le_mem_eq.
    destruct (_u16le_cases data (pos + 2 + wlen)) as [[? _]|(_ & elen & E' & He)];
      [lia|lia|].
    rewrite E'. simpl.
    destruct (Z.ltb_spec elen 0); simpl; [apply Hstop; lia|].
    destruct (Z.ltb_spec (len data - (pos + 2 + wlen + 2)) elen); [apply Hstop; lia|].
    match goal with
    | |- context [scel_words k data py_list ?p (out ++ [?e])] =>
        destruct (IH p (out ++ [e])) as (pos' & new & Hr & Hle & Hall); [lia|];
        exists pos', (e :: new)
    end.
    rewrite Hr, <- app_assoc. split; [reflexivity|]. split; [lia|].
    constructor; [reflexivity|exact Hall].
Qed.

Lemma scel_group_ok (data : bytes) (t : gmap Z (list Z)) (pos : Z) (out : list Entry) :
  0 <= pos ->
  exists r, scel_group data t pos out = Ok r /\
    match r with
    | Some (pos', out') => pos + 5 <= pos' /\ exists new, out' = out ++ new
    | None => True
    end.
Proof.
  intros Hpos. unfold scel_group. rewrite !_u16le_mem_eq.
  destruct (_u16le_cases data pos Hpos) as [[_ E]|(_ & same & E & Hs)];
    rewrite E; simpl.
  { eexists. split; [reflexivity|]. exact I. }
  rewrite !_u16le_mem_eq.
  destruct (_u16le_cases data (pos + 2)) as [[_ E2]|(_ & pl & E2 & Hpl)];
    [lia| |]; rewrite E2; simpl.
  { eexists. split; [reflexivity|]. exact I. }
  destruct (Z.leb_spec pl 0); simpl.
  { eexists. split; [reflexivity|]. exact I. }
  destruct (len data - (pos + 2 + 2) <? pl).
  { eexists. split; [reflexivity|]. exact I. }
  rewrite _parse_py_indexes_scel_spec. simpl.
  match goal with
  | |- context [scel_words ?k data ?pl' ?p out] =>
      destruct (scel_words_ok data pl' k p out) as (pos' & new & Hr & Hle & _); [lia|]
  end.
  rewrite Hr. simpl. eexists. split; [reflexivity|]. simpl.
  split; [lia|]. exists new. reflexivity.
Qed.

Lemma scel_loop_ok (data : bytes) (t : gmap Z (list Z)) (fuel : nat) :
  forall pos out, 0 <= pos -> len data - pos <= Z.of_nat fuel ->
  exists new, scel_loop fuel data t pos out = Ok (out ++ new).
Proof.
  induction fuel as [|fuel IH]; intros pos out Hpos Hf; simpl.
  - destruct (Z.gtb_spec (len data - pos) 8); [lia|].
    exists []. rewrite app_nil_r. reflexivity.
  - destruct (Z.gtb_spec (len data - pos) 8);
      [|exists []; rewrite app_nil_r; reflexivity].
    destruct (scel_group_ok data t pos out Hpos) as (r & Hr & Hb).
    rewrite Hr. simpl. destruct r as [[pos' out']|];
      [|exists []; rewrite app_nil_r; reflexivity].
    destruct Hb as (Hle & new & ->).
    destruct (IH pos' (out ++ new)) as (new' & Hn); [lia|lia|].
    exists (new ++ new'). rewrite Hn, app_assoc. reflexivity.
Qed.

Lemma parse_scel_ok (data : bytes) (start_py start_chinese : Z) :
  0 <= start_py -> 0 <= start_chinese ->
  exists r, parse_scel data start_py start_chinese = Ok r.
Proof.
  intros Hp Hc. unfold parse_scel.
  destruct (_read_pinyin_table_scel_ok data start_py start_chinese Hp) as [t Ht].
  rewrite Ht. simpl.
  destruct (scel_loop_ok data t (length data) start_chinese []) as [new Hn];
    [exact Hc|unfold len; lia|].
  rewrite Hn. eexists. reflexivity.
Qed.

(** ** Truncating the buffer of the Baidu decoder *)


Lemma baidu_syllables_bounds (data : bytes) (k : nat) :
  forall off pinyin off' pinyin', 0 <= off ->
  baidu_syllables k data off pinyin = Ok (Some (off', pinyin')) ->
  off <= off' <= Z.max off (len data).
Proof.
  induction k as [|k IH]; intros off pinyin off' pinyin' Hoff H; simpl in *.
  - injection H as <- <-. lia.
  - destruct (Z.ltb_spec (len data - off) 2); [discriminate|].
    destruct (byte_at data off) as [sm|]; [|discriminate].
    destruct (byte_at data (off + 1)) as [ym|]; [|discriminate].
    simpl in *.
    destruct (sm =? 255); [apply IH in H; lia|].
    destruct ((sm >=? len BDICT_SM) || (ym >=? len BDICT_YM)); [discriminate|].
    destruct (getitem BDICT_SM sm) as [s|]; [|discriminate].
    destruct (getitem BDICT_YM ym) as [y|]; [|discriminate].
    simpl in *. apply IH in H; lia.
Qed.



(** ** The unique-word-list reducer *)

Lemma first_occurrences_elem (l : list str) (x : list Z) :
  x ∈ first_occurrences l <-> x ∈ l.
Proof.
  induction l as [|y l IH]; simpl; [reflexivity|].
  rewrite !elem_of_cons, list_elem_of_filter, IH.
  destruct (decide (x = y)); tauto.
Qed.

Lemma first_occurrences_NoDup (l : list str) : NoDup (first_occurrences l).
Proof.
  induction l as [|y l IH]; simpl; [constructor|].
  apply NoDup_cons. split.
  - rewrite list_elem_of_filter. intros [Hne _]. apply Hne. reflexivity.
  - apply NoDup_filter. exact IH.
Qed.

Lemma filter_all {A} (P : A -> Prop) `{forall x, Decision (P x)} (l : list A) :
  (forall x, x ∈ l -> P x) -> filter P l = l.
Proof.
  induction l as [|y l IH]; intros Hall; [reflexivity|].
  rewrite filter_cons_True by (apply Hall; left).
  f_equal. apply IH. intros x Hx. apply Hall. right. exact Hx.
Qed.

Lemma first_occurrences_id (l : list str) :
  NoDup l -> first_occurrences l = l.
Proof.
  induction 1 as [|x l Hx Hnd IH]; simpl; [reflexivity|].
  rewrite IH. f_equal. apply filter_all. intros y Hy ->. contradiction.
Qed.

Lemma truthy_false {A} (l : list A) : truthy l = false <-> l = [].
Proof. destruct l; simpl; split; congruence. Qed.

Lemma trimmed_words_cons (e : Entry) (es : list Entry) :
  trimmed_words (e :: es) =
  if truthy (strip (word e)) then strip (word e) :: trimmed_words es
  else trimmed_words es.
Proof.
  unfold trimmed_words. simpl. rewrite filter_cons.
  destruct (strip (word e)) as [|c s]; simpl.
  - destruct (decide (@nil Z <> [])); [congruence|reflexivity].
  - destruct (decide (c :: s <> [])) as [|Hn]; [reflexivity|].
    exfalso. apply Hn. discriminate.
Qed.

Lemma uniq_loop_spec (es : list Entry) :
  forall (seen : gset (list Z)) (out : list str),
  uniq_loop es seen out =
  out ++ filter (fun w => w ∉ seen) (first_occurrences (trimmed_words es)).
Proof.
  induction es as [|e es IH]; intros seen out; simpl uniq_loop.
  - unfold trimmed_words. simpl. rewrite !filter_nil, app_nil_r. reflexivity.
  - rewrite trimmed_words_cons.
    destruct (truthy (strip (word e))) eqn:Ht; simpl; [|apply IH].
    destruct (bool_decide_reflect (strip (word e) ∈ seen)) as [Hin|Hnin].
    + rewrite IH, filter_cons_False by (intros Hn; contradiction).
      rewrite list_filter_filter_l; [reflexivity|].
      intros x Hx ->. contradiction.
    + rewrite IH, filter_cons_True by exact Hnin.
      rewrite <- app_assoc. simpl. do 2 f_equal.
      rewrite list_filter_filter. apply list_filter_iff.
      intros x. rewrite not_elem_of_union, not_elem_of_singleton. tauto.
Qed.

(** [_uniq_stable_words] lists the non-empty trimmed words in the order of
    their first occurrence. *)
Lemma _uniq_stable_words_spec (es : list Entry) :
  _uniq_stable_words es = first_occurrences (trimmed_words es).
Proof.
  unfold _uniq_stable_words. rewrite uniq_loop_spec. simpl.
  apply filter_all. intros x _. apply not_elem_of_empty.
Qed.

Lemma lstrip_fixed (s : str) :
  match s with c :: _ => is_space c = false | [] => True end -> lstrip s = s.
Proof. destruct s as [|c s]; simpl; [reflexivity|]. intros ->. reflexivity. Qed.

Lemma lstrip_head (s : str) :
  match lstrip s with c :: _ => is_space c = false | [] => True end.
Proof.
  induction s as [|c s IH]; simpl; [exact I|].
  destruct (is_space c) eqn:E; [exact IH|exact E].
Qed.

Lemma lstrip_split (s : str) :
  exists pre, s = pre ++ lstrip s /\ Forall (fun c => is_space c = true) pre.
Proof.
  induction s as [|c s (pre & Hs & Hpre)]; simpl.
  - exists []. split; [reflexivity|constructor].
  - destruct (is_space c) eqn:E.
    + exists (c :: pre). split; [simpl; congruence|]. constructor; assumption.
    + exists []. split; [reflexivity|constructor].
Qed.

(** A string with no white space at either end. *)
Lemma strip_ends (s : str) :
  match strip s with c :: _ => is_space c = false | [] => True end /\
  match rev (strip s) with c :: _ => is_space c = false | [] => True end.
Proof.
  unfold strip, rstrip. rewrite rev_involutive.
  split; [|apply lstrip_head].
  pose proof (lstrip_head s) as Hh.
  destruct (lstrip s) as [|c t] eqn:Et; [simpl; exact I|].
  destruct (lstrip_split (rev (c :: t))) as (pre & Hs & Hpre).
  remember (lstrip (rev (c :: t))) as r eqn:Er. clear Er.
  simpl in Hs.
  destruct r as [|d u _] using rev_ind.
  - rewrite app_nil_r in Hs.
    assert (Hc : c ∈ pre). { rewrite <- Hs. apply elem_of_app. right. left. }
    rewrite Forall_forall in Hpre. apply Hpre in Hc. simpl in Hh. congruence.
  - rewrite app_assoc in Hs. apply app_inj_tail in Hs as [_ <-].
    rewrite rev_unit. exact Hh.
Qed.

Lemma strip_fixed (s : str) :
  match s with c :: _ => is_space c = false | [] => True end ->
  match rev s with c :: _ => is_space c = false | [] => True end ->
  strip s = s.
Proof.
  intros H1 H2. unfold strip, rstrip.
  rewrite (lstrip_fixed s H1), (lstrip_fixed (rev s) H2).
  apply rev_involutive.
Qed.

Lemma strip_idempotent (s : str) : strip (strip s) = strip s.
Proof. destruct (strip_ends s) as [H1 H2]. apply strip_fixed; assumption. Qed.

(** ** The weighted-merge reducer *)

Lemma or0_Some (v : Z) : or0 (Some v) = v.
Proof. simpl. destruct (Z.eqb_spec v 0); congruence. Qed.

Lemma dict_get_set {V} (d : dict V) (k k' : list Z) (v : V) :
  dict_get (dict_set d k v) k' =
  if decide (k' = k) then Some v else dict_get d k'.
Proof.
  induction d as [|[k0 v0] d IH]; simpl.
  - destruct (decide (k' = k)); reflexivity.
  - destruct (decide (k = k0)) as [->|Hne]; simpl.
    + destruct (decide (k' = k0)); reflexivity.
    + rewrite IH. destruct (decide (k' = k0)) as [->|]; [|reflexivity].
      destruct (decide (k0 = k)); congruence.
Qed.

Lemma dict_get_None {V} (d : dict V) (k : list Z) :
  dict_get d k = None <-> k ∉ map fst d.
Proof.
  induction d as [|[k0 v0] d IH]; simpl.
  - split; [intros _; apply not_elem_of_nil|reflexivity].
  - rewrite not_elem_of_cons, <- IH.
    destruct (decide (k = k0)); split; try tauto; discriminate.
Qed.

Lemma dict_keys_set {V} (d : dict V) (k : list Z) (v : V) :
  map fst (dict_set d k v) =
  if decide (k ∈ map fst d) then map fst d else map fst d ++ [k].
Proof.
  induction d as [|[k0 v0] d IH].
  - simpl. destruct (decide (k ∈ [])) as [Hin|_]; [inversion Hin|reflexivity].
  - simpl dict_set. destruct (decide (k = k0)) as [->|Hne].
    + simpl. destruct (decide (k0 ∈ k0 :: map fst d)) as [_|Hn]; [reflexivity|].
      exfalso. apply Hn. left.
    + simpl. rewrite IH.
      destruct (decide (k ∈ map fst d)) as [Hin|Hnin];
        destruct (decide (k ∈ k0 :: map fst d)) as [Hin'|Hnin'];
        try reflexivity.
      * exfalso. apply Hnin'. right. exact Hin.
      * apply elem_of_cons in Hin' as [?|?]; contradiction.
Qed.

Lemma rime_best_step_keys (best : dict (list str * Z)) (e : Entry) :
  map fst (rime_best_step best e) =
  if decide (word e ∈ map fst best) then map fst best
  else map fst best ++ [word e].
Proof.
  unfold rime_best_step.
  destruct (dict_get best (word e)) as [c|] eqn:Eg.
  - assert (Hin : word e ∈ map fst best).
    { destruct (decide (word e ∈ map fst best)) as [|Hn]; [assumption|].
      apply dict_get_None in Hn. congruence. }
    destruct (or0 (freq e) >? or0 (Some c.2)).
    + rewrite dict_keys_set. reflexivity.
    + destruct (decide (word e ∈ map fst best)); [reflexivity|contradiction].
  - rewrite dict_keys_set. reflexivity.
Qed.

Lemma rime_best_keys_from (es : list Entry) :
  forall best : dict (list str * Z),
  map fst (fold_left rime_best_step es best) =
  map fst best ++
  filter (fun w => w ∉ map fst best) (first_occurrences (map word es)).
Proof.
  induction es as [|e es IH]; intros best; simpl.
  - rewrite filter_nil, app_nil_r. reflexivity.
  - rewrite IH, rime_best_step_keys.
    destruct (decide (word e ∈ map fst best)) as [Hin|Hnin].
    + rewrite filter_cons_False by (intros Hn; contradiction).
      rewrite list_filter_filter_l; [reflexivity|].
      intros x Hx ->. contradiction.
    + rewrite filter_cons_True by exact Hnin.
      rewrite <- app_assoc. simpl. do 2 f_equal.
      rewrite list_filter_filter. apply list_filter_iff.
      intros x. rewrite not_elem_of_app, list_elem_of_singleton. reflexivity.
Qed.

(** The keys of [best] are the distinct words in first-appearance order. *)
Lemma rime_best_keys (es : list Entry) :
  map fst (rime_best es) = first_occurrences (map word es).
Proof.
  unfold rime_best. rewrite rime_best_keys_from. simpl.
  apply filter_all. intros x _. apply not_elem_of_nil.
Qed.

Lemma rime_best_step_other (best : dict (list str * Z)) (e : Entry) (w : list Z) :
  word e <> w -> dict_get (rime_best_step best e) w = dict_get best w.
Proof.
  intros Hne. unfold rime_best_step.
  destruct (match dict_get best (word e) with
            | Some c => or0 (freq e) >? or0 (Some c.2)
            | None => true
            end); [|reflexivity].
  rewrite dict_get_set. rewrite decide_False by congruence. reflexivity.
Qed.

(** A stored value comes from the initial dictionary or from an entry. *)
Lemma rime_best_origin (es : list Entry) :
  forall (best : dict (list str * Z)) w p g,
  dict_get (fold_left rime_best_step es best) w = Some (p, g) ->
  dict_get best w = Some (p, g) \/
  exists e, e ∈ es /\ word e = w /\ pinyin e = p /\
            g = match freq e with Some f => f | None => 1 end.
Proof.
  induction es as [|e es IH]; intros best w p g H; simpl in H; [left; exact H|].
  apply IH in H as [H|(e' & Hin & Hw)].
  - destruct (decide (word e = w)) as [Hw|Hw].
    + unfold rime_best_step in H.
      destruct (match dict_get best (word e) with
                | Some c => or0 (freq e) >? or0 (Some c.2)
                | None => true
                end); [|left; exact H].
      rewrite dict_get_set, decide_True in H by congruence.
      injection H as <- <-. right. exists e.
      split; [left|]; auto.
    + rewrite rime_best_step_other in H by exact Hw. left. exact H.
  - right. exists e'. split; [right; exact Hin|exact Hw].
Qed.

(** Entries that do not beat the stored frequency leave it in place. *)
Lemma rime_best_keeps (es : list Entry) :
  forall (best : dict (list str * Z)) w p g,
  dict_get best w = Some (p, g) ->
  (forall e, e ∈ es -> word e = w -> or0 (freq e) <= g) ->
  dict_get (fold_left rime_best_step es best) w = Some (p, g).
Proof.
  induction es as [|e es IH]; intros best w p g Hg Hle; simpl; [exact Hg|].
  apply IH.
  - destruct (decide (word e = w)) as [Hw|Hw].
    + unfold rime_best_step. rewrite Hw, Hg. simpl snd. rewrite or0_Some.
      assert (Hl : or0 (freq e) <= g) by (apply Hle; [left|exact Hw]).
      destruct (Z.gtb_spec (or0 (freq e)) g); [lia|exact Hg].
    + rewrite rime_best_step_other by exact Hw. exact Hg.
  - intros e' Hin. apply Hle. right. exact Hin.
Qed.

(** An entry that beats the stored frequency, or whose word is new,
    replaces it. *)
Lemma rime_best_step_wins (best : dict (list str * Z)) (e : Entry) (f : Z) :
  freq e = Some f ->
  (forall p g, dict_get best (word e) = Some (p, g) -> g < f) ->
  dict_get (rime_best_step best e) (word e) = Some (pinyin e, f).
Proof.
  intros Hf Hlt. unfold rime_best_step.
  destruct (dict_get best (word e)) as [[p g]|] eqn:Eg.
  - specialize (Hlt p g eq_refl). rewrite Hf. simpl snd. rewrite !or0_Some.
    destruct (Z.gtb_spec f g); [|lia].
    rewrite dict_get_set, decide_True by reflexivity. reflexivity.
  - rewrite dict_get_set, decide_True by reflexivity. rewrite Hf. reflexivity.
Qed.

(** The earliest entry of maximal frequency among those sharing its word
    is the one kept. *)
Lemma rime_best_winner (l1 l2 : list Entry) (e : Entry) (f : Z) :
  freq e = Some f ->
  (forall e', e' ∈ l1 -> word e' = word e -> exists g, freq e' = Some g /\ g < f) ->
  (forall e', e' ∈ l2 -> word e' = word e -> exists g, freq e' = Some g /\ g <= f) ->
  dict_get (rime_best (l1 ++ e :: l2)) (word e) = Some (pinyin e, f).
Proof.
  intros Hf H1 H2. unfold rime_best. rewrite fold_left_app. simpl.
  apply rime_best_keeps.
  - apply rime_best_step_wins; [exact Hf|].
    intros p g Hg. apply rime_best_origin in Hg as [Hg|(e' & Hin & Hw & _ & ->)].
    + discriminate.
    + destruct (H1 e' Hin Hw) as (g' & -> & Hlt). exact Hlt.
  - intros e' Hin Hw. destruct (H2 e' Hin Hw) as (g' & -> & Hle).
    rewrite or0_Some. exact Hle.
Qed.

(** Every word of a sequence of entries with integer frequencies has such
    an earliest entry of maximal frequency. *)
Lemma earliest_max_exists (es : list Entry) (w : list Z) :
  Forall (fun e => is_Some (freq e)) es -> w ∈ map word es ->
  exists l1 e l2 f,
    es = l1 ++ e :: l2 /\ word e = w /\ freq e = Some f /\
    (forall e', e' ∈ l1 -> word e' = w -> exists g, freq e' = Some g /\ g < f) /\
    (forall e', e' ∈ l2 -> word e' = w -> exists g, freq e' = Some g /\ g <= f).
Proof.
  induction es as [|e0 es IH]; intros Hall Hin; [inversion Hin|].
  apply Forall_cons in Hall as [[f0 Hf0] Hall].
  destruct (decide (w ∈ map word es)) as [Hin'|Hnin].
  - destruct (IH Hall Hin') as (l1 & e & l2 & f & -> & Hw & Hf & Hb & Ha).
    destruct (decide (word e0 = w)) as [Hw0|Hw0].
    + destruct (Z.lt_ge_cases f0 f) as [Hlt|Hge].
      * exists (e0 :: l1), e, l2, f. repeat split; try assumption.
        intros e' [->|Hi]%elem_of_cons Hw'; [eauto|auto].
      * exists [], e0, (l1 ++ e :: l2), f0. repeat split; try assumption.
        { intros e' Hi. inversion Hi. }
        intros e' Hi Hw'. apply elem_of_app in Hi as [Hi|Hi].
        { destruct (Hb e' Hi Hw') as (g & Hg & Hlt). exists g. split; [exact Hg|lia]. }
        apply elem_of_cons in Hi as [->|Hi].
        { exists f. split; [exact Hf|lia]. }
        destruct (Ha e' Hi Hw') as (g & Hg & Hle). exists g. split; [exact Hg|lia].
    + exists (e0 :: l1), e, l2, f. repeat split; try assumption.
      intros e' [->|Hi]%elem_of_cons Hw'; [contradiction|auto].
  - simpl in Hin. apply elem_of_cons in Hin as [->|Hin]; [|contradiction].
    exists [], e0, es, f0. repeat split; try assumption.
    + intros e' Hi. inversion Hi.
    + intros e' Hi Hw'. exfalso. apply Hnin.
      rewrite <- Hw'. apply list_elem_of_fmap_2. exact Hi.
Qed.

(** ** Reading a buffer laid out as a concatenation *)

Lemma len_le16 (v : Z) : len (le16 v) = 2.
Proof. reflexivity. Qed.

Lemma u16_le16 (v : Z) :
  0 <= v < 65536 ->
  Z.lor (byte_to_Z (byte_of_Z v)) (Z.shiftl (byte_to_Z (byte_of_Z (v / 256))) 8) = v.
Proof.
  intros Hv.
  assert (H1 : byte_to_Z (byte_of_Z v) = v mod 256).
  { unfold byte_to_Z, byte_of_Z.
    pose proof (Z.mod_pos_bound v 256 ltac:(lia)) as Hm.
    destruct (Byte.of_N (Z.to_N (v mod 256))) as [b|] eqn:Hb.
    - apply Byte.to_of_N in Hb. simpl. rewrite Hb. lia.
    - apply Byte.of_N_None_iff in Hb. lia. }
  assert (H2 : 0 <= v / 256 < 256).
  { split; [apply Z.div_pos; lia|apply Z.div_lt_upper_bound; lia]. }
  rewrite H1, (byte_of_Z_to_Z _ H2).
  rewrite u16_add by (try apply Z.mod_pos_bound; lia).
  pose proof (Z.div_mod v 256). lia.
Qed.

Lemma byte_at_at (data pre rest : bytes) (x : byte) (i : Z) :
  data = pre ++ x :: rest -> i = len pre -> byte_at data i = Ok (byte_to_Z x).
Proof. intros -> ->. apply byte_at_app_0. reflexivity. Qed.

Lemma _u16le_at (data pre rest : bytes) (v off : Z) :
  data = pre ++ le16 v ++ rest -> off = len pre -> 0 <= v < 65536 ->
  _u16le data off = Ok (v, off + 2).
Proof.
  intros -> -> Hv. unfold _u16le, le16. simpl app.
  pose proof (len_nonneg pre). pose proof (len_nonneg rest).
  destruct (Z.gtb_spec (len pre + 2) (len (pre ++ byte_of_Z v :: byte_of_Z (v / 256) :: rest))) as [Hgt|_].
  { rewrite len_app, !len_cons in Hgt. lia. }
  rewrite (byte_at_app_1 pre _ _ rest) by lia.
  rewrite (byte_at_app_0 pre _ _) by lia. simpl.
  rewrite u16_le16 by exact Hv. reflexivity.
Qed.

Lemma slice_at {A} (data pre mid rest : list A) (lo hi : Z) :
  data = pre ++ mid ++ rest -> lo = len pre -> hi = len pre + len mid ->
  slice data lo hi = mid.
Proof.
  intros -> -> ->.
  pose proof (len_nonneg pre). pose proof (len_nonneg mid).
  pose proof (len_nonneg rest).
  rewrite slice_nonneg by (rewrite ?len_app; lia).
  replace (Z.to_nat (len pre)) with (length pre) by (unfold len; lia).
  rewrite drop_app_length.
  replace (Z.to_nat (len pre + len mid - len pre)) with (length mid)
    by (unfold len; lia).
  apply take_app_length.
Qed.

(** ** Fuel and loop heads of the Baidu decoder *)

Lemma baidu_loop_fuel (data : bytes) (f1 : nat) :
  forall f2 off out, 0 <= off ->
  len data - off <= Z.of_nat f1 -> len data - off <= Z.of_nat f2 ->
  baidu_loop f1 data off out = baidu_loop f2 data off out.
Proof.
  induction f1 as [|f1 IH]; intros f2 off out Hoff H1 H2.
  - destruct f2; simpl; destruct (Z.gtb_spec (len data - off) 4); try lia;
      reflexivity.
  - destruct f2 as [|f2]; simpl;
      destruct (Z.gtb_spec (len data - off) 4); try lia; try reflexivity.
    destruct (baidu_record_ok data off Hoff) as (r & Hr & Hb).
    rewrite Hr. simpl. destruct r as [[off' e]|]; [|reflexivity].
    apply IH; lia.
Qed.

Lemma baidu_reach_loop (data : bytes) (start off : Z) (out : list Entry) :
  0 <= start -> baidu_reach data start off out ->
  start <= off /\
  parse_baidu data start = baidu_loop (length data) data off out.
Proof.
  intros Hs Hr. induction Hr as [|off out off' e Hr [Hle IH] Hrem Hrec].
  - split; [lia|reflexivity].
  - destruct (baidu_record_ok data off ltac:(lia)) as (r & Hr' & Hb).
    rewrite Hrec in Hr'. injection Hr' as <-.
    split; [lia|]. rewrite IH.
    rewrite (baidu_loop_fuel data (length data) (S (length data)) off out)
      by (unfold len; lia).
    simpl. destruct (Z.gtb_spec (len data - off) 4); [|lia].
    rewrite Hrec. reflexivity.
Qed.

(** A record on which the loop body breaks ends the decode with the
    entries emitted so far. *)
Lemma baidu_reach_break (data : bytes) (start off : Z) (out : list Entry) :
  0 <= start -> baidu_reach data start off out ->
  baidu_record data off = Ok None ->
  parse_baidu data start = Ok out.
Proof.
  intros Hs Hr Hrec. destruct (baidu_reach_loop _ _ _ _ Hs Hr) as [Hle ->].
  rewrite (baidu_loop_fuel data (length data) (S (length data)) off out)
    by (unfold len; lia).
  simpl. rewrite Hrec. simpl. destruct (len data - off >? 4); reflexivity.
Qed.

(** ** Syllables of a standard record *)

Lemma baidu_syllables_short (data : bytes) (k : nat) :
  forall off pinyin, 0 <= off <= len data ->
  len data - off < 2 * Z.of_nat k ->
  baidu_syllables k data off pinyin = Ok None.
Proof.
  induction k as [|k IH]; intros off pinyin Hoff Hs; simpl; [lia|].
  destruct (Z.ltb_spec (len data - off) 2); [reflexivity|].
  destruct (byte_at_in_range data off) as (sm & Hsm & Rsm); [lia|].
  destruct (byte_at_in_range data (off + 1)) as (ym & Hym & Rym); [lia|].
  rewrite Hsm, Hym. simpl.
  destruct (sm =? 255); [apply IH; lia|].
  destruct (Z.geb_spec sm (len BDICT_SM)); simpl; [reflexivity|].
  destruct (Z.geb_spec ym (len BDICT_YM)); simpl; [reflexivity|].
  destruct (getitem_in_range BDICT_SM sm) as [s Hs']; [lia|].
  destruct (getitem_in_range BDICT_YM ym) as [y Hy']; [lia|].
  rewrite Hs', Hy'. simpl. apply IH; lia.
Qed.

Lemma baidu_syllables_bad (data : bytes) (k : nat) :
  forall (i : nat) off pinyin sm_i ym_i, 0 <= off -> (i < k)%nat ->
  byte_at data (off + 2 * Z.of_nat i) = Ok sm_i ->
  byte_at data (off + 2 * Z.of_nat i + 1) = Ok ym_i ->
  off + 2 * Z.of_nat i + 2 <= len data ->
  bad_pair sm_i ym_i ->
  baidu_syllables k data off pinyin = Ok None.
Proof.
  induction k as [|k IH]; intros i off pinyin sm_i ym_i Hoff Hi Hsm Hym Hin Hbad;
    simpl; [lia|].
  destruct (Z.ltb_spec (len data - off) 2); [reflexivity|].
  destruct (byte_at_in_range data off) as (sm & Hsm0 & Rsm); [lia|].
  destruct (byte_at_in_range data (off + 1)) as (ym & Hym0 & Rym); [lia|].
  rewrite Hsm0, Hym0. simpl.
  assert (Hrec : forall p, (0 < i)%nat -> baidu_syllables k data (off + 2) p = Ok None).
  { intros p Hpos. apply (IH (i - 1)%nat _ _ sm_i ym_i); try lia; try assumption.
    - rewrite <- Hsm. f_equal. lia.
    - rewrite <- Hym. f_equal. lia. }
  destruct i as [|i].
  - replace (off + 2 * Z.of_nat 0) with off in * by lia.
    rewrite Hsm in Hsm0. rewrite Hym in Hym0.
    injection Hsm0 as <-. injection Hym0 as <-.
    destruct Hbad as [Hne Hor].
    destruct (Z.eqb_spec sm_i 255); [contradiction|].
    destruct (Z.geb_spec sm_i (len BDICT_SM)); simpl; [reflexivity|].
    destruct (Z.geb_spec ym_i (len BDICT_YM)); simpl; [reflexivity|lia].
  - destruct (sm =? 255); [apply Hrec; lia|].
    destruct (Z.geb_spec sm (len BDICT_SM)); simpl; [reflexivity|].
    destruct (Z.geb_spec ym (len BDICT_YM)); simpl; [reflexivity|].
    destruct (getitem_in_range BDICT_SM sm) as [s Hs']; [lia|].
    destruct (getitem_in_range BDICT_YM ym) as [y Hy']; [lia|].
    rewrite Hs', Hy'. simpl. apply Hrec. lia.
Qed.

(** ** Standard records of the Baidu decoder *)

Lemma baidu_record_standard (data : bytes) (off py_len fr : Z) :
  standard_record_at data off py_len fr ->
  baidu_record data off =
    syl ← baidu_syllables (Z.to_nat py_len) data (off + 4) [];
    match syl with
    | None => Ok None
    | Some (off', pinyin) =>
        if len data - off' <? py_len * 2 then Ok None
        else Ok (Some (off' + py_len * 2,
                       mkEntry (decode_utf16le (slice data off' (off' + py_len * 2)))
                               pinyin
                               (Some fr)))
    end.
Proof.
  intros (p0 & p1 & E1 & E2 & Ep0 & Ep1 & Hnz & Hsm).
  unfold baidu_record. rewrite E1. simpl. rewrite E2. simpl.
  assert (Hrem : len data - (off + 4) >= 2).
  { unfold byte_at in Ep1.
    destruct (Z.lt_ge_cases (off + 5) 0) as [Hneg|Hpos].
    - unfold _u16le in E1. destruct (off + 2 >? len data); [discriminate|].
      pose proof (len_nonneg data). lia.
    - rewrite getitem_nonneg in Ep1 by lia.
      destruct (data !! Z.to_nat (off + 5)) eqn:El; [|discriminate].
      apply lookup_lt_Some in El. unfold len. lia. }
  destruct (Z.ltb_spec (len data - (off + 4)) 2); [lia|].
  replace (off + 4 + 1) with (off + 5) by lia.
  rewrite Ep0, Ep1. simpl.
  assert (Hz : (p0 =? 0) && (p1 =? 0) = false).
  { destruct (Z.eqb_spec p0 0), (Z.eqb_spec p1 0); simpl; try reflexivity.
    exfalso. apply Hnz. auto. }
  rewrite Hz.
  assert (He : (p0 >=? len BDICT_SM) && negb (p0 =? 255) = false).
  { destruct (Z.geb_spec p0 (len BDICT_SM)), (Z.eqb_spec p0 255); simpl;
      try reflexivity. lia. }
  rewrite He. reflexivity.
Qed.

Lemma baidu_record_bad_pair (data : bytes) (off py_len fr i sm_i ym_i : Z) :
  0 <= off -> standard_record_at data off py_len fr ->
  0 <= i < py_len ->
  off + 4 + 2 * i + 2 <= len data ->
  byte_at data (off + 4 + 2 * i) = Ok sm_i ->
  byte_at data (off + 4 + 2 * i + 1) = Ok ym_i ->
  bad_pair sm_i ym_i ->
  baidu_record data off = Ok None.
Proof.
  intros Hoff Hstd Hi Hin Hsm Hym Hbad.
  rewrite (baidu_record_standard _ _ _ _ Hstd).
  rewrite (baidu_syllables_bad data (Z.to_nat py_len) (Z.to_nat i)
             (off + 4) [] sm_i ym_i); try lia; try assumption.
  - reflexivity.
  - rewrite Z2Nat.id by lia. exact Hsm.
  - rewrite Z2Nat.id by lia. exact Hym.
Qed.

Lemma baidu_record_mid_syllable (data : bytes) (off py_len fr : Z) :
  0 <= off -> standard_record_at data off py_len fr ->
  len data - (off + 4) < 2 * py_len ->
  baidu_record data off = Ok None.
Proof.
  intros Hoff Hstd Hshort.
  rewrite (baidu_record_standard _ _ _ _ Hstd).
  destruct Hstd as (p0 & p1 & E1 & E2 & _).
  apply _u16le_inv in E1 as (_ & Hpy & _); [|exact Hoff].
  apply _u16le_inv in E2 as (_ & _ & Hlen); [|lia].
  rewrite baidu_syllables_short; [reflexivity|lia|].
  rewrite Z2Nat.id by lia. exact Hshort.
Qed.

Lemma len_nil {A} : len (@nil A) = 0.
Proof. reflexivity. Qed.

Ltac len_simpl := rewrite ?len_app, ?len_le16, ?len_cons, ?len_nil.

Lemma baidu_loop_stop (data : bytes) (fuel : nat) (off : Z) (out : list Entry) :
  len data - off <= 4 -> baidu_loop fuel data off out = Ok out.
Proof.
  intros H. destruct fuel; simpl;
    destruct (Z.gtb_spec (len data - off) 4); try lia; reflexivity.
Qed.

Lemma decode_utf16le_unit (c0 c1 : byte) :
  is_high_surrogate (u16 (byte_to_Z c0) (byte_to_Z c1)) = false ->
  is_low_surrogate (u16 (byte_to_Z c0) (byte_to_Z c1)) = false ->
  forall rest, decode_utf16le (c0 :: c1 :: rest) =
               u16 (byte_to_Z c0) (byte_to_Z c1) :: decode_utf16le rest.
Proof. intros Hh Hl rest. simpl. rewrite Hh, Hl. reflexivity. Qed.

(** A standard record of one syllable with initial index 0, alone at the
    end of the buffer. *)
Lemma baidu_one_syllable (pre tl : bytes) (fr : Z) (y c0 c1 : byte) (fin : list Z) :
  0 <= fr < 65536 ->
  byte_to_Z y <> 0 -> byte_to_Z y < len BDICT_YM ->
  getitem BDICT_YM (byte_to_Z y) = Ok fin ->
  is_high_surrogate (u16 (byte_to_Z c0) (byte_to_Z c1)) = false ->
  is_low_surrogate (u16 (byte_to_Z c0) (byte_to_Z c1)) = false ->
  len tl <= 4 ->
  parse_baidu (pre ++ le16 1 ++ le16 fr ++ [x00; y] ++ [c0; c1] ++ tl) (len pre)
  = Ok [mkEntry [u16 (byte_to_Z c0) (byte_to_Z c1)] [py "c" ++ fin] (Some fr)].
Proof.
  intros Hfr Hy0 Hy Hfin Hh Hl Htl.
  set (data := pre ++ le16 1 ++ le16 fr ++ [x00; y] ++ [c0; c1] ++ tl).
  pose proof (len_nonneg pre) as Hpre. pose proof (len_nonneg tl) as Htl0.
  assert (Hlen : len data = len pre + 8 + len tl).
  { unfold data. len_simpl. lia. }
  assert (Hstd : standard_record_at data (len pre) 1 fr).
  { exists 0, (byte_to_Z y). repeat split.
    - apply (_u16le_at data pre (le16 fr ++ [x00; y] ++ [c0; c1] ++ tl));
        [reflexivity|reflexivity|lia].
    - replace (len pre + 4) with (len pre + 2 + 2) by lia.
      apply (_u16le_at data (pre ++ le16 1) ([x00; y] ++ [c0; c1] ++ tl));
        [unfold data; rewrite <- !app_assoc; reflexivity
        |len_simpl; lia|lia].
    - apply (byte_at_at data (pre ++ le16 1 ++ le16 fr) (y :: [c0; c1] ++ tl) x00);
        [unfold data; rewrite <- !app_assoc; reflexivity
        |len_simpl; lia].
    - apply (byte_at_at data (pre ++ le16 1 ++ le16 fr ++ [x00]) ([c0; c1] ++ tl) y);
        [unfold data; rewrite <- !app_assoc; reflexivity
        |len_simpl; lia].
    - intros [_ H]. contradiction.
    - left. reflexivity. }
  unfold parse_baidu.
  rewrite (baidu_loop_fuel data (length data) (S (length data)) (len pre) [])
    by (unfold len; lia).
  simpl baidu_loop. destruct (Z.gtb_spec (len data - len pre) 4); [|lia].
  rewrite (baidu_record_standard _ _ _ _ Hstd).
  destruct Hstd as (p0 & p1 & _ & _ & Ep0 & Ep1 & _).
  change (Z.to_nat 1) with 1%nat. simpl baidu_syllables.
  destruct (Z.ltb_spec (len data - (len pre + 4)) 2); [lia|].
  replace (len pre + 4 + 1) with (len pre + 5) by lia.
  rewrite Ep0, Ep1.
  assert (E0 : p0 = 0).
  { rewrite (byte_at_at data (pre ++ le16 1 ++ le16 fr) (y :: [c0; c1] ++ tl) x00) in Ep0;
      [injection Ep0 as <-; reflexivity
      |unfold data; rewrite <- !app_assoc; reflexivity
      |len_simpl; lia]. }
  assert (E1 : p1 = byte_to_Z y).
  { rewrite (byte_at_at data (pre ++ le16 1 ++ le16 fr ++ [x00]) ([c0; c1] ++ tl) y) in Ep1;
      [injection Ep1 as <-; reflexivity
      |unfold data; rewrite <- !app_assoc; reflexivity
      |len_simpl; lia]. }
  subst p0 p1. simpl.
  destruct (Z.geb_spec (byte_to_Z y) (len BDICT_YM)); [lia|]. simpl.
  rewrite Hfin. simpl. change (1 * 2) with 2.
  destruct (Z.ltb_spec (len data - (len pre + 4 + 2)) 2); [lia|].
  rewrite (slice_at data (pre ++ le16 1 ++ le16 fr ++ [x00; y]) [c0; c1] tl);
    [|unfold data; rewrite <- !app_assoc; reflexivity
     |len_simpl; lia|len_simpl; lia].
  rewrite decode_utf16le_unit by assumption. simpl.
  apply baidu_loop_stop. lia.
Qed.

(** A pair whose initial byte is the sentinel [0xFF] is never a table
    lookup: whatever its second byte, it adds that code point as a
    syllable and the loop goes on. *)
Lemma baidu_syllables_raw_code (data : bytes) (k : nat) (off ym : Z)
    (pinyin : list str) :
  0 <= off -> off + 2 <= len data ->
  byte_at data off = Ok 0xFF -> byte_at data (off + 1) = Ok ym ->
  baidu_syllables (S k) data off pinyin
  = baidu_syllables k data (off + 2) (pinyin ++ [chr ym]).
Proof.
  intros Hoff Hin Hsm Hym. simpl.
  destruct (Z.ltb_spec (len data - off) 2); [lia|].
  rewrite Hsm, Hym. reflexivity.
Qed.

(** ** Groups and words of the Sogou decoder *)

Lemma scel_loop_stop (data : bytes) (t : gmap Z (list Z)) (fuel : nat)
    (pos : Z) (out : list Entry) :
  len data - pos <= 8 -> scel_loop fuel data t pos out = Ok out.
Proof.
  intros H. destruct fuel; simpl;
    destruct (Z.gtb_spec (len data - pos) 8); try lia; reflexivity.
Qed.

Lemma scel_loop_fuel (data : bytes) (t : gmap Z (list Z)) (f1 : nat) :
  forall f2 pos out, 0 <= pos ->
  len data - pos <= Z.of_nat f1 -> len data - pos <= Z.of_nat f2 ->
  scel_loop f1 data t pos out = scel_loop f2 data t pos out.
Proof.
  induction f1 as [|f1 IH]; intros f2 pos out Hpos H1 H2.
  - destruct f2; simpl; destruct (Z.gtb_spec (len data - pos) 8); try lia;
      reflexivity.
  - destruct f2 as [|f2]; simpl;
      destruct (Z.gtb_spec (len data - pos) 8); try lia; try reflexivity.
    destruct (scel_group_ok data t pos out Hpos) as (r & Hr & Hb).
    rewrite Hr. simpl. destruct r as [[pos' out']|]; [|reflexivity].
    apply IH; lia.
Qed.

(** One word record: length, text, extension length, extension. *)
Lemma scel_words_word (data pre wbytes ext rest : bytes) (py_list : list str)
    (k : nat) (pos : Z) (out : list Entry) :
  data = pre ++ le16 (len wbytes) ++ wbytes ++ le16 (len ext) ++ ext ++ rest ->
  pos = len pre ->
  0 < len wbytes < 65536 -> len ext < 65536 ->
  scel_words (S k) data py_list pos out =
  scel_words k data py_list (pos + 2 + len wbytes + 2 + len ext)
    (out ++ [mkEntry (decode_utf16le wbytes) py_list (Some (scel_freq ext))]).
Proof.
  intros Hdata Hpos Hw He. simpl scel_words.
  pose proof (len_nonneg pre). pose proof (len_nonneg ext).
  pose proof (len_nonneg rest).
  assert (Hlen : len data = len pre + 2 + len wbytes + 2 + len ext + len rest).
  { rewrite Hdata. len_simpl. lia. }
  destruct (Z.ltb_spec (len data - pos) 2); [lia|].
  rewrite !_u16le_mem_eq.
  rewrite (_u16le_at data pre (wbytes ++ le16 (len ext) ++ ext ++ rest)
             (len wbytes) pos) by (assumption || lia).
  simpl.
  destruct (Z.leb_spec (len wbytes) 0); [lia|]. simpl.
  destruct (Z.ltb_spec (len data - (pos + 2)) (len wbytes)); [lia|].
  rewrite (slice_at data (pre ++ le16 (len wbytes)) wbytes
             (le16 (len ext) ++ ext ++ rest))
    by (subst; rewrite <- ?app_assoc; len_simpl; reflexivity || lia).
  destruct (Z.ltb_spec (len data - (pos + 2 + len wbytes)) 2); [lia|].
  rewrite !_u16le_mem_eq.
  rewrite (_u16le_at data (pre ++ le16 (len wbytes) ++ wbytes) (ext ++ rest)
             (len ext) (pos + 2 + len wbytes))
    by (subst; rewrite <- ?app_assoc; len_simpl; reflexivity || lia).
  simpl.
  destruct (Z.ltb_spec (len ext) 0); [lia|]. simpl.
  destruct (Z.ltb_spec (len data - (pos + 2 + len wbytes + 2)) (len ext)); [lia|].
  rewrite (slice_at data (pre ++ le16 (len wbytes) ++ wbytes ++ le16 (len ext))
             ext rest)
    by (subst; rewrite <- ?app_assoc; len_simpl; reflexivity || lia).
  reflexivity.
Qed.

(** The header of a group: count of words, byte length of the index list,
    index list. *)
Lemma scel_group_header (data pre idx rest : bytes) (t : gmap Z (list Z))
    (same : Z) (out : list Entry) :
  data = pre ++ le16 same ++ le16 (len idx) ++ idx ++ rest ->
  0 <= same < 65536 -> 0 < len idx < 65536 ->
  scel_group data t (len pre) out =
  Some <$> scel_words (Z.to_nat same) data (group_pinyin idx t)
             (len pre + 2 + 2 + len idx) out.
Proof.
  intros Hdata Hs Hi. unfold scel_group.
  pose proof (len_nonneg pre). pose proof (len_nonneg rest).
  assert (Hlen : len data = len pre + 2 + 2 + len idx + len rest).
  { rewrite Hdata. len_simpl. lia. }
  rewrite !_u16le_mem_eq.
  rewrite (_u16le_at data pre (le16 (len idx) ++ idx ++ rest) same (len pre))
    by (assumption || reflexivity).
  simpl. rewrite !_u16le_mem_eq.
  rewrite (_u16le_at data (pre ++ le16 same) (idx ++ rest) (len idx) (len pre + 2))
    by (subst; rewrite <- ?app_assoc; len_simpl; reflexivity || lia).
  simpl.
  destruct (Z.leb_spec (len idx) 0); [lia|]. simpl.
  destruct (Z.ltb_spec (len data - (len pre + 2 + 2)) (len idx)); [lia|].
  rewrite (slice_at data (pre ++ le16 same ++ le16 (len idx)) idx rest)
    by (subst; rewrite <- ?app_assoc; len_simpl; reflexivity || lia).
  rewrite _parse_py_indexes_scel_spec. reflexivity.
Qed.

(** A buffer whose word area holds one group of one word. *)
Lemma parse_scel_one_word (pre idx wbytes ext tl : bytes) (t : gmap Z (list Z))
    (start_py : Z) :
  let data := pre ++ le16 1 ++ le16 (len idx) ++ idx ++
              le16 (len wbytes) ++ wbytes ++ le16 (len ext) ++ ext ++ tl in
  _read_pinyin_table_scel data start_py (len pre) = Ok t ->
  0 < len idx < 65536 -> 0 < len wbytes < 65536 -> len ext < 65536 ->
  len tl <= 8 ->
  parse_scel data start_py (len pre) =
  Ok [mkEntry (decode_utf16le wbytes) (group_pinyin idx t) (Some (scel_freq ext))].
Proof.
  intros data Ht Hi Hw He Htl.
  pose proof (len_nonneg pre). pose proof (len_nonneg ext).
  pose proof (len_nonneg tl).
  assert (Hlen : len data =
            len pre + 2 + 2 + len idx + 2 + len wbytes + 2 + len ext + len tl).
  { unfold data. len_simpl. lia. }
  unfold parse_scel. rewrite Ht. simpl.
  rewrite (scel_loop_fuel data t (length data) (S (length data)) (len pre) [])
    by (unfold len; lia).
  simpl scel_loop. destruct (Z.gtb_spec (len data - len pre) 8); [|lia].
  rewrite (scel_group_header data pre idx
             (le16 (len wbytes) ++ wbytes ++ le16 (len ext) ++ ext ++ tl) t 1 [])
    by (reflexivity || lia).
  change (Z.to_nat 1) with 1%nat.
  rewrite (scel_words_word data (pre ++ le16 1 ++ le16 (len idx) ++ idx)
             wbytes ext tl)
    by (unfold data; rewrite <- ?app_assoc; len_simpl; reflexivity || lia).
  simpl. apply scel_loop_stop. lia.
Qed.

(** The entries a group appends all carry the pinyin list of its index
    bytes. *)
Lemma scel_group_shared (data : bytes) (t : gmap Z (list Z)) (pos pos' : Z)
    (out out' : list Entry) :
  0 <= pos -> scel_group data t pos out = Ok (Some (pos', out')) ->
  exists same py_idx_len new,
    _u16le_mem data pos = Ok (same, pos + 2) /\
    _u16le_mem data (pos + 2) = Ok (py_idx_len, pos + 2 + 2) /\
    out' = out ++ new /\
    Forall (fun e => pinyin e =
              group_pinyin (slice data (pos + 2 + 2) (pos + 2 + 2 + py_idx_len)) t)
           new.
Proof.
  intros Hpos H. unfold scel_group in H. rewrite !_u16le_mem_eq in *.
  destruct (_u16le_cases data pos Hpos) as [[_ E]|(_ & same & E & Hs)];
    rewrite E in H; simpl in H; [discriminate|].
  rewrite !_u16le_mem_eq in *.
  destruct (_u16le_cases data (pos + 2)) as [[_ E2]|(_ & pl & E2 & Hpl)];
    [lia| |]; rewrite E2 in H; simpl in H; [discriminate|].
  destruct ((pl <=? 0) || (len data - (pos + 2 + 2) <? pl)); [discriminate|].
  rewrite _parse_py_indexes_scel_spec in H. simpl in H.
  match type of H with
  | context [scel_words ?k data ?pl' ?p out] =>
      destruct (scel_words_ok data pl' k p out) as (q & new & Hr & _ & Hall); [lia|]
  end.
  rewrite Hr in H. simpl in H. injection H as <- <-.
  exists same, pl, new. rewrite ?_u16le_mem_eq. auto.
Qed.

(** ** Further facts about the two reducers *)

Lemma trimmed_words_elem (es : list Entry) (w : list Z) :
  w ∈ trimmed_words es <-> w <> [] /\ exists e, e ∈ es /\ strip (word e) = w.
Proof.
  unfold trimmed_words. rewrite list_elem_of_filter, list_elem_of_In, in_map_iff.
  split.
  - intros [Hne (e & He & Hin)]. split; [exact Hne|].
    exists e. rewrite list_elem_of_In. auto.
  - intros [Hne (e & Hin & He)]. split; [exact Hne|].
    exists e. rewrite <- list_elem_of_In. auto.
Qed.

Lemma _uniq_stable_words_elem (es : list Entry) (w : list Z) :
  w ∈ _uniq_stable_words es <->
  w <> [] /\ exists e, e ∈ es /\ strip (word e) = w.
Proof.
  rewrite _uniq_stable_words_spec, first_occurrences_elem.
  apply trimmed_words_elem.
Qed.

Lemma _uniq_stable_words_NoDup (es : list Entry) : NoDup (_uniq_stable_words es).
Proof. rewrite _uniq_stable_words_spec. apply first_occurrences_NoDup. Qed.

Lemma trimmed_words_app (l1 l2 : list Entry) :
  trimmed_words (l1 ++ l2) = trimmed_words l1 ++ trimmed_words l2.
Proof. unfold trimmed_words. rewrite map_app, filter_app. reflexivity. Qed.

(** An entry whose word is empty once trimmed leaves no trace. *)
Lemma _uniq_stable_words_blank (l1 l2 : list Entry) (e : Entry) :
  strip (word e) = [] ->
  _uniq_stable_words (l1 ++ e :: l2) = _uniq_stable_words (l1 ++ l2).
Proof.
  intros Hb. rewrite !_uniq_stable_words_spec, !trimmed_words_app.
  rewrite trimmed_words_cons, Hb. reflexivity.
Qed.

(** Feeding the word list back in gives the word list. *)
Lemma _uniq_stable_words_again (es : list Entry) :
  _uniq_stable_words (map (fun w => mkEntry w [] None) (_uniq_stable_words es))
  = _uniq_stable_words es.
Proof.
  set (U := _uniq_stable_words es).
  assert (Ht : trimmed_words (map (fun w => mkEntry w [] None) U) = U).
  { assert (HU : forall w, w ∈ U -> w <> [] /\ strip w = w).
    { intros w Hw. apply _uniq_stable_words_elem in Hw as [Hne (e & _ & <-)].
      split; [exact Hne|apply strip_idempotent]. }
    clearbody U. induction U as [|w U IH]; [reflexivity|].
    simpl map. rewrite trimmed_words_cons. simpl word.
    destruct (HU w ltac:(left)) as [Hne Hs]. rewrite Hs.
    destruct w; [congruence|]. simpl. f_equal.
    apply IH. intros w' Hw'. apply HU. right. exact Hw'. }
  rewrite _uniq_stable_words_spec, Ht.
  apply first_occurrences_id, _uniq_stable_words_NoDup.
Qed.

Lemma dict_get_lookup {V} (d : dict V) (k : list Z) :
  k ∈ map fst d ->
  exists i v, d !! i = Some (k, v) /\ dict_get d k = Some v.
Proof.
  induction d as [|[k0 v0] d IH]; simpl; intros Hin; [inversion Hin|].
  destruct (decide (k = k0)) as [->|Hne].
  - exists 0%nat, v0. split; reflexivity.
  - apply elem_of_cons in Hin as [?|Hin]; [contradiction|].
    destruct (IH Hin) as (i & v & Hi & Hg). exists (S i), v. split; assumption.
Qed.

(** Every entry has an item, and so a line, under its exact word. *)
Lemma rime_best_has_word (es : list Entry) (e : Entry) :
  e ∈ es ->
  exists i v, rime_best es !! i = Some (word e, v) /\
              dict_get (rime_best es) (word e) = Some v /\
              rime_lines es !! i = Some (rime_line (word e, v)).
Proof.
  intros Hin.
  destruct (dict_get_lookup (rime_best es) (word e)) as (i & v & Hi & Hg).
  { rewrite rime_best_keys, first_occurrences_elem.
    apply list_elem_of_In, in_map, list_elem_of_In. exact Hin. }
  exists i, v. split; [exact Hi|]. split; [exact Hg|].
  unfold rime_lines.
  change (map rime_line (rime_best es)) with (rime_line <$> rime_best es).
  rewrite list_lookup_fmap, Hi. reflexivity.
Qed.



(** * The claims of the specification *)

(** C1 (fails on the code).  In [parse_scel] a word whose declared length
    exceeds the remaining bytes only leaves the [for] loop of its group:
    on [scel_resume_buffer] the first group stops at position 8 with
    nothing emitted, the [while] loop then reads a second group from
    there, and the decode returns the entry of that later group.  The
    same happens with the default offsets when these bytes follow
    [SCEL_START_CHINESE] zero bytes. *)
Theorem parse_scel_word_break_resumes :
  _u16le_mem scel_resume_buffer 6 = Ok (0xFFFF, 8) /\
  len scel_resume_buffer - 8 < 0xFFFF /\
  scel_words 1 scel_resume_buffer [] 6 [] = Ok (8, []) /\
  scel_group scel_resume_buffer ∅ 0 [] = Ok (Some (8, [])) /\
  parse_scel scel_resume_buffer 0 0 = Ok [mkEntry (py "a") [] (Some 0)] /\
  parse_scel (repeat x00 (Z.to_nat SCEL_START_CHINESE) ++ scel_resume_buffer)
             SCEL_START_PY SCEL_START_CHINESE
    = Ok [mkEntry (py "a") [] (Some 0)].
Proof. repeat split; vm_compute; reflexivity. Qed.




(** C3, counterexample.  With final index 27 the syllable is "ca": index
    27 of the final table is "a", and "o" is index 30. *)
Lemma baidu_final_27_is_ca :
  parse_baidu baidu_final27_buffer 0
    = Ok [mkEntry [0x4f60] [py "ca"] (Some 5)] /\
  parse_baidu baidu_final27_buffer 0
    <> Ok [mkEntry [0x4f60] [py "co"] (Some 5)] /\
  getitem BDICT_YM 27 = Ok (py "a") /\ getitem BDICT_YM 30 = Ok (py "o").
Proof.
  repeat split; try (vm_compute; reflexivity).
  vm_compute. discriminate.
Qed.

(** C3, as amended.  A standard record with [pinyin_len = 1], [freq = 5],
    the single pair (initial 0, final 27) and the two UTF-16LE bytes of
    one character, with at most 4 bytes after it, yields exactly one
    entry with pinyin ["ca"], freq 5 and that character as its word; with
    the pair (initial 0, final 30) the pinyin is ["co"]. *)
Theorem baidu_standard_record_scenario (pre tl : bytes) (c0 c1 : byte) :
  is_high_surrogate (u16 (byte_to_Z c0) (byte_to_Z c1)) = false ->
  is_low_surrogate (u16 (byte_to_Z c0) (byte_to_Z c1)) = false ->
  len tl <= 4 ->
  parse_baidu (pre ++ le16 1 ++ le16 5 ++ [x00; x1b] ++ [c0; c1] ++ tl) (len pre)
    = Ok [mkEntry [u16 (byte_to_Z c0) (byte_to_Z c1)] [py "ca"] (Some 5)] /\
  parse_baidu (pre ++ le16 1 ++ le16 5 ++ [x00; x1e] ++ [c0; c1] ++ tl) (len pre)
    = Ok [mkEntry [u16 (byte_to_Z c0) (byte_to_Z c1)] [py "co"] (Some 5)].
Proof.
  intros Hh Hl Htl. split.
  - apply (baidu_one_syllable pre tl 5 x1b c0 c1 (py "a")); try assumption;
      try reflexivity; [lia|discriminate].
  - apply (baidu_one_syllable pre tl 5 x1e c0 c1 (py "o")); try assumption;
      try reflexivity; [lia|discriminate].
Qed.

Lemma baidu_standard_record_scenario_witness :
  parse_baidu baidu_final27_buffer 0
    = Ok [mkEntry [0x4f60] [py "ca"] (Some 5)].
Proof.
  apply (baidu_standard_record_scenario [] [] x60 x4f);
    vm_compute; (reflexivity || discriminate).
Defined.

(** C4.  When the loop of [parse_baidu] is at a standard record and one of
    its syllable pairs, lying in the buffer, is a table lookup with an
    initial index >= 24 or a final index >= 33, or when the buffer ends
    before the declared syllable pairs are all there, the decode returns
    exactly the entries emitted before that record. *)
Theorem baidu_standard_record_abort (data : bytes) (start off py_len fr : Z)
    (out : list Entry) :
  0 <= start ->
  baidu_reach data start off out ->
  standard_record_at data off py_len fr ->
  (exists i sm_i ym_i,
      0 <= i < py_len /\ off + 4 + 2 * i + 2 <= len data /\
      byte_at data (off + 4 + 2 * i) = Ok sm_i /\
      byte_at data (off + 4 + 2 * i + 1) = Ok ym_i /\
      bad_pair sm_i ym_i)
  \/ len data - (off + 4) < 2 * py_len ->
  parse_baidu data start = Ok out.
Proof.
  intros Hs Hr Hstd Hbad.
  apply (baidu_reach_break data start off out Hs Hr).
  destruct (baidu_reach_loop _ _ _ _ Hs Hr) as [Hle _].
  destruct Hbad as [(i & sm_i & ym_i & Hi & Hin & Hsm & Hym & Hb)|Hshort].
  - apply (baidu_record_bad_pair data off py_len fr i sm_i ym_i);
      try assumption. lia.
  - apply (baidu_record_mid_syllable data off py_len fr); try assumption. lia.
Qed.

Lemma baidu_standard_record_abort_witness :
  parse_baidu baidu_bad_final_buffer 0
    = Ok [mkEntry [0x4f60] [py "ca"] (Some 5)] /\
  parse_baidu baidu_mid_syllable_buffer 0
    = Ok [mkEntry [0x4f60] [py "ca"] (Some 5)].
Proof.
  split.
  - apply (baidu_standard_record_abort baidu_bad_final_buffer 0 8 2 7).
    + lia.
    + apply (baidu_reach_next _ _ 0 [] 8 (mkEntry [0x4f60] [py "ca"] (Some 5)));
        [constructor|vm_compute; reflexivity|vm_compute; reflexivity].
    + exists 0, 27. repeat split; try (vm_compute; reflexivity).
      * intros [_ H]. discriminate.
      * left. vm_compute. reflexivity.
    + left. exists 1, 1, 33. repeat split; try (vm_compute; reflexivity);
        try (vm_compute; discriminate).
      right. vm_compute. discriminate.
  - apply (baidu_standard_record_abort baidu_mid_syllable_buffer 0 8 3 7).
    + lia.
    + apply (baidu_reach_next _ _ 0 [] 8 (mkEntry [0x4f60] [py "ca"] (Some 5)));
        [constructor|vm_compute; reflexivity|vm_compute; reflexivity].
    + exists 0, 27. repeat split; try (vm_compute; reflexivity).
      * intros [_ H]. discriminate.
      * left. vm_compute. reflexivity.
    + right. vm_compute. reflexivity.
Defined.

(** ** Trimming is what the specification says *)

Lemma lstrip_spaces_app (l t : str) :
  Forall (fun c => is_space c = true) l -> lstrip (l ++ t) = lstrip t.
Proof.
  induction 1 as [|c l Hc _ IH]; simpl; [reflexivity|].
  rewrite Hc. exact IH.
Qed.

Lemma lstrip_blank (l : str) :
  Forall (fun c => is_space c = true) l -> lstrip l = [].
Proof.
  intros H. rewrite <- (app_nil_r l). rewrite lstrip_spaces_app by exact H.
  reflexivity.
Qed.

Lemma Forall_space_rev (l : str) :
  Forall (fun c => is_space c = true) l ->
  Forall (fun c => is_space c = true) (rev l).
Proof.
  rewrite !Forall_forall. intros H c Hc. apply H.
  apply list_elem_of_In. apply in_rev. apply list_elem_of_In. exact Hc.
Qed.

(** [strip] returns the one text that is its argument trimmed. *)
Lemma strip_trimmed_of (s w : str) : strip s = w <-> trimmed_of s w.
Proof.
  split.
  - intros <-. destruct (lstrip_split s) as (l & Hs & Hl).
    destruct (lstrip_split (rev (lstrip s))) as (r' & Hr & Hr').
    exists l, (rev r'). split; [|split; [exact Hl|split]].
    + rewrite Hs at 1. f_equal. unfold strip, rstrip.
      rewrite <- rev_app_distr, <- Hr, rev_involutive. reflexivity.
    + apply Forall_space_rev. exact Hr'.
    + apply strip_ends.
  - intros (l & r & -> & Hl & Hr & Hh & Ht).
    unfold strip, rstrip. rewrite lstrip_spaces_app by exact Hl.
    destruct w as [|c w].
    + simpl. rewrite (lstrip_blank r Hr). reflexivity.
    + rewrite (lstrip_fixed ((c :: w) ++ r)) by exact Hh.
      rewrite rev_app_distr.
      rewrite lstrip_spaces_app by (apply Forall_space_rev; exact Hr).
      rewrite (lstrip_fixed (rev (c :: w)) Ht). apply rev_involutive.
Qed.

Lemma strip_blank (s : str) : strip s = [] <-> blank s.
Proof.
  rewrite strip_trimmed_of. unfold blank. split.
  - intros (l & r & -> & Hl & Hr & _). simpl. apply Forall_app. split; assumption.
  - intros H. exists s, []. rewrite app_nil_r.
    split; [reflexivity|]. split; [exact H|]. split; [constructor|].
    split; exact I.
Qed.

(** ** A line of the merge is part of the text written *)

Lemma rime_lines_in_text (es : list Entry) (name line : str) :
  line ∈ rime_lines es ->
  exists before after, write_rime_yaml es name = before ++ line ++ after.
Proof.
  intros Hin. apply list_elem_of_split in Hin as (l1 & l2 & Heq).
  exists (rime_header name ++ concat l1), (concat l2).
  unfold write_rime_yaml. rewrite Heq, concat_app. simpl.
  rewrite <- !app_assoc. reflexivity.
Qed.

(** ** No slice is ever cut short *)

Lemma bind_Ok {A B} (a : A) (f : A -> result B) : Ok a ≫= f = f a.
Proof. reflexivity. Qed.

Lemma slice_checked_ok {A} (b : list A) (lo hi : Z) :
  0 <= lo -> lo <= hi -> hi <= len b ->
  slice_checked b lo hi = Ok (slice b lo hi).
Proof.
  intros H0 H1 H2. unfold slice_checked.
  destruct (Z.ltb_spec lo 0); [lia|]. destruct (Z.ltb_spec hi 0); [lia|].
  destruct (Z.leb_spec 0 lo); [|lia]. destruct (Z.leb_spec lo hi); [|lia].
  destruct (Z.leb_spec hi (len b)); [|lia]. reflexivity.
Qed.

Lemma baidu_record_checked_eq (data : bytes) (off : Z) :
  0 <= off -> baidu_record_checked data off = baidu_record data off.
Proof.
  intros Hoff. unfold baidu_record_checked, baidu_record.
  destruct (_u16le_cases data off Hoff) as [[_ E]|(_ & py_len & E & Hpy)];
    rewrite !E; simpl; [reflexivity|].
  destruct (_u16le_cases data (off + 2)) as [[_ E2]|(_ & fr & E2 & Hfr)];
    [lia| |]; rewrite !E2; simpl; [reflexivity|].
  destruct (Z.ltb_spec (len data - (off + 2 + 2)) 2) as [|Hrem]; [reflexivity|].
  destruct (byte_at_in_range data (off + 2 + 2)) as (p0 & Hp0 & Rp0); [lia|].
  destruct (byte_at_in_range data (off + 2 + 2 + 1)) as (p1 & Hp1 & Rp1); [lia|].
  rewrite !Hp0, !Hp1. simpl.
  destruct ((p0 =? 0) && (p1 =? 0)).
  { destruct (_u16le_cases data (off + 2 + 2 + 2)) as [[_ E3]|(_ & wl & E3 & Hwl)];
      [lia| |]; rewrite !E3; simpl; [reflexivity|].
    destruct (Z.ltb_spec (len data - (off + 2 + 2 + 2 + 2)) (py_len * 2 + wl * 2));
      [reflexivity|].
    rewrite (slice_checked_ok data (off + 2 + 2 + 2 + 2)
               (off + 2 + 2 + 2 + 2 + py_len * 2)) by lia.
    rewrite bind_Ok.
    rewrite (slice_checked_ok data (off + 2 + 2 + 2 + 2 + py_len * 2)
               (off + 2 + 2 + 2 + 2 + py_len * 2 + wl * 2)) by lia.
    reflexivity. }
  destruct ((p0 >=? len BDICT_SM) && negb (p0 =? 255)).
  { destruct (Z.ltb_spec (len data - (off + 2 + 2 + 1)) py_len); [reflexivity|].
    rewrite (slice_checked_ok data (off + 2 + 2 + 1) (off + 2 + 2 + 1 + py_len))
      by lia.
    reflexivity. }
  destruct (baidu_syllables (Z.to_nat py_len) data (off + 2 + 2) [])
    as [[[o' p']|]|] eqn:Es; simpl; try reflexivity.
  assert (Hoff4 : 0 <= off + 2 + 2) by lia.
  pose proof (baidu_syllables_bounds _ _ _ _ _ _ Hoff4 Es) as Hbd.
  destruct (Z.ltb_spec (len data - o') (py_len * 2)); [reflexivity|].
  rewrite (slice_checked_ok data o' (o' + py_len * 2)) by lia.
  reflexivity.
Qed.

Lemma baidu_loop_checked_eq (data : bytes) (fuel : nat) :
  forall off out, 0 <= off ->
  baidu_loop_checked fuel data off out = baidu_loop fuel data off out.
Proof.
  induction fuel as [|fuel IH]; intros off out Hoff; simpl; [reflexivity|].
  destruct (len data - off >? 4); [|reflexivity].
  rewrite (baidu_record_checked_eq data off Hoff).
  destruct (baidu_record_ok data off Hoff) as (r & Hr & Hb).
  rewrite Hr. simpl. destruct r as [[off' e]|]; [|reflexivity].
  apply IH. lia.
Qed.

Lemma pinyin_table_loop_checked_eq (data : bytes) (start_chinese : Z)
    (fuel : nat) :
  forall pos t, 0 <= pos ->
  pinyin_table_loop_checked fuel data start_chinese pos t
  = pinyin_table_loop fuel data start_chinese pos t.
Proof.
  induction fuel as [|fuel IH]; intros pos t Hpos; simpl; [reflexivity|].
  destruct (Z.leb_spec (pos + 4) (len data)); simpl; [|reflexivity].
  destruct (pos <? start_chinese); [|reflexivity].
  destruct (byte_at_in_range data pos) as (a & Ha & Ra); [lia|].
  destruct (byte_at_in_range data (pos + 1)) as (b & Hb & Rb); [lia|].
  destruct (byte_at_in_range data (pos + 2)) as (c & Hc & Rc); [lia|].
  destruct (byte_at_in_range data (pos + 2 + 1)) as (d & Hd & Rd); [lia|].
  rewrite !Ha, !Hb. simpl. rewrite !Hc, !Hd. simpl.
  destruct (Z.leb_spec (Z.lor c (Z.shiftl d 8)) 0); simpl; [reflexivity|].
  destruct (Z.gtb_spec (pos + 2 + 2 + Z.lor c (Z.shiftl d 8)) (len data));
    [reflexivity|].
  rewrite (slice_checked_ok data (pos + 2 + 2)
             (pos + 2 + 2 + Z.lor c (Z.shiftl d 8))) by lia.
  rewrite bind_Ok. apply IH. lia.
Qed.

Lemma _parse_py_indexes_scel_checked_eq (py_bytes : bytes)
    (t : gmap Z (list Z)) :
  _parse_py_indexes_scel_checked py_bytes t = _parse_py_indexes_scel py_bytes t.
Proof.
  unfold _parse_py_indexes_scel_checked, _parse_py_indexes_scel.
  destruct (Z.eqb_spec (len py_bytes mod 2) 1) as [Hodd|]; [|reflexivity].
  assert (Hl : 1 <= len py_bytes).
  { pose proof (len_nonneg py_bytes).
    destruct (Z.eq_dec (len py_bytes) 0) as [E|]; [rewrite E in Hodd; discriminate|lia]. }
  unfold slice_checked.
  change (0 <? 0) with false. change (-1 <? 0) with true. cbv iota.
  destruct (Z.leb_spec 0 0); [|lia].
  destruct (Z.leb_spec 0 (-1 + len py_bytes)); [|lia].
  destruct (Z.leb_spec (-1 + len py_bytes) (len py_bytes)); [|lia].
  reflexivity.
Qed.

Lemma scel_freq_checked_eq (ext : bytes) :
  scel_freq_checked ext = Ok (scel_freq ext).
Proof.
  unfold scel_freq_checked, scel_freq.
  destruct (Z.geb_spec (len ext) 2); [|reflexivity].
  rewrite slice_checked_ok by lia. reflexivity.
Qed.

Lemma scel_words_checked_eq (data : bytes) (py_list : list str) (k : nat) :
  forall pos out, 0 <= pos ->
  scel_words_checked k data py_list pos out = scel_words k data py_list pos out.
Proof.
  induction k as [|k IH]; intros pos out Hpos; simpl; [reflexivity|].
  destruct (Z.ltb_spec (len data - pos) 2); [reflexivity|].
  rewrite !_u16le_mem_eq.
  destruct (_u16le_cases data pos Hpos) as [[? _]|(_ & wlen & E & Hw)]; [lia|].
  rewrite !E. simpl.
  destruct (Z.leb_spec wlen 0); simpl; [reflexivity|].
  destruct (Z.ltb_spec (len data - (pos + 2)) wlen); [reflexivity|].
  rewrite (slice_checked_ok data (pos + 2) (pos + 2 + wlen)) by lia.
  rewrite bind_Ok.
  destruct (Z.ltb_spec (len data - (pos + 2 + wlen)) 2); [reflexivity|].
  rewrite !_u16le_mem_eq.
  destruct (_u16le_cases data (pos + 2 + wlen)) as [[? _]|(_ & elen & E' & He)];
    [lia|lia|].
  rewrite !E'. simpl.
  destruct (Z.ltb_spec elen 0); simpl; [reflexivity|].
  destruct (Z.ltb_spec (len data - (pos + 2 + wlen + 2)) elen); [reflexivity|].
  rewrite (slice_checked_ok data (pos + 2 + wlen + 2) (pos + 2 + wlen + 2 + elen))
    by lia.
  rewrite bind_Ok, scel_freq_checked_eq, bind_Ok.
  apply IH. lia.
Qed.

Lemma scel_group_checked_eq (data : bytes) (t : gmap Z (list Z)) (pos : Z)
    (out : list Entry) :
  0 <= pos -> scel_group_checked data t pos out = scel_group data t pos out.
Proof.
  intros Hpos. unfold scel_group_checked, scel_group. rewrite !_u16le_mem_eq.
  destruct (_u16le_cases data pos Hpos) as [[_ E]|(_ & same & E & Hs)];
    rewrite !E; simpl; [reflexivity|].
  rewrite !_u16le_mem_eq.
  destruct (_u16le_cases data (pos + 2)) as [[_ E2]|(_ & pl & E2 & Hpl)];
    [lia| |]; rewrite !E2; simpl; [reflexivity|].
  destruct (Z.leb_spec pl 0); simpl; [reflexivity|].
  destruct (Z.ltb_spec (len data - (pos + 2 + 2)) pl); [reflexivity|].
  rewrite (slice_checked_ok data (pos + 2 + 2) (pos + 2 + 2 + pl)) by lia.
  rewrite bind_Ok, _parse_py_indexes_scel_checked_eq.
  rewrite _parse_py_indexes_scel_spec, !bind_Ok.
  rewrite scel_words_checked_eq by lia. reflexivity.
Qed.

Lemma scel_loop_checked_eq (data : bytes) (t : gmap Z (list Z)) (fuel : nat) :
  forall pos out, 0 <= pos ->
  scel_loop_checked fuel data t pos out = scel_loop fuel data t pos out.
Proof.
  induction fuel as [|fuel IH]; intros pos out Hpos; simpl; [reflexivity|].
  destruct (len data - pos >? 8); [|reflexivity].
  rewrite (scel_group_checked_eq data t pos out Hpos).
  destruct (scel_group_ok data t pos out Hpos) as (r & Hr & Hb).
  rewrite Hr. simpl. destruct r as [[pos' out']|]; [|reflexivity].
  apply IH. lia.
Qed.

Lemma parse_scel_checked_eq (data : bytes) (start_py start_chinese : Z) :
  0 <= start_py -> 0 <= start_chinese ->
  parse_scel_checked data start_py start_chinese
  = parse_scel data start_py start_chinese.
Proof.
  intros Hp Hc. unfold parse_scel_checked, parse_scel.
  unfold _read_pinyin_table_scel_checked, _read_pinyin_table_scel.
  rewrite pinyin_table_loop_checked_eq by lia.
  destruct (pinyin_table_loop (length data) data start_chinese (start_py + 4) ∅)
    as [t|]; simpl; [|reflexivity].
  apply scel_loop_checked_eq. exact Hc.
Qed.




(** C6.  For entries with integer frequencies, the merge has one item per
    distinct exact word, in the order of first appearance, and the item
    of a word holds the pinyin and the frequency of the earliest entry of
    maximal frequency among those with that word: every earlier entry of
    the word has a strictly lower frequency, every later one a lower or
    equal one. *)
Theorem rime_best_correct (es : list Entry) :
  Forall (fun e => is_Some (freq e)) es ->
  map fst (rime_best es) = first_occurrences (map word es) /\
  NoDup (map fst (rime_best es)) /\
  rime_lines es = map rime_line (rime_best es) /\
  forall w, w ∈ map word es ->
    exists l1 e l2 f,
      es = l1 ++ e :: l2 /\ word e = w /\ freq e = Some f /\
      (forall e', e' ∈ l1 -> word e' = w ->
                  exists g, freq e' = Some g /\ g < f) /\
      (forall e', e' ∈ l2 -> word e' = w ->
                  exists g, freq e' = Some g /\ g <= f) /\
      dict_get (rime_best es) w = Some (pinyin e, f).
Proof.
  intros Hall. split; [apply rime_best_keys|].
  split; [rewrite rime_best_keys; apply first_occurrences_NoDup|].
  split; [reflexivity|].
  intros w Hw.
  destruct (earliest_max_exists es w Hall Hw)
    as (l1 & e & l2 & f & -> & He & Hf & H1 & H2).
  exists l1, e, l2, f. repeat split; try assumption.
  rewrite <- He. apply rime_best_winner; [exact Hf| |]; rewrite He; assumption.
Qed.

Lemma rime_best_correct_witness :
  map fst (rime_best [mkEntry (py "b") [py "x"] (Some 2);
                      mkEntry (py "a") [py "y"] (Some 3);
                      mkEntry (py "b") [py "z"] (Some 7);
                      mkEntry (py "b") [py "u"] (Some 7)])
  = [py "b"; py "a"].
Proof.
  apply (rime_best_correct [mkEntry (py "b") [py "x"] (Some 2);
                            mkEntry (py "a") [py "y"] (Some 3);
                            mkEntry (py "b") [py "z"] (Some 7);
                            mkEntry (py "b") [py "u"] (Some 7)]).
  repeat constructor; eexists; reflexivity.
Defined.

(** C7.  The word list is the list of the trimmed, non-empty words of the
    entries in the order of their first occurrence; it has no duplicate,
    holds exactly the non-empty trimmed words, every word in it is its
    own trimmed form, and running the reducer again on its own output
    changes nothing.  Trimming is taking away the white space at the two
    ends and nothing else: the trimmed form of a text is the one text that
    sits in it between two runs of white space and neither starts nor ends
    with white space; so a word is in the list exactly when it is not
    empty and is some entry's word without the white space around it, and
    no word of the list starts or ends with white space.  Space, tab,
    line feed, carriage return and U+3000 are trimmed; white space inside
    a word and U+200B, which is not white space, stay. *)
Theorem uniq_stable_words_correct (es : list Entry) :
  _uniq_stable_words es
    = first_occurrences
        (filter (fun w => w <> []) (map (fun e => strip (word e)) es)) /\
  NoDup (_uniq_stable_words es) /\
  (forall w, w ∈ _uniq_stable_words es <->
             w <> [] /\ exists e, e ∈ es /\ strip (word e) = w) /\
  (forall w, w ∈ _uniq_stable_words es -> strip w = w) /\
  _uniq_stable_words (map (fun w => mkEntry w [] None) (_uniq_stable_words es))
    = _uniq_stable_words es /\
  (forall s w, strip s = w <-> trimmed_of s w) /\
  (forall w, w ∈ _uniq_stable_words es <->
             w <> [] /\ exists e, e ∈ es /\ trimmed_of (word e) w) /\
  (forall w, w ∈ _uniq_stable_words es -> no_space_at_ends w) /\
  _uniq_stable_words
    (map (fun w => mkEntry w [] None)
       [[32; 97]; [97; 9]; [10; 32; 12288]; [98; 32; 99]; [97]; [8203];
        [12288; 98; 32; 99; 13]])
    = [[97]; [98; 32; 99]; [8203]].
Proof.
  split; [apply _uniq_stable_words_spec|].
  split; [apply _uniq_stable_words_NoDup|].
  split; [apply _uniq_stable_words_elem|].
  split.
  { intros w Hw. apply _uniq_stable_words_elem in Hw as [_ (e & _ & <-)].
    apply strip_idempotent. }
  split; [apply _uniq_stable_words_again|].
  split; [apply strip_trimmed_of|].
  split.
  { intros w. rewrite _uniq_stable_words_elem. split.
    - intros [Hne (e & He & Hs)]. split; [exact Hne|]. exists e.
      split; [exact He|]. apply strip_trimmed_of. exact Hs.
    - intros [Hne (e & He & Hs)]. split; [exact Hne|]. exists e.
      split; [exact He|]. apply strip_trimmed_of. exact Hs. }
  split.
  { intros w Hw. apply _uniq_stable_words_elem in Hw as [_ (e & _ & <-)].
    apply strip_ends. }
  rewrite _uniq_stable_words_spec. vm_compute. reflexivity.
Qed.

(** C8.  The index bytes of a group are read as 16-bit little-endian
    indices, a dangling last byte discarded, each resolved against the
    table with the empty lookups left out; every entry a group appends
    carries that list; and with a table that maps 5 to "ni" and 9 to
    "hao", a group with [same = 1], index bytes [05 00 09 00], a word of
    two UTF-16LE characters and extension bytes [0A 00] yields one entry
    with pinyin ["ni"; "hao"] and freq 10. *)
Theorem scel_group_pinyin (pre tl : bytes) (w0 w1 w2 w3 : byte)
    (t : gmap Z (list Z)) (start_py : Z) :
  let data := pre ++ le16 1 ++ le16 4 ++ bytes_of [5; 0; 9; 0] ++
              le16 4 ++ [w0; w1; w2; w3] ++ le16 2 ++ bytes_of [10; 0] ++ tl in
  let c0 := u16 (byte_to_Z w0) (byte_to_Z w1) in
  let c1 := u16 (byte_to_Z w2) (byte_to_Z w3) in
  _read_pinyin_table_scel data start_py (len pre) = Ok t ->
  t !! 5 = Some (py "ni") -> t !! 9 = Some (py "hao") ->
  is_high_surrogate c0 = false -> is_low_surrogate c0 = false ->
  is_high_surrogate c1 = false -> is_low_surrogate c1 = false ->
  len tl <= 8 ->
  (forall py_bytes t',
      _parse_py_indexes_scel py_bytes t'
      = Ok (resolve_pinyin t' (u16_indices py_bytes))) /\
  (forall d t' pos pos' out out',
      0 <= pos -> scel_group d t' pos out = Ok (Some (pos', out')) ->
      exists same py_idx_len new,
        _u16le_mem d pos = Ok (same, pos + 2) /\
        _u16le_mem d (pos + 2) = Ok (py_idx_len, pos + 2 + 2) /\
        out' = out ++ new /\
        Forall (fun e => pinyin e =
                  resolve_pinyin t'
                    (u16_indices (slice d (pos + 2 + 2) (pos + 2 + 2 + py_idx_len))))
               new) /\
  parse_scel data start_py (len pre)
    = Ok [mkEntry [c0; c1] [py "ni"; py "hao"] (Some 10)].
Proof.
  intros data c0 c1 Ht H5 H9 Hh0 Hl0 Hh1 Hl1 Htl.
  split; [exact _parse_py_indexes_scel_spec|].
  split; [exact scel_group_shared|].
  assert (H : parse_scel data start_py (len pre)
              = Ok [mkEntry (decode_utf16le [w0; w1; w2; w3])
                            (group_pinyin (bytes_of [5; 0; 9; 0]) t)
                            (Some (scel_freq (bytes_of [10; 0])))]).
  { apply (parse_scel_one_word pre (bytes_of [5; 0; 9; 0]) [w0; w1; w2; w3]
             (bytes_of [10; 0]) tl t start_py);
      [exact Ht|vm_compute; split; reflexivity|vm_compute; split; reflexivity
      |vm_compute; reflexivity|exact Htl]. }
  rewrite H. unfold group_pinyin. simpl u16_indices.
  rewrite !resolve_pinyin_cons.
  change (u16 (byte_to_Z (byte_of_Z 5)) (byte_to_Z (byte_of_Z 0))) with 5.
  change (u16 (byte_to_Z (byte_of_Z 9)) (byte_to_Z (byte_of_Z 0))) with 9.
  rewrite H5, H9.
  rewrite decode_utf16le_unit by assumption.
  rewrite decode_utf16le_unit by assumption.
  reflexivity.
Qed.

Lemma scel_group_pinyin_witness :
  _read_pinyin_table_scel scel_nihao_buffer 0 22
    = Ok (<[9 := py "hao"]> (<[5 := py "ni"]> ∅)) /\
  parse_scel scel_nihao_buffer 0 22
    = Ok [mkEntry [0x4f60; 0x597d] [py "ni"; py "hao"] (Some 10)].
Proof.
  split; [vm_compute; reflexivity|].
  apply (scel_group_pinyin
           (bytes_of [0; 0; 0; 0; 5; 0; 4; 0; 110; 0; 105; 0;
                      9; 0; 6; 0; 104; 0; 97; 0; 111; 0])
           [] x60 x4f x7d x59 (<[9 := py "hao"]> (<[5 := py "ni"]> ∅)) 0);
    vm_compute; (reflexivity || discriminate).
Defined.

(** C9.  A 16-bit read raises [EOFError], and nothing else, when fewer
    than 2 bytes remain, and otherwise returns a 16-bit value and the
    offset advanced by 2; and on every buffer both decoders return a list
    of entries: no byte access raises [IndexError], no [EOFError] goes
    uncaught, and the fuel given to the loops is never used up.  Every
    slice lies within the sequence it is taken from: with each slice of
    the decoders turned into an access that raises [IndexError] when its
    bounds would have to be clamped, the table reader and both decoders
    return what they return as they are. *)
Theorem decoders_never_read_past_end (data : bytes)
    (off start_offset start_py start_chinese : Z) :
  0 <= off -> 0 <= start_offset -> 0 <= start_py -> 0 <= start_chinese ->
  (len data - off < 2 ->
     _u16le data off = Raise EOFError /\ _u16le_mem data off = Raise EOFError) /\
  (2 <= len data - off ->
     exists v, 0 <= v < 65536 /\
       _u16le data off = Ok (v, off + 2) /\
       _u16le_mem data off = Ok (v, off + 2)) /\
  (exists t, _read_pinyin_table_scel data start_py start_chinese = Ok t) /\
  (exists r, parse_baidu data start_offset = Ok r) /\
  (exists r, parse_scel data start_py start_chinese = Ok r) /\
  parse_baidu_checked data start_offset = parse_baidu data start_offset /\
  _read_pinyin_table_scel_checked data start_py start_chinese
    = _read_pinyin_table_scel data start_py start_chinese /\
  parse_scel_checked data start_py start_chinese
    = parse_scel data start_py start_chinese.
Proof.
  intros Hoff Hb Hp Hc.
  split; [|split; [|split; [|split; [|split; [|split; [|split]]]]]].
  - intros Hlt. rewrite _u16le_mem_eq.
    destruct (_u16le_cases data off Hoff) as [[_ E]|[Hle _]]; [auto|lia].
  - intros Hge. rewrite _u16le_mem_eq.
    destruct (_u16le_cases data off Hoff) as [[Hlt _]|(_ & v & E & Hv)]; [lia|].
    exists v. auto.
  - apply _read_pinyin_table_scel_ok. exact Hp.
  - apply parse_baidu_ok. exact Hb.
  - apply parse_scel_ok; assumption.
  - apply baidu_loop_checked_eq. exact Hb.
  - apply pinyin_table_loop_checked_eq. lia.
  - apply parse_scel_checked_eq; assumption.
Qed.

Lemma decoders_never_read_past_end_witness :
  ((exists r, parse_baidu scel_resume_buffer 3 = Ok r) /\
   (exists r, parse_scel scel_resume_buffer 1 2 = Ok r)) /\
  (parse_baidu_checked baidu_short_word_buffer 0 = Ok [] /\
   parse_scel_checked scel_resume_buffer 0 0 = Ok [mkEntry [0x61] [] (Some 0)]).
Proof.
  split.
  - destruct (decoders_never_read_past_end scel_resume_buffer 19 3 1 2)
      as (_ & _ & _ & Hb & Hs & _); try lia.
    split; assumption.
  - destruct (decoders_never_read_past_end scel_resume_buffer 0 0 0 0)
      as (_ & _ & _ & _ & _ & _ & _ & Hs); try lia.
    destruct (decoders_never_read_past_end baidu_short_word_buffer 0 0 0 0)
      as (_ & _ & _ & _ & _ & Hbd & _); try lia.
    split; [rewrite Hbd|rewrite Hs]; vm_compute; reflexivity.
Defined.

(** C10.  An entry whose word is empty or all white space is left out of
    the word list: its word is not in the list, the list is what it is
    without that entry, and the list holds no empty and no blank word.
    The merge, keyed on the exact word, has an item for every entry, and
    the text written holds that item's line: the exact word, a tab, the
    pinyin joined by spaces, a tab, the frequency, a line feed.  So two
    entries whose words differ but are the same once the white space
    around them is taken away give one word of the word list, at a single
    position, and two items of the merge, at two positions, each with its
    own line. *)
Theorem blank_words_word_list_vs_merge (es : list Entry) :
  (forall l1 l2 e, blank (word e) ->
     _uniq_stable_words (l1 ++ e :: l2) = _uniq_stable_words (l1 ++ l2)) /\
  (forall e, e ∈ es -> blank (word e) -> word e ∉ _uniq_stable_words es) /\
  ([] ∉ _uniq_stable_words es) /\
  (forall w, w ∈ _uniq_stable_words es -> ~ blank w) /\
  (forall e, e ∈ es ->
     exists i p f,
       let line := word e ++ TAB ++ (if truthy p then join (py " ") p else [])
                     ++ TAB ++ str_of_int f ++ NL in
       rime_best es !! i = Some (word e, (p, f)) /\
       rime_lines es !! i = Some line /\
       forall name, exists before after,
         write_rime_yaml es name = before ++ line ++ after) /\
  (forall e1 e2 w,
     e1 ∈ es -> e2 ∈ es -> word e1 <> word e2 -> w <> [] ->
     trimmed_of (word e1) w -> trimmed_of (word e2) w ->
     (exists i, _uniq_stable_words es !! i = Some w /\
                forall j, _uniq_stable_words es !! j = Some w -> j = i) /\
     (exists i j p1 f1 p2 f2,
        i <> j /\
        rime_best es !! i = Some (word e1, (p1, f1)) /\
        rime_best es !! j = Some (word e2, (p2, f2)) /\
        rime_lines es !! i
          = Some (word e1 ++ TAB ++ (if truthy p1 then join (py " ") p1 else [])
                    ++ TAB ++ str_of_int f1 ++ NL) /\
        rime_lines es !! j
          = Some (word e2 ++ TAB ++ (if truthy p2 then join (py " ") p2 else [])
                    ++ TAB ++ str_of_int f2 ++ NL))).
Proof.
  split.
  { intros l1 l2 e Hb. apply _uniq_stable_words_blank. apply strip_blank. exact Hb. }
  split.
  { intros e _ Hb Hin. apply strip_blank in Hb.
    apply _uniq_stable_words_elem in Hin as [Hne (e' & _ & Hs)].
    apply Hne. rewrite <- Hb, <- Hs. symmetry. apply strip_idempotent. }
  split.
  { intros Hin. apply _uniq_stable_words_elem in Hin as [Hn _]. congruence. }
  split.
  { intros w Hin Hb. apply strip_blank in Hb.
    apply _uniq_stable_words_elem in Hin as [Hne (e' & _ & Hs)].
    apply Hne. rewrite <- Hb, <- Hs. symmetry. apply strip_idempotent. }
  split.
  { intros e He.
    destruct (rime_best_has_word es e He) as (i & [p f] & Hi & _ & Hl).
    exists i, p, f. cbv zeta. split; [exact Hi|]. split; [exact Hl|].
    intros name. apply rime_lines_in_text.
    apply (list_elem_of_lookup_2 _ i). exact Hl. }
  intros e1 e2 w H1 H2 Hne Hnb Ht1 Ht2.
  apply strip_trimmed_of in Ht1, Ht2.
  split.
  - assert (Hin : w ∈ _uniq_stable_words es).
    { apply _uniq_stable_words_elem. split; [exact Hnb|]. exists e1. auto. }
    apply list_elem_of_lookup in Hin as [i Hi]. exists i. split; [exact Hi|].
    intros j Hj.
    apply (NoDup_lookup _ j i _ (_uniq_stable_words_NoDup es) Hj Hi).
  - destruct (rime_best_has_word es e1 H1) as (i & [p1 f1] & Hi & _ & Hli).
    destruct (rime_best_has_word es e2 H2) as (j & [p2 f2] & Hj & _ & Hlj).
    exists i, j, p1, f1, p2, f2. repeat split; try assumption.
    intros ->. rewrite Hi in Hj. congruence.
Qed.

Lemma blank_words_word_list_vs_merge_witness :
  _uniq_stable_words [mkEntry (py " a ") [] (Some 1); mkEntry (py "a") [] (Some 1);
                      mkEntry (py "  ") [py "x"; py "y"] (Some 7)] = [py "a"] /\
  (exists before after,
     write_rime_yaml [mkEntry (py " a ") [] (Some 1); mkEntry (py "a") [] (Some 1);
                      mkEntry (py "  ") [py "x"; py "y"] (Some 7)] (py "n")
     = before ++ py "  " ++ TAB ++ py "x y" ++ TAB ++ py "7" ++ NL ++ after) /\
  exists i j p1 f1 p2 f2,
    i <> j /\
    rime_best [mkEntry (py " a ") [] (Some 1); mkEntry (py "a") [] (Some 1);
               mkEntry (py "  ") [py "x"; py "y"] (Some 7)] !! i
      = Some (py " a ", (p1, f1)) /\
    rime_best [mkEntry (py " a ") [] (Some 1); mkEntry (py "a") [] (Some 1);
               mkEntry (py "  ") [py "x"; py "y"] (Some 7)] !! j
      = Some (py "a", (p2, f2)).
Proof.
  destruct (blank_words_word_list_vs_merge
              [mkEntry (py " a ") [] (Some 1); mkEntry (py "a") [] (Some 1);
               mkEntry (py "  ") [py "x"; py "y"] (Some 7)])
    as (_ & _ & _ & _ & Hline & Hpair).
  split; [vm_compute; reflexivity|]. split.
  - destruct (Hline (mkEntry (py "  ") [py "x"; py "y"] (Some 7)))
      as (i & p & f & Hi & _ & Htext); [right; right; left|].
    destruct i as [|[|[|i]]]; vm_compute in Hi; try discriminate.
    injection Hi as <- <-. exact (Htext (py "n")).
  - destruct (Hpair (mkEntry (py " a ") [] (Some 1)) (mkEntry (py "a") [] (Some 1))
                (py "a"))
      as (_ & i & j & p1 & f1 & p2 & f2 & Hij & Hi & Hj & _).
    + left.
    + right. left.
    + vm_compute. discriminate.
    + vm_compute. discriminate.
    + exists [32], [32]. vm_compute. repeat split; repeat constructor.
    + exists [], []. vm_compute. repeat split; repeat constructor.
    + exists i, j, p1, f1, p2, f2. auto.
Defined.

(** * Further properties of the decoders and the reducers *)

(** ** The three record shapes of the Baidu decoder *)

Lemma getitem_lookup {A} (l : list A) (i : Z) (x : A) :
  0 <= i -> l !! Z.to_nat i = Some x -> getitem l i = Ok x.
Proof. intros Hi Hx. rewrite getitem_nonneg by exact Hi. rewrite Hx. reflexivity. Qed.

Lemma len_pair_bytes (ps : list (byte * byte)) : len (pair_bytes ps) = 2 * len ps.
Proof.
  induction ps as [|p ps IH]; [reflexivity|].
  unfold pair_bytes in *. simpl. rewrite !len_cons, IH. lia.
Qed.

Ltac len_norm :=
  repeat first [rewrite len_app | rewrite len_le16 | rewrite len_cons
               | rewrite len_nil | rewrite len_pair_bytes].

Lemma baidu_syllables_pairs (data rest : bytes) (ps : list (byte * byte)) :
  forall (pre : bytes) (acc : list str),
  data = pre ++ pair_bytes ps ++ rest -> Forall valid_pair ps ->
  baidu_syllables (length ps) data (len pre) acc
  = Ok (Some (len pre + 2 * len ps, acc ++ map syllable ps)).
Proof.
  induction ps as [|[a b] ps IH]; intros pre acc Hdata Hv; simpl.
  - rewrite app_nil_r. do 3 f_equal. unfold len. simpl. lia.
  - apply Forall_cons in Hv as [Hp Hv].
    pose proof (len_nonneg pre) as Hpre.
    pose proof (len_nonneg ps) as Hps. pose proof (len_nonneg rest) as Hrest.
    assert (Hd : data = pre ++ a :: b :: pair_bytes ps ++ rest) by exact Hdata.
    assert (Hlen : len data = len pre + 2 + 2 * len ps + len rest).
    { rewrite Hd. len_norm. lia. }
    destruct (Z.ltb_spec (len data - len pre) 2); [lia|].
    rewrite (byte_at_at data pre (b :: pair_bytes ps ++ rest) a (len pre))
      by (assumption || reflexivity).
    rewrite (byte_at_at data (pre ++ [a]) (pair_bytes ps ++ rest) b (len pre + 1))
      by (rewrite ?Hd, <- ?app_assoc; len_norm; reflexivity || lia).
    simpl.
    assert (Hrec : forall acc', baidu_syllables (length ps) data (len pre + 2) acc'
              = Ok (Some (len pre + 2 * len ((a, b) :: ps), acc' ++ map syllable ps))).
    { intros acc'.
      replace (len pre + 2) with (len (pre ++ [a; b])) by (len_norm; lia).
      rewrite (IH (pre ++ [a; b]) acc');
        [|rewrite Hd, <- app_assoc; reflexivity|exact Hv].
      do 3 f_equal. len_norm. lia. }
    unfold syllable at 1. simpl fst. simpl snd.
    destruct (Z.eqb_spec (byte_to_Z a) 255) as [E|E].
    + rewrite Hrec, <- app_assoc. reflexivity.
    + destruct Hp as [Hp|[Hsm Hym]]; [simpl in Hp; contradiction|].
      simpl in Hsm, Hym.
      pose proof (byte_to_Z_range a) as Ra. pose proof (byte_to_Z_range b) as Rb.
      destruct (Z.geb_spec (byte_to_Z a) (len BDICT_SM)); [lia|].
      destruct (Z.geb_spec (byte_to_Z b) (len BDICT_YM)); [lia|]. simpl.
      destruct (lookup_lt_is_Some_2 BDICT_SM (Z.to_nat (byte_to_Z a))) as [s Hs].
      { unfold len in Hsm. lia. }
      destruct (lookup_lt_is_Some_2 BDICT_YM (Z.to_nat (byte_to_Z b))) as [y Hy].
      { unfold len in Hym. lia. }
      rewrite (getitem_lookup BDICT_SM (byte_to_Z a) s) by (lia || assumption).
      rewrite (getitem_lookup BDICT_YM (byte_to_Z b) y) by (lia || assumption).
      simpl. rewrite Hs, Hy. simpl.
      rewrite Hrec, <- app_assoc. reflexivity.
Qed.

Ltac at_pos :=
  first [ reflexivity
        | assumption
        | (subst; rewrite <- ?app_assoc; reflexivity)
        | (len_norm; lia)
        | lia ].

(** A compound record: the header, two zero bytes, the word length, the
    code and the word. *)
Lemma baidu_record_compound (pre code wordb rest : bytes) (py_len word_len fr : Z) :
  0 <= fr < 65536 -> 0 <= py_len < 65536 -> 0 <= word_len < 65536 ->
  len code = 2 * py_len -> len wordb = 2 * word_len ->
  baidu_record (pre ++ le16 py_len ++ le16 fr ++ [x00; x00] ++ le16 word_len ++
                code ++ wordb ++ rest) (len pre)
  = Ok (Some (len pre + 8 + 2 * py_len + 2 * word_len,
              mkEntry (decode_utf16le wordb) [decode_utf16le code] (Some fr))).
Proof.
  intros Hfr Hpy Hwl Hc Hw.
  set (data := pre ++ le16 py_len ++ le16 fr ++ [x00; x00] ++ le16 word_len ++
               code ++ wordb ++ rest).
  pose proof (len_nonneg pre). pose proof (len_nonneg rest).
  assert (Hlen : len data = len pre + 8 + len code + len wordb + len rest).
  { unfold data. len_norm. lia. }
  unfold baidu_record.
  rewrite (_u16le_at data pre (le16 fr ++ [x00; x00] ++ le16 word_len ++
             code ++ wordb ++ rest) py_len (len pre)) by at_pos.
  simpl.
  rewrite (_u16le_at data (pre ++ le16 py_len) ([x00; x00] ++ le16 word_len ++
             code ++ wordb ++ rest) fr (len pre + 2)) by at_pos.
  simpl.
  destruct (Z.ltb_spec (len data - (len pre + 2 + 2)) 2); [lia|].
  rewrite (byte_at_at data (pre ++ le16 py_len ++ le16 fr)
             (x00 :: le16 word_len ++ code ++ wordb ++ rest) x00
             (len pre + 2 + 2)) by at_pos.
  rewrite (byte_at_at data (pre ++ le16 py_len ++ le16 fr ++ [x00])
             (le16 word_len ++ code ++ wordb ++ rest) x00
             (len pre + 2 + 2 + 1)) by at_pos.
  simpl.
  rewrite (_u16le_at data (pre ++ le16 py_len ++ le16 fr ++ [x00; x00])
             (code ++ wordb ++ rest) word_len (len pre + 2 + 2 + 2)) by at_pos.
  simpl.
  destruct (Z.ltb_spec (len data - (len pre + 2 + 2 + 2 + 2))
                       (py_len * 2 + word_len * 2)); [lia|].
  rewrite (slice_at data (pre ++ le16 py_len ++ le16 fr ++ [x00; x00] ++ le16 word_len)
             code (wordb ++ rest) (len pre + 2 + 2 + 2 + 2)
             (len pre + 2 + 2 + 2 + 2 + py_len * 2)) by at_pos.
  rewrite (slice_at data (pre ++ le16 py_len ++ le16 fr ++ [x00; x00] ++
                          le16 word_len ++ code) wordb rest
             (len pre + 2 + 2 + 2 + 2 + py_len * 2)
             (len pre + 2 + 2 + 2 + 2 + py_len * 2 + word_len * 2)) by at_pos.
  do 3 f_equal. lia.
Qed.

(** An English record: the header, one marker byte that is no initial
    index, and the text. *)
Lemma baidu_record_english (pre text rest : bytes) (marker : byte) (fr : Z) :
  0 <= fr < 65536 -> len text < 65536 ->
  len BDICT_SM <= byte_to_Z marker -> byte_to_Z marker <> 0xFF ->
  0 < len text + len rest ->
  baidu_record (pre ++ le16 (len text) ++ le16 fr ++ [marker] ++ text ++ rest)
               (len pre)
  = Ok (Some (len pre + 5 + len text,
              mkEntry (decode_ascii text) [decode_ascii text] (Some fr))).
Proof.
  intros Hfr Ht Hm Hff Hne.
  set (data := pre ++ le16 (len text) ++ le16 fr ++ [marker] ++ text ++ rest).
  pose proof (len_nonneg pre). pose proof (len_nonneg rest).
  pose proof (len_nonneg text).
  assert (Hlen : len data = len pre + 5 + len text + len rest).
  { unfold data. len_norm. lia. }
  unfold baidu_record.
  rewrite (_u16le_at data pre (le16 fr ++ [marker] ++ text ++ rest)
             (len text) (len pre)) by at_pos.
  simpl.
  rewrite (_u16le_at data (pre ++ le16 (len text)) ([marker] ++ text ++ rest)
             fr (len pre + 2)) by at_pos.
  simpl.
  destruct (Z.ltb_spec (len data - (len pre + 2 + 2)) 2); [lia|].
  rewrite (byte_at_at data (pre ++ le16 (len text) ++ le16 fr) (text ++ rest)
             marker (len pre + 2 + 2)) by at_pos.
  destruct (byte_at_in_range data (len pre + 2 + 2 + 1)) as (p1 & Hp1 & _); [lia|].
  rewrite Hp1. simpl.
  assert (Hz : (byte_to_Z marker =? 0) = false).
  { apply Z.eqb_neq. change (len BDICT_SM) with 24 in Hm. lia. }
  rewrite Hz. simpl.
  destruct (Z.geb_spec (byte_to_Z marker) (len BDICT_SM)); [|lia].
  destruct (Z.eqb_spec (byte_to_Z marker) 255); [contradiction|]. simpl.
  destruct (Z.ltb_spec (len data - (len pre + 2 + 2 + 1)) (len text)); [lia|].
  rewrite (slice_at data (pre ++ le16 (len text) ++ le16 fr ++ [marker]) text rest)
    by at_pos.
  do 3 f_equal. lia.
Qed.

(** A standard record: the header, the syllable pairs and the word, which
    has as many code units as there are syllables. *)
Lemma baidu_record_standard_pairs (pre wordb rest : bytes)
    (ps : list (byte * byte)) (fr : Z) :
  0 <= fr < 65536 -> 0 < len ps < 65536 ->
  Forall valid_pair ps -> head ps <> Some (x00, x00) ->
  len wordb = 2 * len ps ->
  baidu_record (pre ++ le16 (len ps) ++ le16 fr ++ pair_bytes ps ++ wordb ++ rest)
               (len pre)
  = Ok (Some (len pre + 4 + 4 * len ps,
              mkEntry (decode_utf16le wordb) (map syllable ps) (Some fr))).
Proof.
  intros Hfr Hk Hv Hhd Hw.
  set (data := pre ++ le16 (len ps) ++ le16 fr ++ pair_bytes ps ++ wordb ++ rest).
  pose proof (len_nonneg pre). pose proof (len_nonneg rest).
  assert (Hlen : len data = len pre + 4 + 2 * len ps + len wordb + len rest).
  { unfold data. len_norm. lia. }
  destruct ps as [|[a b] ps]; [unfold len in Hk; simpl in Hk; lia|].
  pose proof (len_cons (a, b) ps) as Hcons. pose proof (len_nonneg ps) as Hps.
  assert (Hstd : standard_record_at data (len pre) (len ((a, b) :: ps)) fr).
  { exists (byte_to_Z a), (byte_to_Z b). repeat split.
    - apply (_u16le_at data pre (le16 fr ++ pair_bytes ((a, b) :: ps) ++ wordb ++ rest));
        at_pos.
    - replace (len pre + 4) with (len pre + 2 + 2) by lia.
      apply (_u16le_at data (pre ++ le16 (len ((a, b) :: ps)))
               (pair_bytes ((a, b) :: ps) ++ wordb ++ rest)); at_pos.
    - apply (byte_at_at data (pre ++ le16 (len ((a, b) :: ps)) ++ le16 fr)
               (b :: pair_bytes ps ++ wordb ++ rest) a); at_pos.
    - apply (byte_at_at data (pre ++ le16 (len ((a, b) :: ps)) ++ le16 fr ++ [a])
               (pair_bytes ps ++ wordb ++ rest) b); at_pos.
    - intros [Ha Hb]. apply Hhd. simpl.
      assert (Ea : a = x00).
      { apply (f_equal Z.to_N) in Ha. unfold byte_to_Z in Ha.
        rewrite N2Z.id in Ha. apply (f_equal Byte.of_N) in Ha.
        rewrite Byte.of_to_N in Ha. simpl in Ha. congruence. }
      assert (Eb : b = x00).
      { apply (f_equal Z.to_N) in Hb. unfold byte_to_Z in Hb.
        rewrite N2Z.id in Hb. apply (f_equal Byte.of_N) in Hb.
        rewrite Byte.of_to_N in Hb. simpl in Hb. congruence. }
      subst. reflexivity.
    - apply Forall_cons in Hv as [[Hp|[Hsm _]] _]; simpl in *; [right|left];
        assumption. }
  rewrite (baidu_record_standard _ _ _ _ Hstd).
  replace (Z.to_nat (len ((a, b) :: ps))) with (length ((a, b) :: ps))
    by (unfold len; lia).
  replace (len pre + 4) with (len (pre ++ le16 (len ((a, b) :: ps)) ++ le16 fr))
    by (len_norm; lia).
  rewrite (baidu_syllables_pairs data (wordb ++ rest) ((a, b) :: ps)
             (pre ++ le16 (len ((a, b) :: ps)) ++ le16 fr) []);
    [|unfold data; rewrite <- ?app_assoc; reflexivity|exact Hv].
  unfold mbind, result_bind. cbv beta iota.
  match goal with
  | |- context [if ?c then _ else _] => destruct c eqn:Ec
  end.
  { apply Z.ltb_lt in Ec. revert Ec. len_norm. lia. }
  rewrite (slice_at data (pre ++ le16 (len ((a, b) :: ps)) ++ le16 fr ++
                          pair_bytes ((a, b) :: ps)) wordb rest);
    [|unfold data; rewrite <- ?app_assoc; reflexivity
     |len_norm; lia|len_norm; lia].
  do 3 f_equal. len_norm. lia.
Qed.

Lemma baidu_rec_decode (pre rest : bytes) (r : baidu_rec) :
  baidu_rec_wf r ->
  baidu_record (pre ++ encode_baidu_rec r ++ rest) (len pre)
  = Ok (Some (len pre + len (encode_baidu_rec r), baidu_rec_entry r)) /\
  4 < len (encode_baidu_rec r).
Proof.
  intros Hwf. destruct r as [fr code wordb|fr marker text|fr ps wordb];
    simpl in Hwf; unfold encode_baidu_rec, baidu_rec_entry.
  - destruct Hwf as (Hfr & Hc2 & Hc & Hw2 & Hw).
    pose proof (len_nonneg code). pose proof (len_nonneg wordb).
    assert (Ec : len code = 2 * (len code / 2)).
    { pose proof (Z.div_mod (len code) 2). lia. }
    assert (Ew : len wordb = 2 * (len wordb / 2)).
    { pose proof (Z.div_mod (len wordb) 2). lia. }
    split; [|len_norm; lia].
    rewrite <- !app_assoc.
    rewrite (baidu_record_compound pre code wordb rest (len code / 2)
               (len wordb / 2) fr); try assumption; try lia.
    do 3 f_equal. len_norm. lia.
  - destruct Hwf as (Hfr & Ht & Hm & Hff).
    pose proof (len_nonneg rest).
    split; [|len_norm; lia].
    rewrite <- !app_assoc.
    rewrite (baidu_record_english pre text rest marker fr); try assumption;
      try lia.
    do 3 f_equal. len_norm. lia.
  - destruct Hwf as (Hfr & Hk & Hv & Hhd & Hw).
    split; [|len_norm; lia].
    rewrite <- !app_assoc.
    rewrite (baidu_record_standard_pairs pre wordb rest ps fr); try assumption.
    do 3 f_equal. len_norm. lia.
Qed.

(** ** The pinyin table and the word groups of the Sogou decoder *)

Lemma len_encode_table_rec (r : Z * list byte) :
  len (encode_table_rec r) = 4 + len r.2.
Proof. unfold encode_table_rec. len_norm. lia. Qed.

(** One well-formed record that starts before the word area is added to
    the table. *)
Lemma pinyin_table_loop_step (pre tail : bytes) (r : Z * list byte)
    (t : gmap Z (list Z)) (fuel : nat) (start_chinese : Z) :
  table_rec_wf r -> len pre < start_chinese ->
  pinyin_table_loop (S fuel) (pre ++ encode_table_rec r ++ tail)
                    start_chinese (len pre) t
  = pinyin_table_loop fuel (pre ++ encode_table_rec r ++ tail) start_chinese
      (len pre + len (encode_table_rec r)) (<[r.1 := decode_utf16le r.2]> t).
Proof.
  destruct r as [i bs]. intros [Hi Hb] Hsc. simpl in Hi, Hb. simpl fst. simpl snd.
  set (data := pre ++ encode_table_rec (i, bs) ++ tail).
  pose proof (len_nonneg pre). pose proof (len_nonneg tail) as Htail.
  assert (Hlen : len data = len pre + 4 + len bs + len tail).
  { unfold data. rewrite !len_app, len_encode_table_rec. simpl. lia. }
  assert (Hd : data = pre ++ le16 i ++ le16 (len bs) ++ bs ++ tail).
  { unfold data, encode_table_rec. simpl fst. simpl snd.
    rewrite <- !app_assoc. reflexivity. }
  cbn [pinyin_table_loop].
  destruct (Z.leb_spec (len pre + 4) (len data)); [|lia].
  destruct (Z.ltb_spec (len pre) start_chinese); [|lia]. simpl andb. cbv iota.
  rewrite (byte_at_at data pre (byte_of_Z (i / 256) :: le16 (len bs) ++ bs ++ tail)
             (byte_of_Z i) (len pre)) by (exact Hd || reflexivity).
  rewrite (byte_at_at data (pre ++ [byte_of_Z i]) (le16 (len bs) ++ bs ++ tail)
             (byte_of_Z (i / 256)) (len pre + 1))
    by (rewrite ?Hd, <- ?app_assoc; len_norm; reflexivity || lia).
  unfold mbind at 1 2, result_bind. cbv beta iota.
  rewrite (u16_le16 i Hi).
  rewrite (byte_at_at data (pre ++ le16 i)
             (byte_of_Z (len bs / 256) :: bs ++ tail)
             (byte_of_Z (len bs)) (len pre + 2))
    by (rewrite ?Hd, <- ?app_assoc; len_norm; reflexivity || lia).
  rewrite (byte_at_at data (pre ++ le16 i ++ [byte_of_Z (len bs)]) (bs ++ tail)
             (byte_of_Z (len bs / 256)) (len pre + 2 + 1))
    by (rewrite ?Hd, <- ?app_assoc; len_norm; reflexivity || lia).
  unfold mbind, result_bind. cbv beta iota.
  rewrite (u16_le16 (len bs)) by lia.
  destruct (Z.leb_spec (len bs) 0); [lia|].
  destruct (Z.gtb_spec (len pre + 2 + 2 + len bs) (len data)); [lia|].
  simpl orb. cbv iota.
  rewrite (slice_at data (pre ++ le16 i ++ le16 (len bs)) bs tail
             (len pre + 2 + 2) (len pre + 2 + 2 + len bs))
    by (rewrite ?Hd, <- ?app_assoc; len_norm; reflexivity || lia).
  rewrite len_encode_table_rec. simpl snd.
  replace (len pre + 2 + 2 + len bs) with (len pre + (4 + len bs)) by lia.
  reflexivity.
Qed.

(** The loop over a run of well-formed records, each starting before the
    word area: it goes on after them with the table they build. *)
Lemma pinyin_table_loop_run (rest : bytes) (recs : list (Z * list byte)) :
  forall (pre : bytes) (t : gmap Z (list Z)) (fuel : nat) (start_chinese : Z),
  Forall table_rec_wf recs ->
  starts_before start_chinese (len pre) recs ->
  pinyin_table_loop (length recs + fuel)
    (pre ++ concat (map encode_table_rec recs) ++ rest) start_chinese (len pre) t
  = pinyin_table_loop fuel
      (pre ++ concat (map encode_table_rec recs) ++ rest) start_chinese
      (len pre + len (concat (map encode_table_rec recs)))
      (fold_left (fun t r => <[r.1 := decode_utf16le r.2]> t) recs t).
Proof.
  induction recs as [|r recs IH]; intros pre t fuel sc Hwf Hst.
  - simpl. rewrite len_nil, Z.add_0_r. reflexivity.
  - apply Forall_cons in Hwf as [Hr Hwf]. destruct Hst as [Hlt Hst].
    change (concat (map encode_table_rec (r :: recs)))
      with (encode_table_rec r ++ concat (map encode_table_rec recs)).
    rewrite <- app_assoc.
    change (length (r :: recs) + fuel)%nat with (S (length recs + fuel)).
    rewrite (pinyin_table_loop_step pre _ r t _ sc Hr Hlt).
    replace (len pre + len (encode_table_rec r))
      with (len (pre ++ encode_table_rec r)) in * by (rewrite len_app; reflexivity).
    rewrite (app_assoc pre).
    rewrite (IH (pre ++ encode_table_rec r) _ fuel sc Hwf Hst).
    simpl fold_left. rewrite !len_app. rewrite Z.add_assoc. reflexivity.
Qed.

Lemma starts_before_exact (recs : list (Z * list byte)) :
  forall pos, Forall table_rec_wf recs ->
  starts_before (pos + len (concat (map encode_table_rec recs))) pos recs.
Proof.
  induction recs as [|r recs IH]; intros pos Hwf; [exact I|].
  apply Forall_cons in Hwf as [[_ Hb] Hwf].
  pose proof (len_nonneg (concat (map encode_table_rec recs))).
  change (concat (map encode_table_rec (r :: recs)))
    with (encode_table_rec r ++ concat (map encode_table_rec recs)).
  cbn [starts_before].
  rewrite len_app, len_encode_table_rec. split; [lia|].
  replace (pos + (4 + len r.2 + len (concat (map encode_table_rec recs))))
    with (pos + (4 + len r.2) + len (concat (map encode_table_rec recs))) by lia.
  apply IH. exact Hwf.
Qed.

Lemma table_area_length (recs : list (Z * list byte)) :
  Forall table_rec_wf recs ->
  (length recs <= length (concat (map encode_table_rec recs)))%nat.
Proof.
  induction 1 as [|r recs [_ Hb] _ IH]; [simpl; lia|].
  change (concat (map encode_table_rec (r :: recs)))
    with (encode_table_rec r ++ concat (map encode_table_rec recs)).
  rewrite length_app. pose proof (len_encode_table_rec r) as Hl.
  unfold len in Hl, Hb. simpl length. lia.
Qed.

(** The loop stops, with the table it has, at a position where
    [table_stops] holds. *)
Lemma pinyin_table_loop_stops (pre rest : bytes) (t : gmap Z (list Z))
    (fuel : nat) (start_chinese : Z) :
  table_stops start_chinese (len pre) rest ->
  pinyin_table_loop (S fuel) (pre ++ rest) start_chinese (len pre) t = Ok t.
Proof.
  intros Hstop. pose proof (len_nonneg pre). pose proof (len_nonneg rest).
  cbn [pinyin_table_loop]. rewrite len_app.
  destruct Hstop as [Hsc|[Hshort|(i & ln & rest' & -> & Hi & Hln & Hbad)]].
  - destruct (Z.ltb_spec (len pre) start_chinese); [lia|].
    rewrite andb_false_r. reflexivity.
  - destruct (Z.leb_spec (len pre + 4) (len pre + len rest)); [lia|]. reflexivity.
  - destruct ((len pre + 4 <=? len pre + len (le16 i ++ le16 ln ++ rest'))
              && (len pre <? start_chinese)); [|reflexivity].
    pose proof (len_nonneg rest').
    set (data := pre ++ le16 i ++ le16 ln ++ rest').
    rewrite (byte_at_at data pre (byte_of_Z (i / 256) :: le16 ln ++ rest')
               (byte_of_Z i) (len pre)) by reflexivity.
    rewrite (byte_at_at data (pre ++ [byte_of_Z i]) (le16 ln ++ rest')
               (byte_of_Z (i / 256)) (len pre + 1))
      by (unfold data; rewrite <- ?app_assoc; len_norm; reflexivity || lia).
    unfold mbind at 1 2, result_bind. cbv beta iota.
    rewrite (byte_at_at data (pre ++ le16 i) (byte_of_Z (ln / 256) :: rest')
               (byte_of_Z ln) (len pre + 2))
      by (unfold data; rewrite <- ?app_assoc; len_norm; reflexivity || lia).
    rewrite (byte_at_at data (pre ++ le16 i ++ [byte_of_Z ln]) rest'
               (byte_of_Z (ln / 256)) (len pre + 2 + 1))
      by (unfold data; rewrite <- ?app_assoc; len_norm; reflexivity || lia).
    unfold mbind, result_bind. cbv beta iota.
    rewrite (u16_le16 ln Hln).
    assert (Hlen : len data = len pre + 4 + len rest').
    { unfold data. len_norm. lia. }
    destruct (Z.leb_spec ln 0); [reflexivity|]. cbn [orb].
    destruct (Z.gtb_spec (len pre + 2 + 2 + ln)
                (len pre + len (le16 i ++ le16 ln ++ rest'))) as [Hg|Hg];
      [reflexivity|]. revert Hg. len_norm. lia.
Qed.

(** The table built from a table area: its records, up to where the loop
    stops. *)
Lemma _read_pinyin_table_scel_run (hdr rest : bytes)
    (recs : list (Z * list byte)) (start_py start_chinese : Z) :
  Forall table_rec_wf recs ->
  len hdr = start_py + 4 -> 0 <= start_py ->
  starts_before start_chinese (len hdr) recs ->
  table_stops start_chinese
    (len hdr + len (concat (map encode_table_rec recs))) rest ->
  _read_pinyin_table_scel (hdr ++ concat (map encode_table_rec recs) ++ rest)
    start_py start_chinese
  = Ok (table_of recs).
Proof.
  intros Hwf Hh Hsp Hst Hstop. unfold _read_pinyin_table_scel, table_of.
  rewrite <- Hh.
  pose proof (table_area_length recs Hwf) as Hl.
  set (data := hdr ++ concat (map encode_table_rec recs) ++ rest).
  assert (Hf : exists fuel, length data = (length recs + S fuel)%nat).
  { exists (length data - length recs - 1)%nat.
    unfold data. rewrite !length_app. unfold len in Hh. lia. }
  destruct Hf as [fuel ->].
  unfold data. rewrite (pinyin_table_loop_run rest recs hdr ∅ (S fuel)
                          start_chinese Hwf Hst).
  replace (len hdr + len (concat (map encode_table_rec recs)))
    with (len (hdr ++ concat (map encode_table_rec recs))) in *
    by (rewrite len_app; reflexivity).
  rewrite (app_assoc hdr).
  apply pinyin_table_loop_stops. exact Hstop.
Qed.

(** A table area made of well-formed records and ending where the word
    area starts is read whole. *)
Lemma _read_pinyin_table_scel_records (hdr rest : bytes)
    (recs : list (Z * list byte)) (start_py : Z) :
  Forall table_rec_wf recs ->
  len hdr = start_py + 4 -> 0 <= start_py ->
  _read_pinyin_table_scel (hdr ++ concat (map encode_table_rec recs) ++ rest)
    start_py (len hdr + len (concat (map encode_table_rec recs)))
  = Ok (table_of recs).
Proof.
  intros Hwf Hh Hsp.
  apply _read_pinyin_table_scel_run; try assumption.
  - apply starts_before_exact. exact Hwf.
  - left. lia.
Qed.

Lemma table_fold_lookup (recs : list (Z * list byte)) :
  forall (t : gmap Z (list Z)) (i : Z),
  (i ∉ map fst recs ->
   fold_left (fun t r => <[r.1 := decode_utf16le r.2]> t) recs t !! i = t !! i) /\
  (forall l1 bs l2, recs = l1 ++ (i, bs) :: l2 -> i ∉ map fst l2 ->
   fold_left (fun t r => <[r.1 := decode_utf16le r.2]> t) recs t !! i
   = Some (decode_utf16le bs)).
Proof.
  induction recs as [|[j bs'] recs IH]; intros t i; split.
  - reflexivity.
  - intros l1 bs l2 Hnil. destruct l1; discriminate.
  - simpl. intros Hn. apply not_elem_of_cons in Hn as [Hne Hn].
    rewrite (proj1 (IH _ i) Hn). apply lookup_insert_ne. congruence.
  - intros l1 bs l2 Heq Hn. simpl.
    destruct l1 as [|x l1]; simpl in Heq.
    + injection Heq as -> -> ->.
      rewrite (proj1 (IH _ i) Hn). apply lookup_insert_eq.
    + injection Heq as _ ->. apply (proj2 (IH _ i) l1 bs l2 eq_refl Hn).
Qed.

Lemma scel_words_stream (data rest : bytes) (py_list : list str)
    (ws : list (list byte * list byte)) :
  forall (pre : bytes) (out : list Entry),
  data = pre ++ concat (map encode_scel_word ws) ++ rest ->
  Forall (fun w => 0 < len w.1 < 65536 /\ len w.2 < 65536) ws ->
  scel_words (length ws) data py_list (len pre) out
  = Ok (len pre + len (concat (map encode_scel_word ws)),
        out ++ map (fun w => mkEntry (decode_utf16le w.1) py_list
                                     (Some (scel_freq w.2))) ws).
Proof.
  induction ws as [|[wb ext] ws IH]; intros pre out Hdata Hwf.
  - simpl. rewrite app_nil_r, len_nil, Z.add_0_r. reflexivity.
  - apply Forall_cons in Hwf as [[Hw He] Hwf]. simpl in Hw, He.
    change (concat (map encode_scel_word ((wb, ext) :: ws)))
      with ((le16 (len wb) ++ wb ++ le16 (len ext) ++ ext) ++
            concat (map encode_scel_word ws)) in Hdata.
    rewrite <- !app_assoc in Hdata.
    simpl length.
    rewrite (scel_words_word data pre wb ext
               (concat (map encode_scel_word ws) ++ rest) py_list (length ws)
               (len pre) out Hdata eq_refl Hw He).
    replace (len pre + 2 + len wb + 2 + len ext)
      with (len (pre ++ encode_scel_word (wb, ext)))
      by (unfold encode_scel_word; len_norm; simpl; lia).
    rewrite IH; [|rewrite Hdata; unfold encode_scel_word; simpl fst; simpl snd;
                  rewrite <- !app_assoc; reflexivity|exact Hwf].
    change (concat (map encode_scel_word ((wb, ext) :: ws)))
      with (encode_scel_word (wb, ext) ++ concat (map encode_scel_word ws)).
    rewrite <- app_assoc. simpl map. f_equal. f_equal. rewrite !len_app. lia.
Qed.

Lemma scel_group_decode (pre rest : bytes) (t : gmap Z (list Z))
    (g : list byte * list (list byte * list byte)) (out : list Entry) :
  scel_group_wf g ->
  scel_group (pre ++ encode_scel_group g ++ rest) t (len pre) out
  = Ok (Some (len pre + len (encode_scel_group g),
              out ++ scel_group_entries t g)) /\
  8 < len (encode_scel_group g).
Proof.
  destruct g as [idx ws]. intros (Hi & Hs & Hw). simpl in Hi, Hs, Hw.
  unfold encode_scel_group, scel_group_entries. simpl fst. simpl snd.
  pose proof (len_nonneg (concat (map encode_scel_word ws))) as Hc.
  split.
  - rewrite <- !app_assoc.
    rewrite (scel_group_header _ pre idx
               (concat (map encode_scel_word ws) ++ rest) t (len ws) out eq_refl)
      by lia.
    replace (Z.to_nat (len ws)) with (length ws) by (unfold len; lia).
    replace (len pre + 2 + 2 + len idx)
      with (len (pre ++ le16 (len ws) ++ le16 (len idx) ++ idx))
      by (len_norm; lia).
    rewrite (scel_words_stream _ rest (group_pinyin idx t) ws
               (pre ++ le16 (len ws) ++ le16 (len idx) ++ idx) out);
      [|rewrite <- !app_assoc; reflexivity|exact Hw].
    simpl. do 3 f_equal. len_norm. lia.
  - destruct ws as [|[wb ext] ws]; [unfold len in Hs; simpl in Hs; lia|].
    apply Forall_cons in Hw as [[Hwb _] _]. simpl in Hwb.
    change (concat (map encode_scel_word ((wb, ext) :: ws)))
      with ((le16 (len wb) ++ wb ++ le16 (len ext) ++ ext) ++
            concat (map encode_scel_word ws)).
    pose proof (len_nonneg ext).
    pose proof (len_nonneg (concat (map encode_scel_word ws))).
    len_norm. lia.
Qed.

(** ** What every decoded entry satisfies, and how many there can be *)

Lemma baidu_record_inv (data : bytes) (off off' : Z) (e : Entry) :
  0 <= off -> baidu_record data off = Ok (Some (off', e)) ->
  off + 4 <= off' <= len data /\ freq16 e.
Proof.
  intros Hoff H. unfold baidu_record in H.
  destruct (_u16le data off) as [[py_len o1]|[]] eqn:E1;
    simpl in H; try discriminate.
  destruct (_u16le_inv _ _ _ _ Hoff E1) as (-> & Hpy & Hb1).
  destruct (_u16le data (off + 2)) as [[fr o2]|[]] eqn:E2;
    simpl in H; try discriminate.
  assert (Hoff2 : 0 <= off + 2) by lia.
  destruct (_u16le_inv _ _ _ _ Hoff2 E2) as (-> & Hfr & Hb2).
  destruct (Z.ltb_spec (len data - (off + 2 + 2)) 2); [discriminate|].
  destruct (byte_at data (off + 2 + 2)) as [p0|]; [|discriminate].
  destruct (byte_at data (off + 2 + 2 + 1)) as [p1|]; [|discriminate].
  simpl in H.
  assert (Hf : forall w p, freq16 (mkEntry w p (Some fr))).
  { intros w p. exists fr. split; [reflexivity|exact Hfr]. }
  destruct ((p0 =? 0) && (p1 =? 0)).
  { destruct (_u16le data (off + 2 + 2 + 2)) as [[wl o3]|[]] eqn:E3;
      simpl in H; try discriminate.
    assert (Hoff3 : 0 <= off + 2 + 2 + 2) by lia.
    destruct (_u16le_inv _ _ _ _ Hoff3 E3) as (-> & Hwl & Hb3).
    destruct (Z.ltb_spec (len data - (off + 2 + 2 + 2 + 2))
                         (py_len * 2 + wl * 2)); [discriminate|].
    injection H as <- <-. split; [lia|apply Hf]. }
  destruct ((p0 >=? len BDICT_SM) && negb (p0 =? 255)).
  { destruct (Z.ltb_spec (len data - (off + 2 + 2 + 1)) py_len); [discriminate|].
    injection H as <- <-. split; [lia|apply Hf]. }
  destruct (baidu_syllables (Z.to_nat py_len) data (off + 2 + 2) [])
    as [[[o' p']|]|] eqn:Es; simpl in H; try discriminate.
  assert (Hoff4 : 0 <= off + 2 + 2) by lia.
  pose proof (baidu_syllables_bounds _ _ _ _ _ _ Hoff4 Es) as Hbd.
  destruct (Z.ltb_spec (len data - o') (py_len * 2)); [discriminate|].
  injection H as <- <-. split; [lia|apply Hf].
Qed.

Lemma baidu_loop_inv (data : bytes) (fuel : nat) :
  forall off out r, 0 <= off -> baidu_loop fuel data off out = Ok r ->
  exists new, r = out ++ new /\ Forall freq16 new /\
              4 * len new <= Z.max 0 (len data - off - 1).
Proof.
  induction fuel as [|fuel IH]; intros off out r Hoff H; simpl in H.
  - destruct (len data - off >? 4); [discriminate|]. injection H as <-.
    exists []. rewrite app_nil_r, (@len_nil Entry). split; [reflexivity|].
    split; [constructor|lia].
  - destruct (Z.gtb_spec (len data - off) 4) as [Hgt|].
    2:{ injection H as <-. exists []. rewrite app_nil_r, (@len_nil Entry).
        split; [reflexivity|]. split; [constructor|lia]. }
    destruct (baidu_record data off) as [[[off' e]|]|] eqn:Er; simpl in H;
      [| |discriminate].
    + destruct (baidu_record_inv data off off' e Hoff Er) as [Hb Hf].
      apply IH in H as (new & -> & Hall & Hn); [|lia].
      exists (e :: new). rewrite <- app_assoc. split; [reflexivity|].
      split; [constructor; assumption|]. rewrite len_cons. lia.
    + injection H as <-. exists []. rewrite app_nil_r, (@len_nil Entry).
      split; [reflexivity|]. split; [constructor|lia].
Qed.

Lemma from_bytes_little_2 (a b : byte) :
  0 <= from_bytes_little [a; b] < 65536.
Proof.
  simpl. pose proof (byte_to_Z_range a). pose proof (byte_to_Z_range b). lia.
Qed.

Lemma scel_freq_range (ext : bytes) : 0 <= scel_freq ext < 65536.
Proof.
  unfold scel_freq. destruct (Z.geb_spec (len ext) 2) as [Hge|]; [|lia].
  rewrite slice_nonneg by lia.
  destruct ext as [|a [|b ext]]; try (unfold len in Hge; simpl in Hge; lia).
  apply from_bytes_little_2.
Qed.

Lemma group_pinyin_nonempty (py_bytes : bytes) (t : gmap Z (list Z)) :
  [] ∉ group_pinyin py_bytes t.
Proof.
  unfold group_pinyin, resolve_pinyin. rewrite list_elem_of_filter.
  intros [Hne _]. apply Hne. reflexivity.
Qed.

Lemma scel_words_inv (data : bytes) (py_list : list str) (k : nat) :
  forall pos out pos' out', 0 <= pos <= len data ->
  scel_words k data py_list pos out = Ok (pos', out') ->
  exists new, out' = out ++ new /\
              pos + 5 * len new <= pos' <= len data /\
              Forall (fun e => pinyin e = py_list /\ freq16 e) new.
Proof.
  induction k as [|k IH]; intros pos out pos' out' Hpos H; simpl in H.
  - injection H as <- <-. exists []. rewrite app_nil_r, (@len_nil Entry).
    split; [reflexivity|]. split; [lia|constructor].
  - assert (Hstop : forall p, pos <= p <= len data -> Ok (p, out) = Ok (pos', out') ->
              exists new, out' = out ++ new /\
                pos + 5 * len new <= pos' <= len data /\
                Forall (fun e => pinyin e = py_list /\ freq16 e) new).
    { intros p Hp Hq. injection Hq as <- <-. exists [].
      rewrite app_nil_r, (@len_nil Entry). split; [reflexivity|]. split; [lia|constructor]. }
    destruct (Z.ltb_spec (len data - pos) 2); [apply (Hstop pos); [lia|exact H]|].
    rewrite !_u16le_mem_eq in H.
    destruct (_u16le_cases data pos) as [[? _]|(_ & wlen & E & Hw)]; [lia|lia|].
    rewrite E in H. simpl in H.
    destruct (Z.leb_spec wlen 0); simpl in H;
      [apply (Hstop (pos + 2)); [lia|exact H]|].
    destruct (Z.ltb_spec (len data - (pos + 2)) wlen);
      [apply (Hstop (pos + 2)); [lia|exact H]|].
    destruct (Z.ltb_spec (len data - (pos + 2 + wlen)) 2);
      [apply (Hstop (pos + 2 + wlen)); [lia|exact H]|].
    rewrite !_u16le_mem_eq in H.
    destruct (_u16le_cases data (pos + 2 + wlen)) as [[? _]|(_ & elen & E' & He)];
      [lia|lia|].
    rewrite E' in H. simpl in H.
    destruct (Z.ltb_spec elen 0); simpl in H;
      [apply (Hstop (pos + 2 + wlen + 2)); [lia|exact H]|].
    destruct (Z.ltb_spec (len data - (pos + 2 + wlen + 2)) elen);
      [apply (Hstop (pos + 2 + wlen + 2)); [lia|exact H]|].
    apply IH in H as (new & -> & Hb & Hall); [|lia].
    eexists (_ :: new). rewrite <- app_assoc. split; [reflexivity|].
    split; [rewrite len_cons; lia|].
    constructor; [|exact Hall]. split; [reflexivity|].
    eexists. split; [reflexivity|apply scel_freq_range].
Qed.

Lemma scel_group_inv (data : bytes) (t : gmap Z (list Z)) (pos pos' : Z)
    (out out' : list Entry) :
  0 <= pos <= len data ->
  scel_group data t pos out = Ok (Some (pos', out')) ->
  exists new, out' = out ++ new /\
              pos + 5 + 5 * len new <= pos' <= len data /\
              Forall (fun e => ([] ∉ pinyin e) /\ freq16 e) new.
Proof.
  intros Hpos H. unfold scel_group in H. rewrite !_u16le_mem_eq in H.
  destruct (_u16le_cases data pos) as [[_ E]|(_ & same & E & Hs)]; [lia| |];
    rewrite E in H; simpl in H; [discriminate|].
  rewrite !_u16le_mem_eq in H.
  destruct (_u16le_cases data (pos + 2)) as [[_ E2]|(Hin & pl & E2 & Hpl)];
    [lia| |]; rewrite E2 in H; simpl in H; [discriminate|].
  destruct (Z.leb_spec pl 0); simpl in H; [discriminate|].
  destruct (Z.ltb_spec (len data - (pos + 2 + 2)) pl); [discriminate|].
  rewrite _parse_py_indexes_scel_spec in H. simpl in H.
  match type of H with
  | context [scel_words ?k data ?pl' ?p out] =>
      destruct (scel_words k data pl' p out) as [[q o]|] eqn:Ew
  end; simpl in H; [|discriminate].
  injection H as <- <-.
  apply scel_words_inv in Ew as (new & -> & Hb & Hall); [|lia].
  exists new. split; [reflexivity|]. split; [lia|].
  eapply Forall_impl; [exact Hall|].
  intros e [-> Hf]. split; [apply group_pinyin_nonempty|exact Hf].
Qed.

Lemma scel_loop_inv (data : bytes) (t : gmap Z (list Z)) (fuel : nat) :
  forall pos out r, 0 <= pos -> scel_loop fuel data t pos out = Ok r ->
  exists new, r = out ++ new /\
              Forall (fun e => ([] ∉ pinyin e) /\ freq16 e) new /\
              5 * len new <= Z.max 0 (len data - pos - 5).
Proof.
  induction fuel as [|fuel IH]; intros pos out r Hpos H; simpl in H.
  - destruct (len data - pos >? 8); [discriminate|]. injection H as <-.
    exists []. rewrite app_nil_r, (@len_nil Entry). split; [reflexivity|].
    split; [constructor|lia].
  - destruct (Z.gtb_spec (len data - pos) 8) as [Hgt|].
    2:{ injection H as <-. exists []. rewrite app_nil_r, (@len_nil Entry).
        split; [reflexivity|]. split; [constructor|lia]. }
    destruct (scel_group data t pos out) as [[[pos' out']|]|] eqn:Eg; simpl in H;
      [| |discriminate].
    + apply scel_group_inv in Eg as (new1 & -> & Hb & Hall1); [|lia].
      pose proof (len_nonneg new1).
      apply IH in H as (new2 & -> & Hall2 & Hn); [|lia].
      pose proof (len_nonneg new2).
      exists (new1 ++ new2). rewrite app_assoc. split; [reflexivity|].
      split; [apply Forall_app; split; assumption|].
      rewrite len_app. lia.
    + injection H as <-. exists []. rewrite app_nil_r, (@len_nil Entry).
      split; [reflexivity|]. split; [constructor|lia].
Qed.

(** ** The Baidu decoder reads nothing before its start offset *)

Lemma byte_at_shift (pre d : bytes) (p o : Z) :
  p = len pre + o -> 0 <= o -> byte_at (pre ++ d) p = byte_at d o.
Proof.
  intros -> Ho. pose proof (len_nonneg pre). unfold byte_at.
  rewrite !getitem_nonneg by lia.
  replace (Z.to_nat (len pre + o)) with (length pre + Z.to_nat o)%nat
    by (unfold len; lia).
  rewrite lookup_app_r by lia.
  replace (length pre + Z.to_nat o - length pre)%nat with (Z.to_nat o) by lia.
  reflexivity.
Qed.

Lemma _u16le_shift (pre d : bytes) (p o : Z) :
  p = len pre + o -> 0 <= o ->
  _u16le (pre ++ d) p =
  match _u16le d o with
  | Ok (v, _) => Ok (v, p + 2)
  | Raise e => Raise e
  end.
Proof.
  intros Hp Ho. unfold _u16le. rewrite len_app.
  destruct (Z.gtb_spec (o + 2) (len d)), (Z.gtb_spec (p + 2) (len pre + len d));
    try lia; [reflexivity|].
  rewrite (byte_at_shift pre d p o) by lia.
  rewrite (byte_at_shift pre d (1 + p) (1 + o)) by lia.
  destruct (byte_at_in_range d o) as (lo & -> & _); [lia|].
  destruct (byte_at_in_range d (1 + o)) as (hi & -> & _); [lia|].
  reflexivity.
Qed.

Lemma slice_shift (pre d : bytes) (lo hi a b : Z) :
  lo = len pre + a -> hi = len pre + b -> 0 <= a -> a <= b -> b <= len d ->
  slice (pre ++ d) lo hi = slice d a b.
Proof.
  intros -> -> Ha Hab Hb. pose proof (len_nonneg pre).
  rewrite !slice_nonneg by (rewrite ?len_app; lia).
  replace (Z.to_nat (len pre + a)) with (length pre + Z.to_nat a)%nat
    by (unfold len; lia).
  rewrite drop_app_add.
  f_equal. lia.
Qed.

Lemma baidu_syllables_shift (pre d : bytes) (k : nat) :
  forall p o pinyin, p = len pre + o -> 0 <= o ->
  baidu_syllables k (pre ++ d) p pinyin =
  match baidu_syllables k d o pinyin with
  | Ok (Some (o', py')) => Ok (Some (len pre + o', py'))
  | Ok None => Ok None
  | Raise e => Raise e
  end.
Proof.
  induction k as [|k IH]; intros p o pinyin Hp Ho; simpl.
  - subst p. reflexivity.
  - rewrite len_app.
    replace (len pre + len d - p) with (len d - o) by lia.
    destruct (Z.ltb_spec (len d - o) 2); [reflexivity|].
    rewrite (byte_at_shift pre d p o) by lia.
    rewrite (byte_at_shift pre d (p + 1) (o + 1)) by lia.
    destruct (byte_at_in_range d o) as (sm & -> & _); [lia|].
    destruct (byte_at_in_range d (o + 1)) as (ym & -> & _); [lia|].
    simpl.
    destruct (sm =? 255); [apply IH; lia|].
    destruct ((sm >=? len BDICT_SM) || (ym >=? len BDICT_YM)); [reflexivity|].
    destruct (getitem BDICT_SM sm) as [s|]; [|reflexivity].
    destruct (getitem BDICT_YM ym) as [y|]; [|reflexivity].
    simpl. apply IH; lia.
Qed.

Lemma baidu_record_shift (pre d : bytes) (o : Z) :
  0 <= o ->
  baidu_record (pre ++ d) (len pre + o) =
  match baidu_record d o with
  | Ok (Some (o', e)) => Ok (Some (len pre + o', e))
  | Ok None => Ok None
  | Raise e => Raise e
  end.
Proof.
  intros Ho. unfold baidu_record. rewrite len_app.
  rewrite (_u16le_shift pre d (len pre + o) o) by lia.
  destruct (_u16le_cases d o Ho) as [[_ E]|(_ & py_len & E & Hpy)];
    rewrite E; simpl; [reflexivity|].
  rewrite (_u16le_shift pre d (len pre + o + 2) (o + 2)) by lia.
  destruct (_u16le_cases d (o + 2)) as [[_ E2]|(Hb2 & fr & E2 & Hfr)];
    [lia| |]; rewrite E2; simpl; [reflexivity|].
  replace (len pre + len d - (len pre + o + 2 + 2)) with (len d - (o + 2 + 2))
    by lia.
  destruct (Z.ltb_spec (len d - (o + 2 + 2)) 2); [reflexivity|].
  rewrite (byte_at_shift pre d (len pre + o + 2 + 2) (o + 2 + 2)) by lia.
  rewrite (byte_at_shift pre d (len pre + o + 2 + 2 + 1) (o + 2 + 2 + 1)) by lia.
  destruct (byte_at_in_range d (o + 2 + 2)) as (p0 & -> & _); [lia|].
  destruct (byte_at_in_range d (o + 2 + 2 + 1)) as (p1 & -> & _); [lia|].
  simpl.
  destruct ((p0 =? 0) && (p1 =? 0)).
  { rewrite (_u16le_shift pre d (len pre + o + 2 + 2 + 2) (o + 2 + 2 + 2)) by lia.
    destruct (_u16le_cases d (o + 2 + 2 + 2)) as [[_ E3]|(_ & wl & E3 & Hwl)];
      [lia| |]; rewrite E3; simpl; [reflexivity|].
    replace (len pre + len d - (len pre + o + 2 + 2 + 2 + 2))
      with (len d - (o + 2 + 2 + 2 + 2)) by lia.
    destruct (Z.ltb_spec (len d - (o + 2 + 2 + 2 + 2)) (py_len * 2 + wl * 2));
      [reflexivity|].
    rewrite (slice_shift pre d (len pre + o + 2 + 2 + 2 + 2)
               (len pre + o + 2 + 2 + 2 + 2 + py_len * 2)
               (o + 2 + 2 + 2 + 2) (o + 2 + 2 + 2 + 2 + py_len * 2)) by lia.
    rewrite (slice_shift pre d (len pre + o + 2 + 2 + 2 + 2 + py_len * 2)
               (len pre + o + 2 + 2 + 2 + 2 + py_len * 2 + wl * 2)
               (o + 2 + 2 + 2 + 2 + py_len * 2)
               (o + 2 + 2 + 2 + 2 + py_len * 2 + wl * 2)) by lia.
    do 3 f_equal. lia. }
  destruct ((p0 >=? len BDICT_SM) && negb (p0 =? 255)).
  { replace (len pre + len d - (len pre + o + 2 + 2 + 1))
      with (len d - (o + 2 + 2 + 1)) by lia.
    destruct (Z.ltb_spec (len d - (o + 2 + 2 + 1)) py_len); [reflexivity|].
    rewrite (slice_shift pre d (len pre + o + 2 + 2 + 1)
               (len pre + o + 2 + 2 + 1 + py_len)
               (o + 2 + 2 + 1) (o + 2 + 2 + 1 + py_len)) by lia.
    do 3 f_equal. lia. }
  rewrite (baidu_syllables_shift pre d (Z.to_nat py_len) (len pre + o + 2 + 2)
             (o + 2 + 2) []) by lia.
  destruct (baidu_syllables (Z.to_nat py_len) d (o + 2 + 2) [])
    as [[[o' p']|]|] eqn:Es; simpl; try reflexivity.
  assert (Ho4 : 0 <= o + 2 + 2) by lia.
  pose proof (baidu_syllables_bounds _ _ _ _ _ _ Ho4 Es) as Hbd.
  replace (len pre + len d - (len pre + o')) with (len d - o') by lia.
  destruct (Z.ltb_spec (len d - o') (py_len * 2)); [reflexivity|].
  rewrite (slice_shift pre d (len pre + o') (len pre + o' + py_len * 2)
             o' (o' + py_len * 2)) by lia.
  do 3 f_equal. lia.
Qed.

Lemma baidu_loop_shift (pre d : bytes) (fuel : nat) :
  forall o out, 0 <= o -> len d - o <= Z.of_nat fuel ->
  baidu_loop fuel (pre ++ d) (len pre + o) out = baidu_loop fuel d o out.
Proof.
  induction fuel as [|fuel IH]; intros o out Ho Hf; simpl; rewrite len_app;
    replace (len pre + len d - (len pre + o)) with (len d - o) by lia;
    destruct (Z.gtb_spec (len d - o) 4); try reflexivity.
  rewrite (baidu_record_shift pre d o Ho).
  destruct (baidu_record_ok d o Ho) as (r & Hr & Hb).
  rewrite Hr. simpl. destruct r as [[o' e]|]; [|reflexivity].
  apply IH; lia.
Qed.

Lemma parse_baidu_shift (pre d : bytes) (o : Z) :
  0 <= o -> parse_baidu (pre ++ d) (len pre + o) = parse_baidu d o.
Proof.
  intros Ho. unfold parse_baidu.
  pose proof (len_nonneg pre).
  rewrite (baidu_loop_fuel (pre ++ d) (length (pre ++ d)) (length d)
             (len pre + o) []).
  - apply baidu_loop_shift; [exact Ho|unfold len; lia].
  - lia.
  - unfold len. rewrite length_app. lia.
  - rewrite len_app. unfold len. lia.
Qed.

(** ** Records followed by any bytes *)

(** The entries found so far are only carried along by the loop. *)
Lemma baidu_loop_acc (data : bytes) (fuel : nat) :
  forall off out,
  baidu_loop fuel data off out
  = (fun r => out ++ r) <$> baidu_loop fuel data off [].
Proof.
  induction fuel as [|fuel IH]; intros off out; simpl.
  - destruct (len data - off >? 4); simpl; [reflexivity|].
    rewrite app_nil_r. reflexivity.
  - destruct (len data - off >? 4); simpl; [|rewrite app_nil_r; reflexivity].
    destruct (baidu_record data off) as [[[off' e]|]|]; simpl;
      [|rewrite app_nil_r; reflexivity|reflexivity].
    rewrite (IH off' (out ++ [e])), (IH off' [e]).
    destruct (baidu_loop fuel data off' []) as [r|]; simpl; [|reflexivity].
    rewrite <- app_assoc. reflexivity.
Qed.

(** The loop over a run of well-formed records goes on, after them, with
    their entries. *)
Lemma baidu_loop_records (rest : bytes) (rs : list baidu_rec) :
  forall (pre : bytes) (out : list Entry) (fuel : nat),
  Forall baidu_rec_wf rs ->
  len (concat (map encode_baidu_rec rs) ++ rest) <= Z.of_nat fuel ->
  baidu_loop fuel (pre ++ concat (map encode_baidu_rec rs) ++ rest) (len pre) out
  = baidu_loop (length rest)
      (pre ++ concat (map encode_baidu_rec rs) ++ rest)
      (len pre + len (concat (map encode_baidu_rec rs)))
      (out ++ map baidu_rec_entry rs).
Proof.
  induction rs as [|r rs IH]; intros pre out fuel Hwf Hfuel.
  - pose proof (len_nonneg pre).
    simpl in *. rewrite len_nil, Z.add_0_r, app_nil_r.
    apply baidu_loop_fuel; [lia| |]; rewrite len_app; unfold len in *; lia.
  - apply Forall_cons in Hwf as [Hr Hwf].
    change (concat (map encode_baidu_rec (r :: rs)))
      with (encode_baidu_rec r ++ concat (map encode_baidu_rec rs)) in *.
    rewrite <- app_assoc. rewrite <- app_assoc in Hfuel.
    destruct (baidu_rec_decode pre (concat (map encode_baidu_rec rs) ++ rest) r Hr)
      as [Hrec Hsize].
    pose proof (len_nonneg (concat (map encode_baidu_rec rs))) as Hrest.
    pose proof (len_nonneg rest) as Htl0.
    rewrite !len_app in Hfuel.
    destruct fuel as [|fuel]; [lia|].
    cbn [baidu_loop].
    match goal with
    | |- context [if ?c then _ else _] => destruct c eqn:Ec
    end.
    2:{ rewrite Z.gtb_ltb in Ec. apply Z.ltb_ge in Ec. revert Ec. len_norm. lia. }
    rewrite Hrec. unfold mbind, result_bind. cbv beta iota.
    replace (len pre + len (encode_baidu_rec r))
      with (len (pre ++ encode_baidu_rec r)) by (rewrite len_app; reflexivity).
    rewrite (app_assoc pre).
    rewrite IH; [|exact Hwf|rewrite len_app; lia].
    rewrite <- !app_assoc. simpl map. rewrite !len_app.
    rewrite Z.add_assoc. reflexivity.
Qed.

(** The groups of the word area: after a run of well-formed groups the
    loop goes on with their entries. *)
Lemma scel_loop_groups (rest : bytes) (t : gmap Z (list Z))
    (gs : list (list byte * list (list byte * list byte))) :
  forall (pre : bytes) (out : list Entry) (fuel : nat),
  Forall scel_group_wf gs ->
  len (concat (map encode_scel_group gs) ++ rest) <= Z.of_nat fuel ->
  scel_loop fuel (pre ++ concat (map encode_scel_group gs) ++ rest) t (len pre) out
  = scel_loop (length rest)
      (pre ++ concat (map encode_scel_group gs) ++ rest) t
      (len pre + len (concat (map encode_scel_group gs)))
      (out ++ concat (map (scel_group_entries t) gs)).
Proof.
  induction gs as [|g gs IH]; intros pre out fuel Hwf Hfuel.
  - pose proof (len_nonneg pre).
    simpl in *. rewrite len_nil, Z.add_0_r, app_nil_r.
    apply scel_loop_fuel; [lia| |]; rewrite len_app; unfold len in *; lia.
  - apply Forall_cons in Hwf as [Hg Hwf].
    change (concat (map encode_scel_group (g :: gs)))
      with (encode_scel_group g ++ concat (map encode_scel_group gs)) in *.
    change (concat (map (scel_group_entries t) (g :: gs)))
      with (scel_group_entries t g ++ concat (map (scel_group_entries t) gs)).
    rewrite <- app_assoc. rewrite <- app_assoc in Hfuel.
    destruct (scel_group_decode pre (concat (map encode_scel_group gs) ++ rest) t g out Hg)
      as [Hrec Hsize].
    pose proof (len_nonneg (concat (map encode_scel_group gs))) as Hrest.
    pose proof (len_nonneg rest) as Htl0.
    rewrite !len_app in Hfuel.
    destruct fuel as [|fuel]; [lia|].
    cbn [scel_loop].
    match goal with
    | |- context [if ?c then _ else _] => destruct c eqn:Ec
    end.
    2:{ rewrite Z.gtb_ltb in Ec. apply Z.ltb_ge in Ec. revert Ec. len_norm. lia. }
    rewrite Hrec. unfold mbind, result_bind. cbv beta iota.
    replace (len pre + len (encode_scel_group g))
      with (len (pre ++ encode_scel_group g)) by (rewrite len_app; reflexivity).
    rewrite (app_assoc pre).
    rewrite IH; [|exact Hwf|rewrite len_app; lia].
    rewrite <- !app_assoc. rewrite !len_app.
    rewrite Z.add_assoc. reflexivity.
Qed.

(** * Round trips, bounds and composition *)

(** X1.  A buffer made of any header, well-formed Baidu records of the three
    shapes and any further bytes, decoded from the end of the header, gives
    the records' entries in order, followed by what the decoder gives on
    the further bytes alone; with at most 4 further bytes it gives exactly
    the records' entries. *)
Theorem parse_baidu_records (pre rest : bytes) (rs : list baidu_rec) :
  Forall baidu_rec_wf rs ->
  parse_baidu (pre ++ concat (map encode_baidu_rec rs) ++ rest) (len pre)
  = (fun more => map baidu_rec_entry rs ++ more) <$> parse_baidu rest 0 /\
  (len rest <= 4 ->
   parse_baidu (pre ++ concat (map encode_baidu_rec rs) ++ rest) (len pre)
   = Ok (map baidu_rec_entry rs)).
Proof.
  intros Hwf.
  assert (E : parse_baidu (pre ++ concat (map encode_baidu_rec rs) ++ rest) (len pre)
              = (fun more => map baidu_rec_entry rs ++ more) <$> parse_baidu rest 0).
  { unfold parse_baidu.
    rewrite (baidu_loop_records rest rs pre [] _ Hwf)
      by (unfold len; rewrite !length_app; lia).
    rewrite app_nil_l, (app_assoc pre).
    replace (len pre + len (concat (map encode_baidu_rec rs)))
      with (len (pre ++ concat (map encode_baidu_rec rs)) + 0)
      by (rewrite len_app; lia).
    rewrite baidu_loop_shift by (unfold len; lia).
    apply baidu_loop_acc. }
  split; [exact E|].
  intros Hr. rewrite E. unfold parse_baidu.
  rewrite baidu_loop_stop by lia. simpl. rewrite app_nil_r. reflexivity.
Qed.

Lemma parse_baidu_records_witness :
  parse_baidu (bytes_of [1; 2] ++
               concat (map encode_baidu_rec baidu_three_records) ++ []) 2
  = (fun more => map baidu_rec_entry baidu_three_records ++ more)
      <$> parse_baidu [] 0 /\
  (len (@nil byte) <= 4 ->
   parse_baidu (bytes_of [1; 2] ++
                concat (map encode_baidu_rec baidu_three_records) ++ []) 2
   = Ok (map baidu_rec_entry baidu_three_records)).
Proof.
  apply (parse_baidu_records (bytes_of [1; 2]) [] baidu_three_records).
  repeat constructor; vm_compute; try congruence; right; split; reflexivity.
Defined.

(** X2.  The Baidu decoder never looks before its start offset: decoding
    from [start] gives what decoding the bytes from [start] on gives from
    offset 0. *)
Theorem parse_baidu_start_offset (data : bytes) (start : Z) :
  0 <= start ->
  parse_baidu data start = parse_baidu (drop (Z.to_nat start) data) 0.
Proof.
  intros Hs. destruct (Z.le_gt_cases start (len data)) as [Hle|Hgt].
  - pose proof (parse_baidu_shift (take (Z.to_nat start) data)
                  (drop (Z.to_nat start) data) 0 ltac:(lia)) as E.
    rewrite take_drop in E. rewrite <- E. f_equal.
    unfold len in *. rewrite length_take. lia.
  - unfold parse_baidu. rewrite drop_ge by (unfold len in Hgt; lia).
    rewrite baidu_loop_stop by lia. reflexivity.
Qed.

Lemma parse_baidu_start_offset_witness :
  parse_baidu (bytes_of [9; 9; 9] ++ baidu_final27_buffer) 3
  = parse_baidu (drop (Z.to_nat 3) (bytes_of [9; 9; 9] ++ baidu_final27_buffer)) 0.
Proof.
  apply (parse_baidu_start_offset (bytes_of [9; 9; 9] ++ baidu_final27_buffer) 3).
  lia.
Defined.

(** X3.  From a non-negative start offset the Baidu decoder returns a
    list of entries whose frequencies are all integers of 16 bits, and it
    returns at most one entry for every 4 bytes after the start offset:
    [4 * len r <= len data - start - 1] when that is positive, no entry
    otherwise. *)
Theorem parse_baidu_entries_bound (data : bytes) (start : Z) :
  0 <= start ->
  exists r, parse_baidu data start = Ok r /\
            Forall freq16 r /\
            4 * len r <= Z.max 0 (len data - start - 1).
Proof.
  intros Hs. destruct (parse_baidu_ok data start Hs) as [r Hr].
  exists r. split; [exact Hr|].
  destruct (baidu_loop_inv data (length data) start [] r Hs Hr)
    as (new & -> & Hall & Hn).
  split; assumption.
Qed.

Lemma parse_baidu_entries_bound_witness :
  exists r, parse_baidu baidu_final27_buffer 0 = Ok r /\
            Forall freq16 r /\
            4 * len r <= Z.max 0 (len baidu_final27_buffer - 0 - 1).
Proof. apply (parse_baidu_entries_bound baidu_final27_buffer 0). lia. Defined.

(** X4.  The pinyin table of a Sogou buffer: when the table area, 4 bytes
    after [start_py], holds well-formed records that each start before
    [start_chinese], and is followed by something that ends the loop (the
    word area is reached, fewer than 4 bytes remain, or a record declares
    the length 0 or more bytes than remain), the table read maps exactly
    the indices of these records, each to the decoded text of the last
    record with that index. *)
Theorem read_pinyin_table_records (hdr rest : bytes)
    (recs : list (Z * list byte)) (start_py start_chinese : Z) :
  Forall table_rec_wf recs ->
  len hdr = start_py + 4 -> 0 <= start_py ->
  starts_before start_chinese (len hdr) recs ->
  table_stops start_chinese
    (len hdr + len (concat (map encode_table_rec recs))) rest ->
  exists t,
    _read_pinyin_table_scel (hdr ++ concat (map encode_table_rec recs) ++ rest)
      start_py start_chinese = Ok t /\
    t = table_of recs /\
    (forall i, i ∉ map fst recs -> t !! i = None) /\
    (forall l1 i bs l2, recs = l1 ++ (i, bs) :: l2 -> i ∉ map fst l2 ->
       t !! i = Some (decode_utf16le bs)).
Proof.
  intros Hwf Hh Hsp Hst Hstop. exists (table_of recs).
  split; [apply _read_pinyin_table_scel_run; assumption|].
  split; [reflexivity|]. unfold table_of. split.
  - intros i Hi. rewrite (proj1 (table_fold_lookup recs ∅ i) Hi).
    apply lookup_empty.
  - intros l1 i bs l2 Heq Hi.
    apply (proj2 (table_fold_lookup recs ∅ i) l1 bs l2 Heq Hi).
Qed.

Lemma read_pinyin_table_records_witness :
  exists t,
    _read_pinyin_table_scel
      (bytes_of [0; 0; 0; 0] ++ concat (map encode_table_rec scel_nihao_table) ++
       bytes_of [7; 0; 0])
      0 100 = Ok t /\
    t = table_of scel_nihao_table /\
    (forall i, i ∉ map fst scel_nihao_table -> t !! i = None) /\
    (forall l1 i bs l2, scel_nihao_table = l1 ++ (i, bs) :: l2 ->
       i ∉ map fst l2 -> t !! i = Some (decode_utf16le bs)).
Proof.
  apply (read_pinyin_table_records (bytes_of [0; 0; 0; 0]) (bytes_of [7; 0; 0])
           scel_nihao_table 0 100).
  - repeat constructor; vm_compute; congruence.
  - reflexivity.
  - lia.
  - vm_compute. repeat split.
  - right. left. vm_compute. reflexivity.
Defined.

(** X5.  A Sogou buffer made of a header that ends 4 bytes after
    [start_py], well-formed table records, well-formed groups starting at
    [start_chinese], and any further bytes, decodes to the groups' words in
    order, each with the pinyin its group's indices have in the table and
    the frequency of its extension, followed by what the further bytes
    give; with at most 8 further bytes nothing follows. *)
Theorem parse_scel_records (hdr rest : bytes) (recs : list (Z * list byte))
    (gs : list (list byte * list (list byte * list byte))) (start_py : Z) :
  Forall table_rec_wf recs -> Forall scel_group_wf gs ->
  len hdr = start_py + 4 -> 0 <= start_py ->
  exists more,
    parse_scel (hdr ++ concat (map encode_table_rec recs) ++
                concat (map encode_scel_group gs) ++ rest)
               start_py (len hdr + len (concat (map encode_table_rec recs)))
    = Ok (concat (map (scel_group_entries (table_of recs)) gs) ++ more) /\
    (len rest <= 8 -> more = []).
Proof.
  intros Hr Hg Hh Hsp. unfold parse_scel.
  rewrite (_read_pinyin_table_scel_records hdr _ recs start_py Hr Hh Hsp).
  unfold mbind, result_bind. cbv beta iota.
  replace (len hdr + len (concat (map encode_table_rec recs)))
    with (len (hdr ++ concat (map encode_table_rec recs)))
    by (rewrite len_app; reflexivity).
  rewrite (app_assoc hdr).
  rewrite (scel_loop_groups rest (table_of recs) gs
             (hdr ++ concat (map encode_table_rec recs)) [] _ Hg)
    by (unfold len; rewrite !length_app; lia).
  rewrite app_nil_l.
  pose proof (len_nonneg (hdr ++ concat (map encode_table_rec recs))) as H0.
  pose proof (len_nonneg (concat (map encode_scel_group gs))) as H1.
  match goal with
  | |- context [scel_loop ?f ?d ?t ?p ?o] =>
      destruct (scel_loop_ok d t f p o) as [more Hm];
        [lia|rewrite !len_app; unfold len; lia|]
  end.
  exists more. split; [exact Hm|].
  intros Hrest. rewrite scel_loop_stop in Hm by (rewrite !len_app; lia).
  injection Hm as Hm.
  rewrite <- (app_nil_r (concat _)) in Hm at 1.
  apply app_inv_head in Hm. symmetry. exact Hm.
Qed.

Lemma parse_scel_records_witness :
  exists more,
    parse_scel (bytes_of [0; 0; 0; 0] ++
                concat (map encode_table_rec scel_nihao_table) ++
                concat (map encode_scel_group scel_nihao_groups) ++ [])
               0 (len (bytes_of [0; 0; 0; 0]) +
                  len (concat (map encode_table_rec scel_nihao_table)))
    = Ok (concat (map (scel_group_entries (table_of scel_nihao_table))
                      scel_nihao_groups) ++ more) /\
    (len (@nil byte) <= 8 -> more = []).
Proof.
  apply (parse_scel_records (bytes_of [0; 0; 0; 0]) [] scel_nihao_table
           scel_nihao_groups 0).
  - repeat constructor; vm_compute; congruence.
  - repeat constructor; vm_compute; congruence.
  - reflexivity.
  - lia.
Defined.

(** X6.  From non-negative offsets the Sogou decoder returns a list of
    entries in which no pinyin list holds an empty syllable and every
    frequency is an integer of 16 bits, and it returns at most one entry
    for every 5 bytes of the word area after the first 5:
    [5 * len r <= len data - start_chinese - 5] when that is positive, no
    entry otherwise. *)
Theorem parse_scel_entries_bound (data : bytes) (start_py start_chinese : Z) :
  0 <= start_py -> 0 <= start_chinese ->
  exists r, parse_scel data start_py start_chinese = Ok r /\
            Forall (fun e => ([] ∉ pinyin e) /\ freq16 e) r /\
            5 * len r <= Z.max 0 (len data - start_chinese - 5).
Proof.
  intros Hp Hc. destruct (parse_scel_ok data start_py start_chinese Hp Hc) as [r Hr].
  exists r. split; [exact Hr|].
  unfold parse_scel in Hr.
  destruct (_read_pinyin_table_scel data start_py start_chinese) as [t|];
    simpl in Hr; [|discriminate].
  destruct (scel_loop_inv data t (length data) start_chinese [] r Hc Hr)
    as (new & -> & Hall & Hn).
  split; assumption.
Qed.

Lemma parse_scel_entries_bound_witness :
  exists r, parse_scel scel_nihao_buffer 0 22 = Ok r /\
            Forall (fun e => ([] ∉ pinyin e) /\ freq16 e) r /\
            5 * len r <= Z.max 0 (len scel_nihao_buffer - 22 - 5).
Proof. apply (parse_scel_entries_bound scel_nihao_buffer 0 22); lia. Defined.

(** ** The Sogou decoder reads nothing before its two offsets *)

Lemma pinyin_table_loop_shift (pre d : bytes) (sc : Z) (f1 : nat) :
  forall (f2 : nat) (p o : Z) (t : gmap Z (list Z)),
  p = len pre + o -> 0 <= o ->
  len d - o <= Z.of_nat f1 -> len d - o <= Z.of_nat f2 ->
  pinyin_table_loop f1 (pre ++ d) (len pre + sc) p t
  = pinyin_table_loop f2 d sc o t.
Proof.
  induction f1 as [|f1 IH]; intros f2 p o t Hp Ho H1 H2;
    destruct f2 as [|f2]; cbn [pinyin_table_loop]; rewrite len_app;
    destruct (Z.leb_spec (p + 4) (len pre + len d)),
             (Z.leb_spec (o + 4) (len d)); try lia; try reflexivity.
  destruct (Z.ltb_spec p (len pre + sc)), (Z.ltb_spec o sc); try lia;
    try reflexivity.
  cbn [andb].
  rewrite (byte_at_shift pre d p o) by lia.
  rewrite (byte_at_shift pre d (p + 1) (o + 1)) by lia.
  rewrite (byte_at_shift pre d (p + 2) (o + 2)) by lia.
  rewrite (byte_at_shift pre d (p + 2 + 1) (o + 2 + 1)) by lia.
  destruct (byte_at_in_range d o) as (a & -> & _); [lia|].
  destruct (byte_at_in_range d (o + 1)) as (b & -> & _); [lia|].
  destruct (byte_at_in_range d (o + 2)) as (a' & -> & Ra); [lia|].
  destruct (byte_at_in_range d (o + 2 + 1)) as (b' & -> & Rb); [lia|].
  unfold mbind, result_bind. cbv beta iota.
  pose proof (u16_range a' b' Ra Rb) as Hln. unfold u16 in Hln.
  set (ln := Z.lor a' (Z.shiftl b' 8)) in *.
  destruct (Z.leb_spec ln 0); [reflexivity|]. cbn [orb].
  destruct (Z.gtb_spec (p + 2 + 2 + ln) (len pre + len d)),
           (Z.gtb_spec (o + 2 + 2 + ln) (len d)); try lia; [reflexivity|].
  rewrite (slice_shift pre d (p + 2 + 2) (p + 2 + 2 + ln)
             (o + 2 + 2) (o + 2 + 2 + ln)) by lia.
  apply IH; lia.
Qed.

Lemma _u16le_mem_shift (pre d : bytes) (p o : Z) :
  p = len pre + o -> 0 <= o ->
  _u16le_mem (pre ++ d) p =
  match _u16le_mem d o with
  | Ok (v, _) => Ok (v, p + 2)
  | Raise e => Raise e
  end.
Proof. intros Hp Ho. rewrite !_u16le_mem_eq. apply _u16le_shift; assumption. Qed.

Lemma scel_words_shift (pre d : bytes) (py_list : list str) (k : nat) :
  forall (p o : Z) (out : list Entry), p = len pre + o -> 0 <= o ->
  scel_words k (pre ++ d) py_list p out =
  match scel_words k d py_list o out with
  | Ok (o', out') => Ok (len pre + o', out')
  | Raise e => Raise e
  end.
Proof.
  induction k as [|k IH]; intros p o out Hp Ho; cbn [scel_words].
  - subst p. reflexivity.
  - rewrite len_app.
    replace (len pre + len d - p) with (len d - o) by lia.
    destruct (Z.ltb_spec (len d - o) 2); [subst p; reflexivity|].
    rewrite (_u16le_mem_shift pre d p o Hp Ho). rewrite !_u16le_mem_eq.
    destruct (_u16le_cases d o Ho) as [[Hs _]|(_ & wlen & -> & Hw)]; [lia|].
    unfold mbind at 1 3, result_bind. cbv beta iota.
    replace (len pre + len d - (p + 2)) with (len d - (o + 2)) by lia.
    destruct (Z.leb_spec wlen 0); [f_equal; f_equal; lia|]. cbn [orb].
    destruct (Z.ltb_spec (len d - (o + 2)) wlen); [f_equal; f_equal; lia|].
    rewrite (slice_shift pre d (p + 2) (p + 2 + wlen) (o + 2) (o + 2 + wlen))
      by lia.
    replace (len pre + len d - (p + 2 + wlen)) with (len d - (o + 2 + wlen))
      by lia.
    destruct (Z.ltb_spec (len d - (o + 2 + wlen)) 2); [f_equal; f_equal; lia|].
    rewrite (_u16le_mem_shift pre d (p + 2 + wlen) (o + 2 + wlen)) by lia.
    rewrite !_u16le_mem_eq.
    destruct (_u16le_cases d (o + 2 + wlen)) as [[Hs _]|(_ & el & -> & He)];
      [lia|lia|].
    unfold mbind, result_bind. cbv beta iota.
    replace (len pre + len d - (p + 2 + wlen + 2))
      with (len d - (o + 2 + wlen + 2)) by lia.
    destruct (Z.ltb_spec el 0); [lia|]. cbn [orb].
    destruct (Z.ltb_spec (len d - (o + 2 + wlen + 2)) el);
      [f_equal; f_equal; lia|].
    rewrite (slice_shift pre d (p + 2 + wlen + 2) (p + 2 + wlen + 2 + el)
               (o + 2 + wlen + 2) (o + 2 + wlen + 2 + el)) by lia.
    apply IH; lia.
Qed.

Lemma scel_group_shift (pre d : bytes) (t : gmap Z (list Z)) (o : Z)
    (out : list Entry) :
  0 <= o ->
  scel_group (pre ++ d) t (len pre + o) out =
  match scel_group d t o out with
  | Ok (Some (o', out')) => Ok (Some (len pre + o', out'))
  | Ok None => Ok None
  | Raise e => Raise e
  end.
Proof.
  intros Ho. unfold scel_group.
  rewrite (_u16le_mem_shift pre d (len pre + o) o eq_refl Ho).
  rewrite (_u16le_mem_eq d o).
  destruct (_u16le_cases d o Ho) as [[_ ->]|(_ & same & -> & Hs)];
    [reflexivity|].
  rewrite !bind_Ok. cbv beta iota.
  rewrite (_u16le_mem_shift pre d (len pre + o + 2) (o + 2)) by lia.
  rewrite (_u16le_mem_eq d (o + 2)).
  destruct (_u16le_cases d (o + 2)) as [[_ ->]|(_ & pl & -> & Hpl)];
    [lia|reflexivity|].
  rewrite !bind_Ok. cbv beta iota.
  unfold mret, result_ret, except_EOFError.
  rewrite !bind_Ok. cbv beta iota.
  rewrite len_app.
  replace (len pre + len d - (len pre + o + 2 + 2)) with (len d - (o + 2 + 2))
    by lia.
  destruct (Z.leb_spec pl 0); [reflexivity|]. cbn [orb].
  destruct (Z.ltb_spec (len d - (o + 2 + 2)) pl); [reflexivity|].
  rewrite (slice_shift pre d (len pre + o + 2 + 2) (len pre + o + 2 + 2 + pl)
             (o + 2 + 2) (o + 2 + 2 + pl)) by lia.
  rewrite _parse_py_indexes_scel_spec.
  rewrite !bind_Ok. cbv beta iota.
  rewrite (scel_words_shift pre d _ _ (len pre + o + 2 + 2 + pl)
             (o + 2 + 2 + pl)) by lia.
  destruct (scel_words (Z.to_nat same) d _ (o + 2 + 2 + pl) out) as [[o' out']|];
    reflexivity.
Qed.

Lemma scel_loop_shift (pre d : bytes) (t : gmap Z (list Z)) (fuel : nat) :
  forall o out, 0 <= o -> len d - o <= Z.of_nat fuel ->
  scel_loop fuel (pre ++ d) t (len pre + o) out = scel_loop fuel d t o out.
Proof.
  induction fuel as [|fuel IH]; intros o out Ho Hf; cbn [scel_loop];
    rewrite len_app;
    replace (len pre + len d - (len pre + o)) with (len d - o) by lia;
    destruct (Z.gtb_spec (len d - o) 8); try reflexivity.
  rewrite (scel_group_shift pre d t o out Ho).
  destruct (scel_group_ok d t o out Ho) as (r & Hr & Hb).
  rewrite Hr. unfold mbind, result_bind. cbv beta iota.
  destruct r as [[o' out']|]; [|reflexivity].
  apply IH; lia.
Qed.

(** X13.  Both offsets of the Sogou decoder are relative to the bytes
    they point into: with any bytes put before the buffer and both offsets
    moved by their number, the decoder returns the same entries. *)
Theorem parse_scel_shift (pre d : bytes) (start_py start_chinese : Z) :
  0 <= start_py -> 0 <= start_chinese ->
  parse_scel (pre ++ d) (len pre + start_py) (len pre + start_chinese)
  = parse_scel d start_py start_chinese.
Proof.
  intros Hp Hc. unfold parse_scel, _read_pinyin_table_scel.
  pose proof (len_nonneg pre).
  rewrite (pinyin_table_loop_shift pre d start_chinese (length (pre ++ d))
             (length d) (len pre + start_py + 4) (start_py + 4) ∅)
    by (rewrite ?length_app; unfold len in *; lia).
  destruct (pinyin_table_loop (length d) d start_chinese (start_py + 4) ∅)
    as [t|]; [|reflexivity].
  unfold mbind, result_bind. cbv beta iota.
  rewrite (scel_loop_fuel (pre ++ d) t (length (pre ++ d)) (length d)
             (len pre + start_chinese) [])
    by (rewrite ?len_app, ?length_app; unfold len in *; lia).
  apply scel_loop_shift; [exact Hc|unfold len; lia].
Qed.

Lemma parse_scel_shift_witness :
  parse_scel (bytes_of [7; 7; 7] ++ scel_nihao_buffer)
             (len (bytes_of [7; 7; 7]) + 0) (len (bytes_of [7; 7; 7]) + 22)
  = parse_scel scel_nihao_buffer 0 22.
Proof.
  apply (parse_scel_shift (bytes_of [7; 7; 7]) scel_nihao_buffer 0 22); lia.
Defined.

(** ** More on the reducers *)

Lemma dict_set_new {V} (d : dict V) (k : list Z) (v : V) :
  k ∉ map fst d -> dict_set d k v = d ++ [(k, v)].
Proof.
  induction d as [|[k0 v0] d IH]; simpl; intros Hn; [reflexivity|].
  apply not_elem_of_cons in Hn as [Hne Hn].
  destruct (decide (k = k0)); [contradiction|]. rewrite IH by exact Hn.
  reflexivity.
Qed.

Lemma rime_best_items_from (d2 : dict (list str * Z)) :
  forall d1 : dict (list str * Z),
  NoDup (map fst (d1 ++ d2)) ->
  fold_left rime_best_step (map item_entry d2) d1 = d1 ++ d2.
Proof.
  induction d2 as [|[k [p f]] d2 IH]; intros d1 Hnd; simpl.
  - rewrite app_nil_r. reflexivity.
  - assert (Hk : k ∉ map fst d1).
    { rewrite map_app in Hnd. apply NoDup_app in Hnd as (_ & Hd & _).
      intros Hin. apply (Hd k Hin). left. }
    unfold rime_best_step at 2. unfold item_entry at 2 3 4 5. simpl.
    rewrite (proj2 (dict_get_None d1 k) Hk).
    rewrite dict_set_new by exact Hk.
    rewrite IH; [rewrite <- app_assoc; reflexivity|].
    rewrite <- app_assoc. exact Hnd.
Qed.

(** X7.  The weighted merge is idempotent: merging the items of a merge,
    read back as entries, gives the same items in the same order, so
    [write_rime_yaml] writes the same text for them. *)
Theorem write_rime_yaml_again (es : list Entry) (name : str) :
  rime_best (map item_entry (rime_best es)) = rime_best es /\
  write_rime_yaml (map item_entry (rime_best es)) name = write_rime_yaml es name.
Proof.
  assert (E : rime_best (map item_entry (rime_best es)) = rime_best es).
  { unfold rime_best at 1.
    rewrite (rime_best_items_from (rime_best es) []); [reflexivity|].
    simpl. rewrite rime_best_keys. apply first_occurrences_NoDup. }
  split; [exact E|].
  unfold write_rime_yaml, rime_lines. rewrite E. reflexivity.
Qed.

(** X8.  Every word of the word list is the trimmed form of a key of the
    weighted merge, so the word list never has more words than the merge
    has lines. *)
Theorem word_list_within_merge (es : list Entry) :
  (forall w, w ∈ _uniq_stable_words es ->
     exists k, k ∈ map fst (rime_best es) /\ strip k = w) /\
  (length (_uniq_stable_words es) <= length (rime_lines es))%nat.
Proof.
  assert (H : forall w, w ∈ _uniq_stable_words es ->
            exists k, k ∈ map fst (rime_best es) /\ strip k = w).
  { intros w Hw. apply _uniq_stable_words_elem in Hw as [_ (e & He & <-)].
    exists (word e). split; [|reflexivity].
    rewrite rime_best_keys, first_occurrences_elem.
    apply list_elem_of_In, in_map, list_elem_of_In. exact He. }
  split; [exact H|].
  unfold rime_lines. rewrite length_map.
  rewrite <- (length_map fst (rime_best es)).
  rewrite <- (length_map strip (map fst (rime_best es))).
  apply submseteq_length, NoDup_submseteq; [apply _uniq_stable_words_NoDup|].
  intros w Hw. destruct (H w Hw) as (k & Hk & <-).
  apply list_elem_of_In, in_map, list_elem_of_In. exact Hk.
Qed.

Lemma concat_nil_iff {A} (ls : list (list A)) :
  concat ls = [] <-> Forall (fun l => l = []) ls.
Proof.
  induction ls as [|l ls IH]; simpl.
  - split; [constructor|reflexivity].
  - rewrite Forall_cons, <- IH. split.
    + intros H. apply app_eq_nil in H. exact H.
    + intros [-> ->]. reflexivity.
Qed.

(** X9.  The text of the word list is empty exactly when the trimmed word
    of every entry is empty; the weighted merge has no line exactly when
    there is no entry at all. *)
Theorem empty_outputs (es : list Entry) :
  (write_words_txt es = [] <-> Forall (fun e => strip (word e) = []) es) /\
  (rime_lines es = [] <-> es = []).
Proof.
  split.
  - unfold write_words_txt. rewrite concat_nil_iff. split.
    + intros H. apply Forall_forall. intros e He.
      destruct (strip (word e)) as [|c s] eqn:Es; [reflexivity|exfalso].
      assert (Hin : c :: s ∈ _uniq_stable_words es).
      { apply _uniq_stable_words_elem. split; [discriminate|].
        exists e. split; [exact He|exact Es]. }
      rewrite Forall_forall in H.
      assert (Hn : (c :: s) ++ NL = []).
      { apply H. apply list_elem_of_In, in_map_iff.
        exists (c :: s). split; [reflexivity|].
        apply list_elem_of_In. exact Hin. }
      discriminate.
    + intros H. destruct (_uniq_stable_words es) as [|w ws] eqn:Eu;
        [constructor|exfalso].
      assert (Hin : w ∈ _uniq_stable_words es) by (rewrite Eu; left).
      apply _uniq_stable_words_elem in Hin as [Hne (e & He & Hs)].
      rewrite Forall_forall in H. apply Hne. rewrite <- Hs.
      apply H. exact He.
  - split.
    + intros H. destruct es as [|e es]; [reflexivity|exfalso].
      destruct (rime_best_has_word (e :: es) e ltac:(left)) as (i & v & _ & _ & Hl).
      rewrite H in Hl. destruct i; discriminate.
    + intros ->. reflexivity.
Qed.

Lemma freq16_is_Some (es : list Entry) :
  Forall freq16 es -> Forall (fun e => is_Some (freq e)) es.
Proof.
  intros H. eapply Forall_impl; [exact H|].
  intros e (f & Hf & _). exists f. exact Hf.
Qed.

(** For entries with 16-bit frequencies, as both decoders give them, the
    merge records for each word an entry of maximal frequency. *)
Lemma rime_best_of_freq16 (es : list Entry) (w : list Z) :
  Forall freq16 es -> w ∈ map word es ->
  exists e f,
    e ∈ es /\ word e = w /\ freq e = Some f /\ 0 <= f < 65536 /\
    dict_get (rime_best es) w = Some (pinyin e, f) /\
    forall e', e' ∈ es -> word e' = w -> exists g, freq e' = Some g /\ g <= f.
Proof.
  intros Hall Hw.
  destruct (earliest_max_exists es w (freq16_is_Some es Hall) Hw)
    as (l1 & e & l2 & f & -> & He & Hf & H1 & H2).
  exists e, f.
  assert (Hin : e ∈ l1 ++ e :: l2) by (apply elem_of_app; right; left).
  split; [exact Hin|]. split; [exact He|]. split; [exact Hf|].
  split.
  { rewrite Forall_forall in Hall.
    destruct (Hall e Hin) as (f' & Hf' & Hr).
    congruence. }
  split.
  { rewrite <- He. apply rime_best_winner; [exact Hf| |]; rewrite He; assumption. }
  intros e' Hi Hw'. apply elem_of_app in Hi as [Hi|Hi].
  - destruct (H1 e' Hi Hw') as (g & Hg & Hlt). exists g. split; [exact Hg|lia].
  - apply elem_of_cons in Hi as [->|Hi].
    + exists f. split; [exact Hf|lia].
    + exact (H2 e' Hi Hw').
Qed.

(** ** The decoders feeding the merge; order and concatenation of entries *)

(** X10.  The entries either decoder returns can be merged as they are:
    for every word among them the weighted merge records the pinyin of
    one of its entries and that entry's frequency, an integer of 16 bits
    that no entry of the word exceeds, and the text written holds the
    line of that word: the word, a tab, the pinyin joined by spaces, a
    tab, the frequency, a line feed. *)
Theorem decoded_entries_merge (data : bytes) (start start_py start_chinese : Z)
    (r : list Entry) (w : str) :
  (0 <= start /\ parse_baidu data start = Ok r) \/
  (0 <= start_chinese /\ parse_scel data start_py start_chinese = Ok r) ->
  w ∈ map word r ->
  exists e f,
    e ∈ r /\ word e = w /\ freq e = Some f /\ 0 <= f < 65536 /\
    dict_get (rime_best r) w = Some (pinyin e, f) /\
    (forall e', e' ∈ r -> word e' = w -> exists g, freq e' = Some g /\ g <= f) /\
    let line := w ++ TAB ++
                (if truthy (pinyin e) then join (py " ") (pinyin e) else []) ++
                TAB ++ str_of_int f ++ NL in
    line ∈ rime_lines r /\
    forall name, exists before after,
      write_rime_yaml r name = before ++ line ++ after.
Proof.
  intros Hdec Hw.
  assert (Hall : Forall freq16 r).
  { destruct Hdec as [[Hs Hr]|[Hc Hr]].
    - destruct (baidu_loop_inv data (length data) start [] r Hs Hr)
        as (new & -> & Hall & _). exact Hall.
    - unfold parse_scel in Hr.
      destruct (_read_pinyin_table_scel data start_py start_chinese) as [t|];
        simpl in Hr; [|discriminate].
      destruct (scel_loop_inv data t (length data) start_chinese [] r Hc Hr)
        as (new & -> & Hall & _).
      eapply Forall_impl; [exact Hall|]. intros e [_ He]. exact He. }
  destruct (rime_best_of_freq16 r w Hall Hw) as (e & f & He & Hwe & Hf & Hr & Hg & Hmax).
  exists e, f. repeat (split; [assumption|]).
  destruct (rime_best_has_word r e He) as (i & v & _ & Hv & Hl).
  rewrite Hwe in Hv, Hl. rewrite Hg in Hv. injection Hv as <-.
  assert (Hin : rime_line (w, (pinyin e, f)) ∈ rime_lines r).
  { apply (list_elem_of_lookup_2 _ i). exact Hl. }
  cbv zeta. split; [exact Hin|].
  intros name. apply (rime_lines_in_text r name _ Hin).
Qed.

Lemma decoded_entries_merge_witness :
  (exists before after,
     write_rime_yaml [mkEntry [0x4f60] [py "ca"] (Some 5);
                      mkEntry [0x4f60] [py "co"] (Some 9)] (py "n")
     = before ++ [0x4f60] ++ TAB ++ py "co" ++ TAB ++ py "9" ++ NL ++ after) /\
  (exists before after,
     write_rime_yaml [mkEntry [0x4f60] [py "ni"] (Some 3);
                      mkEntry [0x4f60] [py "ni"] (Some 10)] (py "n")
     = before ++ [0x4f60] ++ TAB ++ py "ni" ++ TAB ++ py "10" ++ NL ++ after).
Proof.
  split.
  - destruct (decoded_entries_merge baidu_two_freq_buffer 0 0 0
                [mkEntry [0x4f60] [py "ca"] (Some 5);
                 mkEntry [0x4f60] [py "co"] (Some 9)] [0x4f60])
      as (e & f & He & _ & Hf & _ & _ & Hmax & Hline).
    + left. split; [lia|vm_compute; reflexivity].
    + simpl. left.
    + cbv zeta in Hline. destruct Hline as [_ Htext].
      destruct (Hmax (mkEntry [0x4f60] [py "co"] (Some 9)))
        as (g & Hg & Hle); [right; left|reflexivity|].
      simpl in Hg. injection Hg as <-.
      apply elem_of_cons in He as [->|He];
        [simpl in Hf; injection Hf as <-; lia|].
      apply elem_of_cons in He as [->|He]; [|inversion He].
      simpl in Hf. injection Hf as <-. exact (Htext (py "n")).
  - destruct (decoded_entries_merge scel_two_freq_buffer 0 0 12
                [mkEntry [0x4f60] [py "ni"] (Some 3);
                 mkEntry [0x4f60] [py "ni"] (Some 10)] [0x4f60])
      as (e & f & He & _ & Hf & _ & _ & Hmax & Hline).
    + right. split; [lia|vm_compute; reflexivity].
    + simpl. left.
    + cbv zeta in Hline. destruct Hline as [_ Htext].
      destruct (Hmax (mkEntry [0x4f60] [py "ni"] (Some 10)))
        as (g & Hg & Hle); [right; left|reflexivity|].
      simpl in Hg. injection Hg as <-.
      apply elem_of_cons in He as [->|He];
        [simpl in Hf; injection Hf as <-; lia|].
      apply elem_of_cons in He as [->|He]; [|inversion He].
      simpl in Hf. injection Hf as <-. exact (Htext (py "n")).
Defined.

(** What the merge records for a word: the largest frequency among the
    entries of that word. *)
Lemma rime_best_max (es : list Entry) (w : list Z) (p : list str) (f : Z) :
  Forall (fun e => is_Some (freq e)) es ->
  dict_get (rime_best es) w = Some (p, f) ->
  (exists e, e ∈ es /\ word e = w /\ freq e = Some f) /\
  (forall e', e' ∈ es -> word e' = w -> exists g, freq e' = Some g /\ g <= f).
Proof.
  intros Hall Hg.
  assert (Hw : w ∈ map word es).
  { rewrite <- first_occurrences_elem, <- rime_best_keys.
    destruct (decide (w ∈ map fst (rime_best es))) as [|Hn]; [assumption|].
    apply dict_get_None in Hn. congruence. }
  destruct (earliest_max_exists es w Hall Hw)
    as (l1 & e & l2 & f0 & -> & He & Hf & H1 & H2).
  assert (Hg' : dict_get (rime_best (l1 ++ e :: l2)) w = Some (pinyin e, f0)).
  { rewrite <- He. apply rime_best_winner; [exact Hf| |]; rewrite He; assumption. }
  rewrite Hg in Hg'. injection Hg' as -> ->.
  split.
  - exists e. split; [apply elem_of_app; right; left|]. split; assumption.
  - intros e' Hi Hw'. apply elem_of_app in Hi as [Hi|Hi].
    + destruct (H1 e' Hi Hw') as (g & Hg' & Hlt). exists g. split; [exact Hg'|lia].
    + apply elem_of_cons in Hi as [->|Hi].
      * exists f0. split; [exact Hf|lia].
      * exact (H2 e' Hi Hw').
Qed.

(** X11.  The frequency the weighted merge records for a word does not
    depend on the order of the entries: after any reordering of entries
    that all have a frequency, every word of the merge is still there with
    the same frequency (the pinyin recorded with it may be another one). *)
Theorem rime_best_freq_permutation (es es' : list Entry) (w : str)
    (p : list str) (f : Z) :
  es ≡ₚ es' ->
  Forall (fun e => is_Some (freq e)) es ->
  dict_get (rime_best es) w = Some (p, f) ->
  exists p', dict_get (rime_best es') w = Some (p', f).
Proof.
  intros Hperm Hall Hg.
  assert (Hall' : Forall (fun e => is_Some (freq e)) es').
  { rewrite <- Hperm. exact Hall. }
  destruct (rime_best_max es w p f Hall Hg) as [(e & He & Hw & Hf) Hmax].
  assert (He' : e ∈ es') by (rewrite <- Hperm; exact He).
  destruct (rime_best_has_word es' e He') as (i & [p' f'] & _ & Hv & _).
  rewrite Hw in Hv. exists p'.
  destruct (rime_best_max es' w p' f' Hall' Hv) as [(e2 & He2 & Hw2 & Hf2) Hmax'].
  destruct (Hmax' e He' Hw) as (g & Hg1 & Hle1).
  assert (He2' : e2 ∈ es) by (rewrite Hperm; exact He2).
  destruct (Hmax e2 He2' Hw2) as (g2 & Hg2 & Hle2).
  assert (f' = f) by (rewrite Hf in Hg1; rewrite Hf2 in Hg2; injection Hg1 as <-;
                      injection Hg2 as <-; lia).
  subst f'. exact Hv.
Qed.

Lemma rime_best_freq_permutation_witness :
  exists p', dict_get (rime_best [mkEntry [0x61] [py "b"] (Some 3);
                                  mkEntry [0x61] [py "a"] (Some 3)]) [0x61]
             = Some (p', 3).
Proof.
  apply (rime_best_freq_permutation
           [mkEntry [0x61] [py "a"] (Some 3); mkEntry [0x61] [py "b"] (Some 3)]
           [mkEntry [0x61] [py "b"] (Some 3); mkEntry [0x61] [py "a"] (Some 3)]
           [0x61] [py "a"] 3).
  - apply perm_swap.
  - repeat constructor; eexists; reflexivity.
  - vm_compute. reflexivity.
Defined.

Lemma first_occurrences_app (l1 l2 : list str) :
  first_occurrences (l1 ++ l2)
  = first_occurrences l1 ++ filter (fun x => x ∉ l1) (first_occurrences l2).
Proof.
  induction l1 as [|x l1 IH]; simpl.
  - symmetry. apply filter_all. intros y _. apply not_elem_of_nil.
  - rewrite IH, filter_app, list_filter_filter. do 2 f_equal.
    apply list_filter_iff. intros y. rewrite not_elem_of_cons. tauto.
Qed.

(** X12.  Entries of two lists put one after the other: the word list is
    the word list of the first, then the words of the second's word list
    that the first does not have, in their order; and the keys of the
    weighted merge follow the same rule. *)
Theorem outputs_of_concatenation (a b : list Entry) :
  _uniq_stable_words (a ++ b)
  = _uniq_stable_words a ++
    filter (fun w => w ∉ _uniq_stable_words a) (_uniq_stable_words b) /\
  map fst (rime_best (a ++ b))
  = map fst (rime_best a) ++
    filter (fun w => w ∉ map fst (rime_best a)) (map fst (rime_best b)).
Proof.
  split.
  - rewrite !_uniq_stable_words_spec, trimmed_words_app, first_occurrences_app.
    f_equal. apply list_filter_iff. intros w.
    rewrite first_occurrences_elem. reflexivity.
  - rewrite !rime_best_keys, map_app, first_occurrences_app.
    f_equal. apply list_filter_iff. intros w.
    rewrite first_occurrences_elem. reflexivity.
Qed.
